(** * BirdProject: classification storage, aggregation and CSV report

    A shallow embedding of [src/generate_report.py] and of the
    normalisation and commit steps of [src/classify_audio.py], with the
    properties of the aggregation engine, the report builder, the trigram
    matcher and the ingestion guard.

    The loops of [src/ingest_observations.py], [src/taxonomy_seed.py]
    and [src/upload_audio.py] follow, from the point where the services
    are connected, with what a run keeps, what a second run does and
    what the helpers of the three scripts return.

    Conventions of the embedding:
    - a Python [float] is an IEEE 754 binary64 value, [spec_float] of the
      Standard Library with precision 53 and maximal exponent 1024;
    - a Python [int] is a [Z];
    - a value read from MongoDB or decoded from JSON is a [pyval];
    - a Python [str] is a [string]; the character functions cover ASCII
      text, a character above 127 is caseless and is not white space;
    - code that can raise returns a [result];
    - the builtins whose algorithm the repository does not contain
      ([float] on a string, [repr], [round], [json.loads]) are the fields
      of the class [Builtins]. *)

From Stdlib Require Import ZArith String Ascii List Floats.SpecFloat.
From stdpp Require Import gmap strings list sorting.

Open Scope Z_scope.

(** ** Python runtime *)

Module Py.

(** The exceptions the modelled code can meet. *)
Inductive exn : Set :=
| AttributeError
| TypeError
| ValueError
| OverflowError
| ZeroDivisionError
| IndexError
| DuplicateKeyError.

Inductive result (A : Type) : Type :=
| Ok (a : A)
| Raise (e : exn).
Arguments Ok {A} a.
Arguments Raise {A} e.

#[export] Instance result_ret : MRet result := fun A a => Ok a.
#[export] Instance result_bind : MBind result := fun A B f m =>
  match m with
  | Ok a => f a
  | Raise e => Raise e
  end.

(** [try: m except Exception: h] *)
Definition try_except {A} (m : result A) (h : A) : A :=
  match m with
  | Ok a => a
  | Raise _ => h
  end.

(** *** Floats *)

Definition prec : Z := 53.
Definition emax : Z := 1024.

Abbreviation float := spec_float.

Definition f_zero : float := S754_zero false.
Definition f_one : float := Eval vm_compute in SFone prec emax.

Definition is_nan (f : float) : bool :=
  match f with
  | S754_nan => true
  | _ => false
  end.

(** [a >= b], [a > b], [a < b] and [a == b] on floats: false when
    either is a NaN. *)
Definition f_ge (a b : float) : bool := SFleb b a.
Definition f_gt (a b : float) : bool := SFltb b a.
Definition f_lt (a b : float) : bool := SFltb a b.
Definition f_eq (a b : float) : bool := SFeqb a b.
Definition f_add (a b : float) : float := SFadd prec emax a b.
Definition f_div (a b : float) : float := SFdiv prec emax a b.

(** The exact value of an integer, not rounded: the operand of a
    correctly rounded division. *)
Definition Z2SF (z : Z) : float :=
  match z with
  | Z0 => S754_zero false
  | Zpos p => S754_finite false p 0
  | Zneg p => S754_finite true p 0
  end.

(** [float(n)] for an [int]: round to nearest even, [OverflowError]
    beyond the largest finite double. *)
Definition float_of_int (z : Z) : result float :=
  match binary_normalize prec emax z 0 false with
  | S754_infinity _ => Raise OverflowError
  | f => Ok f
  end.

(** [n / d] on two [int]s: the correctly rounded quotient. *)
Definition int_truediv (n d : Z) : result float :=
  if d =? 0 then Raise ZeroDivisionError
  else match f_div (Z2SF n) (Z2SF d) with
       | S754_infinity _ => Raise OverflowError
       | f => Ok f
       end.

(** The literals [0.35] and [0.30], correctly rounded. *)
Definition f_0_35 : float := Eval vm_compute in f_div (Z2SF 35) (Z2SF 100).
Definition f_0_30 : float := Eval vm_compute in f_div (Z2SF 30) (Z2SF 100).

(** *** Values *)

#[local] Unset Elimination Schemes.
Inductive pyval : Type :=
| PNone
| PBool (b : bool)
| PInt (z : Z)
| PFloat (f : float)
| PStr (s : string)
| PList (l : list pyval)
| PDict (kv : list (string * pyval)).
#[local] Set Elimination Schemes.

(** Truth value of [v] in [if v], [not v], [v or w]. *)
Definition truthy (v : pyval) : bool :=
  match v with
  | PNone => false
  | PBool b => b
  | PInt z => negb (z =? 0)
  | PFloat (S754_zero _) => false
  | PFloat _ => true
  | PStr s => negb (String.eqb s "")
  | PList l => match l with [] => false | _ => true end
  | PDict kv => match kv with [] => false | _ => true end
  end.

Definition py_or (a b : pyval) : pyval := if truthy a then a else b.

Definition is_none (v : pyval) : bool :=
  match v with PNone => true | _ => false end.

Definition is_dict (v : pyval) : bool :=
  match v with PDict _ => true | _ => false end.

Definition is_list (v : pyval) : bool :=
  match v with PList _ => true | _ => false end.

Fixpoint assoc (k : string) (kv : list (string * pyval)) : option pyval :=
  match kv with
  | [] => None
  | (k', v) :: kv' => if String.eqb k k' then Some v else assoc k kv'
  end.

(** [d.get(k)] on a [dict]: [None] for a missing key. *)
Definition dict_get (kv : list (string * pyval)) (k : string) : pyval :=
  default PNone (assoc k kv).

(** [v.get(k)] on any value: only a [dict] has the method. *)
Definition py_get (v : pyval) (k : string) : result pyval :=
  match v with
  | PDict kv => Ok (dict_get kv k)
  | _ => Raise AttributeError
  end.

(** [v[i]] on any value, for an index that is not negative: only a
    list is indexed by position, and only within its length. *)
Definition py_index (v : pyval) (i : nat) : result pyval :=
  match v with
  | PList l => match l !! i with
               | Some x => Ok x
               | None => Raise IndexError
               end
  | _ => Raise TypeError
  end.

(** The builtins taken from the interpreter and its libraries. *)
Class Builtins := {
  (** [float(s)] on a [str]: [None] stands for [ValueError] *)
  float_of_str : string -> option float;
  (** [str(v)] on a value that is not a [str] *)
  repr : pyval -> string;
  (** [round(x, 4)] *)
  round4 : float -> float;
  (** [json.loads(text)]: [None] stands for any exception *)
  json_loads : string -> option pyval
}.

Section WithBuiltins.
Context `{Builtins}.

(** [float(v)] *)
Definition py_float (v : pyval) : result float :=
  match v with
  | PNone => Raise TypeError
  | PBool b => Ok (if b then f_one else f_zero)
  | PInt z => float_of_int z
  | PFloat f => Ok f
  | PStr s => match float_of_str s with
              | Some f => Ok f
              | None => Raise ValueError
              end
  | PList _ => Raise TypeError
  | PDict _ => Raise TypeError
  end.

(** [str(v)] *)
Definition py_str (v : pyval) : string :=
  match v with
  | PStr s => s
  | _ => repr v
  end.

End WithBuiltins.

(** *** Strings *)

Definition lower_char (c : ascii) : ascii :=
  let n := nat_of_ascii c in
  if ((65 <=? n) && (n <=? 90))%nat then ascii_of_nat (n + 32) else c.

Fixpoint lower (s : string) : string :=
  match s with
  | EmptyString => EmptyString
  | String c s' => String (lower_char c) (lower s')
  end.

(** White space of [str.strip] and of [\s]: tab to carriage return,
    the four separators 28 to 31 and the space. *)
Definition is_space (c : ascii) : bool :=
  let n := nat_of_ascii c in
  (((9 <=? n) && (n <=? 13)) || ((28 <=? n) && (n <=? 32)))%nat.

Fixpoint lstrip (s : string) : string :=
  match s with
  | EmptyString => EmptyString
  | String c s' => if is_space c then lstrip s' else s
  end.

Definition rstrip (s : string) : string := String.rev (lstrip (String.rev s)).

Definition strip (s : string) : string := rstrip (lstrip s).

(** [re.sub(r"\s+", " ", s)]; [in_run] tells that the previous
    character was white space and has been replaced already. *)
Fixpoint sub_spaces (in_run : bool) (s : string) : string :=
  match s with
  | EmptyString => EmptyString
  | String c s' =>
      if is_space c
      then (if in_run then sub_spaces true s' else String " " (sub_spaces true s'))
      else String c (sub_spaces false s')
  end.

(** [v.strip()] on any value: only a [str] has the method. *)
Definition py_strip (v : pyval) : result string :=
  match v with
  | PStr s => Ok (strip s)
  | _ => Raise AttributeError
  end.

(** *** [list.sort(key=..., reverse=True)]

    The sort is stable and compares with [<] only; with [reverse=True]
    the greater keys come first and equal keys keep their order.  On
    keys that [<] orders totally every stable sort returns the same
    list, which [sort_desc] computes by insertion: an element moves
    behind the elements that are greater, never behind an equal one. *)
Section Sort.
Context {A : Type} (lt : A -> A -> bool).

Fixpoint insert_desc (x : A) (l : list A) : list A :=
  match l with
  | [] => [x]
  | y :: l' => if lt x y then y :: insert_desc x l' else x :: l
  end.

Definition sort_desc (l : list A) : list A := foldr insert_desc [] l.

End Sort.

End Py.

Import Py.

(** ** [generate_report.py]: trigram matcher *)

Module Trigram.

Definition norm (s : string) : string :=
  let s := strip (lower s) in
  sub_spaces false s.

(** The f-string of [trigram_set]: two spaces on each side. *)
Definition padded (s : string) : string := "  " +:+ norm s +:+ "  ".

Definition trigram_set (s : string) : gset string :=
  let s := padded s in
  if (String.length s <? 3)%nat then ∅
  else list_to_set ((fun i => substring i 3 s) <$> seq 0 (String.length s - 2)).

(** The body of [trigram_similarity] after the two sets are built. *)
Definition jaccard (A B : gset string) : result float :=
  if decide (A = ∅ ∨ B = ∅) then Ok f_zero
  else int_truediv (Z.of_nat (size (A ∩ B))) (Z.of_nat (size (A ∪ B))).

Definition trigram_similarity (a b : string) : result float :=
  jaccard (trigram_set a) (trigram_set b).

Definition fuzzy_match (query : string) (candidates : list string)
    (min_score : float) : result (gset string) :=
  scored ← mapM (fun c => s ← trigram_similarity query c; mret (c, s)) candidates;
  let scored := sort_desc (fun x y => f_lt x.2 y.2) scored in
  mret (list_to_set ((filter (fun cs => f_ge cs.2 min_score = true) scored).*1)).

End Trigram.

(** ** [generate_report.py]: aggregation engine and report builder *)

Module Report.

(** A document of [classifications] under the projection of [main]:
    [doc.get(k)] is [PNone] for a missing field. *)
Record doc := {
  d_audio_id : pyval;
  d_geo : pyval;
  d_raw : pyval;
  d_best_label : pyval
}.

(** The value of [agg[species_key]]. *)
Record entry := {
  e_scientific_name : string;
  e_common_name : string;
  e_label : string;
  e_positive_segments : Z;
  e_segments_total : Z;
  e_confidence_sum : float;
  e_confidence_n : Z;
  e_max_confidence : float;
  e_sample_lat : pyval;
  e_sample_lon : pyval
}.

(** [agg] keeps the insertion order of a [dict]; the sets of
    [seen_audio_per_species] have no order. *)
Record agg_state := {
  agg : list (string * entry);
  seen_audio_per_species : gmap string (gset string)
}.

Definition agg_empty : agg_state :=
  {| agg := []; seen_audio_per_species := ∅ |}.

Record row := {
  r_scientific_name : string;
  r_common_name : string;
  r_label : string;
  r_audio_files_count : Z;
  r_positive_segments : Z;
  r_segments_total : Z;
  r_max_confidence : float;
  r_avg_confidence : float;
  r_observations_count : Z;
  r_sample_lat : pyval;
  r_sample_lon : pyval
}.

Definition nonempty (s : string) : bool := negb (String.eqb s "").

Fixpoint agg_lookup (k : string) (a : list (string * entry)) : option entry :=
  match a with
  | [] => None
  | (k', e) :: a' => if String.eqb k k' then Some e else agg_lookup k a'
  end.

(** [entry = agg.setdefault(k, d)] followed by the in-place update [f]
    of [entry]: an existing key keeps its place, a new one goes last. *)
Fixpoint agg_update (k : string) (d : entry) (f : entry -> result entry)
    (a : list (string * entry)) : result (list (string * entry)) :=
  match a with
  | [] => e' ← f d; mret [(k, e')]
  | (k', e) :: a' =>
      if String.eqb k k' then e' ← f e; mret ((k', e') :: a')
      else a'' ← agg_update k d f a'; mret ((k', e) :: a'')
  end.

(** The default of [agg.setdefault], lines 132 to 143. *)
Definition fresh_entry (scientific common label : string) : entry :=
  {| e_scientific_name := scientific;
     e_common_name := common;
     e_label := label;
     e_positive_segments := 0;
     e_segments_total := 0;
     e_confidence_sum := f_zero;
     e_confidence_n := 0;
     e_max_confidence := f_zero;
     e_sample_lat := PNone;
     e_sample_lon := PNone |}.

(** [seen_audio_per_species[k].add(x)] on the [defaultdict(set)]. *)
Definition seen_add (k x : string) (seen : gmap string (gset string))
    : gmap string (gset string) :=
  <[k := default ∅ (seen !! k) ∪ {[x]}]> seen.

Section WithBuiltins.
Context `{Builtins}.

Definition safe_float (x : pyval) : option float :=
  match x with
  | PNone => None
  | _ => try_except (f ← py_float x; mret (Some f)) None
  end.

(** Lines 146 to 157: the update of [entry] for one segment. *)
Definition update_entry (threshold confidence : float) (geo : pyval)
    (e : entry) : result entry :=
  let total := e_segments_total e + 1 in
  let sum := f_add (e_confidence_sum e) confidence in
  let n := e_confidence_n e + 1 in
  let mx := if f_gt confidence (e_max_confidence e) then confidence
            else e_max_confidence e in
  let pos := if f_ge confidence threshold then e_positive_segments e + 1
             else e_positive_segments e in
  if is_none (e_sample_lat e) then
    lat ← py_get geo "lat";
    lon ← py_get geo "lon";
    mret {| e_scientific_name := e_scientific_name e;
            e_common_name := e_common_name e;
            e_label := e_label e;
            e_positive_segments := pos;
            e_segments_total := total;
            e_confidence_sum := sum;
            e_confidence_n := n;
            e_max_confidence := mx;
            e_sample_lat := lat;
            e_sample_lon := lon |}
  else
    mret {| e_scientific_name := e_scientific_name e;
            e_common_name := e_common_name e;
            e_label := e_label e;
            e_positive_segments := pos;
            e_segments_total := total;
            e_confidence_sum := sum;
            e_confidence_n := n;
            e_max_confidence := mx;
            e_sample_lat := e_sample_lat e;
            e_sample_lon := e_sample_lon e |}.

(** The species key of a segment, lines 119 to 128; [None] when the
    segment is skipped by a [continue]. *)
Definition segment_label (d : doc) (kv : list (string * pyval)) : pyval :=
  py_or (py_or (dict_get kv "label") (d_best_label d)) (PStr "unknown").

Definition species_key_of (d : doc) (kv : list (string * pyval)) : result string :=
  sci ← py_strip (py_or (dict_get kv "scientific_name") (PStr ""));
  mret (if nonempty sci then sci else strip (py_str (segment_label d kv))).

(** The body of [for r in results], lines 116 to 160. *)
Definition fold_segment (threshold : float) (d : doc) (geo : pyval)
    (st : agg_state) (r : pyval) : result agg_state :=
  match r with
  | PDict kv =>
      let label := segment_label d kv in
      let scientific := py_or (dict_get kv "scientific_name") (PStr "") in
      let common := py_or (dict_get kv "common_name") (PStr "") in
      match safe_float (dict_get kv "confidence") with
      | None => mret st
      | Some confidence =>
          species_key ← species_key_of d kv;
          sci ← py_strip scientific;
          com ← py_strip common;
          let fresh := fresh_entry sci com (strip (py_str label)) in
          a ← agg_update species_key fresh (update_entry threshold confidence geo) (agg st);
          let seen :=
            if truthy (d_audio_id d)
            then seen_add species_key (py_str (d_audio_id d)) (seen_audio_per_species st)
            else seen_audio_per_species st in
          mret {| agg := a; seen_audio_per_species := seen |}
      end
  | _ => mret st
  end.

Fixpoint fold_segments (threshold : float) (d : doc) (geo : pyval)
    (st : agg_state) (results : list pyval) : result agg_state :=
  match results with
  | [] => mret st
  | r :: results' =>
      st' ← fold_segment threshold d geo st r;
      fold_segments threshold d geo st' results'
  end.

(** The segments [main] reads from a document, lines 105 to 113:
    [raw.get("results")] when [raw] is a [dict] and the value a list. *)
Definition doc_results (d : doc) : list pyval :=
  match py_or (d_raw d) (PDict []) with
  | PDict kv =>
      match dict_get kv "results" with
      | PList l => l
      | _ => []
      end
  | _ => []
  end.

(** The body of [for doc in cls_docs], lines 103 to 160. *)
Definition fold_doc (threshold : float) (st : agg_state) (d : doc)
    : result agg_state :=
  let geo := py_or (d_geo d) (PDict []) in
  fold_segments threshold d geo st (doc_results d).

Fixpoint fold_docs (threshold : float) (st : agg_state) (docs : list doc)
    : result agg_state :=
  match docs with
  | [] => mret st
  | d :: docs' =>
      st' ← fold_doc threshold st d;
      fold_docs threshold st' docs'
  end.

Definition aggregate (threshold : float) (cls_docs : list doc) : result agg_state :=
  fold_docs threshold agg_empty cls_docs.

(** The field observations, through [obs_col.count_documents] on a
    [taxon_code]. *)
Variable count_documents : string -> Z.

(** One iteration of [for species_key, e in agg.items()], lines 164 to
    191: [None] for a species left out by the [continue]. *)
Definition build_row (seen : gmap string (gset string))
    (species_key : string) (e : entry) : result (option row) :=
  if e_positive_segments e <=? 0 then mret None
  else
    avg_conf ← (if negb (e_confidence_n e =? 0)
                then n ← float_of_int (e_confidence_n e);
                     mret (f_div (e_confidence_sum e) n)
                else mret f_zero);
    let obs_count := count_documents species_key in
    let obs_count :=
      if (obs_count =? 0) && nonempty (e_label e)
      then count_documents (e_label e) else obs_count in
    mret (Some
      {| r_scientific_name :=
           if nonempty (e_scientific_name e) then e_scientific_name e
           else species_key;
         r_common_name := e_common_name e;
         r_label := e_label e;
         r_audio_files_count := Z.of_nat (size (default ∅ (seen !! species_key)));
         r_positive_segments := e_positive_segments e;
         r_segments_total := e_segments_total e;
         r_max_confidence := round4 (e_max_confidence e);
         r_avg_confidence := round4 avg_conf;
         r_observations_count := obs_count;
         r_sample_lat := e_sample_lat e;
         r_sample_lon := e_sample_lon e |}).

Fixpoint build_rows (seen : gmap string (gset string))
    (a : list (string * entry)) : result (list row) :=
  match a with
  | [] => mret []
  | (k, e) :: a' =>
      o ← build_row seen k e;
      rows ← build_rows seen a';
      mret (match o with Some r => r :: rows | None => rows end)
  end.

(** Lines 194 to 199. *)
Definition clean_row (r : row) : row :=
  let common := if nonempty (r_common_name r) then r_common_name r
                else "(unknown)" in
  {| r_scientific_name := strip (r_scientific_name r);
     r_common_name := strip common;
     r_label := r_label r;
     r_audio_files_count := r_audio_files_count r;
     r_positive_segments := r_positive_segments r;
     r_segments_total := r_segments_total r;
     r_max_confidence := r_max_confidence r;
     r_avg_confidence := r_avg_confidence r;
     r_observations_count := r_observations_count r;
     r_sample_lat := r_sample_lat r;
     r_sample_lon := r_sample_lon r |}.

Definition is_allowed (query : string) (allowed : gset string) (r : row)
    : result bool :=
  if decide (r_scientific_name r ∈ allowed) then mret true
  else if decide (r_common_name r ∈ allowed) then mret true
  else if decide (r_label r ∈ allowed) then mret true
  else
    s1 ← Trigram.trigram_similarity query (r_scientific_name r);
    if f_ge s1 f_0_35 then mret true
    else
      s2 ← Trigram.trigram_similarity query (r_common_name r);
      mret (f_ge s2 f_0_35).

Fixpoint filter_allowed (query : string) (allowed : gset string)
    (rows : list row) : result (list row) :=
  match rows with
  | [] => mret []
  | r :: rows' =>
      b ← is_allowed query allowed r;
      rest ← filter_allowed query allowed rows';
      mret (if (b : bool) then r :: rest else rest)
  end.

(** Lines 201 to 217: the fuzzy filter, when [args.species] is given
    and not empty. *)
Definition species_filter (species : option string) (rows : list row)
    : result (list row) :=
  match species with
  | Some query =>
      if nonempty query then
        let candidates :=
          flat_map (fun r => [r_scientific_name r; r_common_name r; r_label r]) rows in
        allowed ← Trigram.fuzzy_match query candidates f_0_35;
        filter_allowed query allowed rows
      else mret rows
  | None => mret rows
  end.

(** [a < b] on the key tuples [(positive_segments, max_confidence)]:
    the first components that differ decide.  The maximal confidence of
    a row is never a NaN. *)
Definition key_lt (a b : row) : bool :=
  if r_positive_segments a =? r_positive_segments b
  then (if f_eq (r_max_confidence a) (r_max_confidence b) then false
        else f_lt (r_max_confidence a) (r_max_confidence b))
  else r_positive_segments a <? r_positive_segments b.

(** Lines 219 to 223. *)
Definition sort_rows (rows : list row) : list row := sort_desc key_lt rows.

Definition top_rows (top_n : Z) (rows : list row) : list row :=
  if negb (top_n =? 0) && (0 <? top_n) then take (Z.to_nat top_n) rows
  else rows.

Definition sort_and_truncate (top_n : Z) (rows : list row) : list row :=
  top_rows top_n (sort_rows rows).

(** The rows [main] writes to the CSV file. *)
Definition report (threshold : float) (species : option string) (top_n : Z)
    (cls_docs : list doc) : result (list row) :=
  st ← aggregate threshold cls_docs;
  rows ← build_rows (seen_audio_per_species st) (agg st);
  let rows := clean_row <$> rows in
  rows ← species_filter species rows;
  mret (sort_and_truncate top_n rows).

End WithBuiltins.

(** *** What the properties below speak about *)

(** The counters of a species in [agg], 0 for a species not met yet. *)
Definition positive_of (st : agg_state) (k : string) : Z :=
  from_option e_positive_segments 0 (agg_lookup k (agg st)).

Definition total_of (st : agg_state) (k : string) : Z :=
  from_option e_segments_total 0 (agg_lookup k (agg st)).

Definition count_of (st : agg_state) (k : string) : Z :=
  from_option e_confidence_n 0 (agg_lookup k (agg st)).

(** The sum and the maximum of the confidences of a species, 0.0 as in
    the default entry when the species has none. *)
Definition sum_of (st : agg_state) (k : string) : float :=
  from_option e_confidence_sum f_zero (agg_lookup k (agg st)).

Definition max_of (st : agg_state) (k : string) : float :=
  from_option e_max_confidence f_zero (agg_lookup k (agg st)).

Definition entry_ok (e : entry) : Prop :=
  0 ≤ e_positive_segments e ≤ e_segments_total e
  ∧ 0 ≤ e_confidence_n e ≤ e_segments_total e.

Definition agg_ok (st : agg_state) : Prop :=
  Forall (fun ke => entry_ok ke.2) (agg st).

(** [before a b]: row [a] may stand before row [b] in the report, by
    more positive segments, or as many and a maximal confidence that is
    not smaller. *)
Definition before (a b : row) : Prop :=
  r_positive_segments b < r_positive_segments a
  ∨ (r_positive_segments a = r_positive_segments b
     ∧ f_ge (r_max_confidence a) (r_max_confidence b) = true).

Definition no_nan (r : row) : Prop := is_nan (r_max_confidence r) = false.

End Report.

(** ** [classify_audio.py]: normalisation and commit *)

Module Classify.

(** A document of [audio_files], as [upload_audio.py] writes it. *)
Record audio := {
  audio_id : string;
  object_name : string;
  filename : string;
  lat : pyval;
  lon : pyval
}.

(** The answer of the classification service: [resp_text], and the
    [status_code] and [ok] of [response_meta]. *)
Record response := {
  resp_text : string;
  status_code : option Z;
  ok : bool
}.

(** The document [main] inserts into [classifications]; the time stamp
    [created_at] is left out. *)
Record cls_doc := {
  c_audio_id : string;
  c_filename : string;
  c_bucket : string;
  c_object_name : string;
  c_geo : pyval;
  c_classify_url : string;
  c_minio_log_key : string;
  c_http : response;
  c_best_label : pyval;
  c_best_score : option float;
  c_taxonomy : pyval;
  c_raw : pyval
}.

(** The collection [classifications]: its documents in insertion order
    and whether the unique index on [audio_id] exists. *)
Record collection := {
  unique_audio_id : bool;
  docs : list cls_doc
}.

Definition find_one (col : collection) (id : string) : option cls_doc :=
  List.find (fun d => String.eqb (c_audio_id d) id) (docs col).

(** [create_index([("audio_id", ASCENDING)], unique=True)]: refused by
    the server when two stored documents share an [audio_id]. *)
Definition create_index_unique (col : collection) : result collection :=
  if decide (NoDup (c_audio_id <$> docs col))
  then Ok {| unique_audio_id := true; docs := docs col |}
  else Raise DuplicateKeyError.

(** [insert_one(d)]: under the unique index a document whose
    [audio_id] is stored already is refused and the collection is left
    as it was. *)
Definition insert_one (col : collection) (d : cls_doc)
    : collection * result unit :=
  if unique_audio_id col && bool_decide (is_Some (find_one col (c_audio_id d)))
  then (col, Raise DuplicateKeyError)
  else ({| unique_audio_id := unique_audio_id col; docs := docs col ++ [d] |},
        Ok tt).

(** What [generate_report.py] reads of a stored document. *)
Definition project (d : cls_doc) : Report.doc :=
  {| Report.d_audio_id := PStr (c_audio_id d);
     Report.d_geo := c_geo d;
     Report.d_raw := c_raw d;
     Report.d_best_label := c_best_label d |}.

Section WithBuiltins.
Context `{Builtins}.

Definition safe_json (text : string) : pyval :=
  match json_loads text with
  | Some v => v
  | None => PDict [("raw", PStr text)]
  end.

(** Label and score of one object, lines 171 to 175 and 183 to 187. *)
Definition extract (o : pyval) : result (pyval * option float) :=
  l1 ← py_get o "label";
  l2 ← py_get o "taxon_code";
  l3 ← py_get o "species";
  let best_label := py_or (py_or l1 l2) l3 in
  sc ← py_get o "score";
  let best_score :=
    try_except
      (if is_none sc then mret None
       else f ← py_float sc; mret (Some f))
      None in
  mret (best_label, best_score).

(** Lines 163 to 187: [best_label] and [best_score] of a payload. *)
Definition normalize (parsed : pyval) : result (pyval * option float) :=
  if is_dict parsed then
    b ← py_get parsed "best";
    best ← (if is_dict b then extract b else mret (PNone, None));
    if is_none best.1 then
      p1 ← py_get parsed "predictions";
      p2 ← py_get parsed "results";
      let preds := py_or p1 p2 in
      if is_list preds && truthy preds then
        top ← py_index preds 0;
        if is_dict top then extract top else mret best
      else mret best
    else mret best
  else mret (PNone, None).

(** The services [main] talks to: the object store, the classifier and
    the [taxa] collection.  [taxa_find_one] gives the document found,
    [None] when there is none, or the exception of the driver when the
    label cannot be sent. *)
Variable bucket classify_url : string.
Variable get_object : string -> bool.
Variable post : audio -> response.
Variable taxa_find_one : pyval -> result pyval.

(** The two encoders of the libraries, each with the exception it
    raises, if any: [json.dumps(log_doc, ensure_ascii=False,
    indent=2).encode("utf-8")] of line 150, a [UnicodeEncodeError] (a
    [ValueError]) on a lone surrogate say, and the encoding of the
    document by [insert_one], an [OverflowError] on an [int] beyond
    eight bytes. *)
Variable dumps_log : pyval -> option exn.
Variable bson_encode : cls_doc -> option exn.

Inductive outcome := Skipped | DownloadFailed | Processed.

(** [log_doc] of lines 115 to 146, without its two time stamps. *)
Definition log_doc (a : audio) (resp : response) (parsed : pyval) : pyval :=
  PDict [("request",
          PDict [("audio_id", PStr (audio_id a));
                 ("bucket", PStr bucket);
                 ("object_name", PStr (object_name a));
                 ("filename", PStr (filename a));
                 ("lat", lat a);
                 ("lon", lon a);
                 ("classify_url", PStr classify_url)]);
         ("response",
          PDict [("status_code",
                  match status_code resp with
                  | Some n => PInt n
                  | None => PNone
                  end);
                 ("ok", PBool (ok resp))]);
         ("parsed", parsed)].

(** One iteration of [for a in audios], lines 87 to 213.  The log is
    encoded before it is stored: an exception of the encoder leaves the
    loop, an [S3Error] of [put_object] is caught and changes nothing
    here.  The document is encoded before the server sees it. *)
Definition classify_one (col : collection) (a : audio)
    : collection * result outcome :=
  match find_one col (audio_id a) with
  | Some _ => (col, Ok Skipped)
  | None =>
      if negb (get_object (object_name a)) then (col, Ok DownloadFailed)
      else
        let resp := post a in
        let parsed := safe_json (resp_text resp) in
        match dumps_log (log_doc a resp parsed) with
        | Some e => (col, Raise e)
        | None =>
            match normalize parsed with
            | Raise e => (col, Raise e)
            | Ok (best_label, best_score) =>
                match (if truthy best_label then taxa_find_one best_label
                       else Ok PNone) with
                | Raise e => (col, Raise e)
                | Ok taxon_doc =>
                    let d :=
                      {| c_audio_id := audio_id a;
                         c_filename := filename a;
                         c_bucket := bucket;
                         c_object_name := object_name a;
                         c_geo := PDict [("lat", lat a); ("lon", lon a)];
                         c_classify_url := classify_url;
                         c_minio_log_key :=
                           "logs/classify/" +:+ audio_id a +:+ ".json";
                         c_http := resp;
                         c_best_label := best_label;
                         c_best_score := best_score;
                         c_taxonomy := taxon_doc;
                         c_raw := parsed |} in
                    match bson_encode d with
                    | Some e => (col, Raise e)
                    | None =>
                        match insert_one col d with
                        | (col', Ok _) => (col', Ok Processed)
                        | (col', Raise e) => (col', Raise e)
                        end
                    end
                end
            end
        end
  end.

(** The loop of [main]: an exception ends the run. *)
Fixpoint classify_all (col : collection) (audios : list audio)
    : collection * result unit :=
  match audios with
  | [] => (col, Ok tt)
  | a :: audios' =>
      match classify_one col a with
      | (col', Ok _) => classify_all col' audios'
      | (col', Raise e) => (col', Raise e)
      end
  end.

(** [main] after the connection: the index, then the loop.  The
    [except] clause turns a [PyMongoError] into the status [1]; any
    other exception leaves [main]. *)
Definition status_of (r : result unit) : result Z :=
  match r with
  | Ok _ => Ok 0
  | Raise DuplicateKeyError => Ok 1
  | Raise e => Raise e
  end.

Definition main (col : collection) (audios : list audio) : collection * result Z :=
  match create_index_unique col with
  | Raise e => (col, status_of (Raise e))
  | Ok col1 =>
      match classify_all col1 audios with
      | (col2, r) => (col2, status_of r)
      end
  end.

End WithBuiltins.

End Classify.

(** ** [ingest_observations.py]: field observations *)

Module Ingest.

(** A document of [field_observations]; the time stamp [ingested_at]
    is left out. *)
Record obs_doc := {
  o_source : string;
  o_topic : string;
  o_seq : Z;
  o_taxon_code : option string;
  o_lat : option float;
  o_lon : option float;
  o_payload : pyval
}.

(** *** The lines of the console consumer *)

(** The line boundaries of [str.splitlines] in ASCII text: line feed,
    vertical tab, form feed, carriage return and the separators 28 to
    30. *)
Definition is_linebreak (c : ascii) : bool :=
  let n := nat_of_ascii c in
  (((10 <=? n) && (n <=? 13)) || ((28 <=? n) && (n <=? 30)))%nat.

Definition is_cr (c : ascii) : bool := (nat_of_ascii c =? 13)%nat.
Definition is_lf (c : ascii) : bool := (nat_of_ascii c =? 10)%nat.

(** [s.splitlines()]: [cur] is the line read so far, [after_cr] tells
    that the previous character was a carriage return, which takes a
    line feed that follows it into the same boundary. *)
Fixpoint splitlines_go (after_cr : bool) (cur : string) (s : string) : list string :=
  match s with
  | EmptyString => if String.eqb cur "" then [] else [cur]
  | String c s' =>
      if is_lf c && after_cr then splitlines_go false cur s'
      else if is_linebreak c then cur :: splitlines_go (is_cr c) "" s'
      else splitlines_go false (cur +:+ String c "") s'
  end.

Definition splitlines (s : string) : list string := splitlines_go false "" s.

(** [pat in s] *)
Fixpoint contains (pat s : string) : bool :=
  String.prefix pat s ||
  match s with
  | EmptyString => false
  | String _ s' => contains pat s'
  end.

(** [ln.startswith("[") and "kafka." in ln] *)
Definition is_log_line (ln : string) : bool :=
  String.prefix "[" ln && contains "kafka." ln.

(** Lines 124 to 128, and again lines 162 to 166 of [main]. *)
Definition drop_log_lines (lines : list string) : list string :=
  filter (fun ln => is_log_line ln = false) lines.

(** Line 121: [[ln.strip() for ln in combined.splitlines() if ln.strip()]] *)
Definition stripped_lines (combined : string) : list string :=
  filter (fun ln => Report.nonempty ln = true) (strip <$> splitlines combined).

(** [consume_kafka_lines] on the output of the consumer process. *)
Definition consume_kafka_lines (stdout stderr : string) : list string :=
  let combined := "" in
  let combined := if Report.nonempty stdout then combined +:+ stdout else combined in
  let combined := if Report.nonempty stderr then combined +:+ stderr else combined in
  drop_log_lines (stripped_lines combined).

(** *** Taxon and coordinates of a payload *)

(** [v.get(k1) or v.get(k2) or ...]: the first value that is true, the
    last one when none is. *)
Fixpoint get_first (v : pyval) (keys : list string) : result pyval :=
  match keys with
  | [] => mret PNone
  | [k] => py_get v k
  | k :: keys' =>
      x ← py_get v k;
      if truthy x then mret x else get_first v keys'
  end.

Section WithBuiltins.
Context `{Builtins}.

Definition safe_json (line : string) : pyval :=
  match json_loads line with
  | Some v => v
  | None => PDict [("_raw", PStr line)]
  end.

(** The inner [to_float] of [extract_taxon_and_geo]. *)
Definition to_float (x : pyval) : option float :=
  try_except
    (if is_none x then mret None else f ← py_float x; mret (Some f))
    None.

Definition extract_taxon_and_geo (payload : pyval)
    : result (option string * option float * option float) :=
  taxon ← get_first payload
    ["taxon_code"; "taxonCode"; "species_code"; "speciesCode"; "taxon";
     "species"; "code"];
  lat ← get_first payload ["lat"; "latitude"];
  lon ← get_first payload ["lon"; "lng"; "longitude"; "long"];
  loc ← get_first payload ["location"; "geo"; "coordinates"];
  ll ← (if is_dict loc then
          lat' ← (if truthy lat then mret lat
                  else get_first loc ["lat"; "latitude"]);
          lon' ← (if truthy lon then mret lon
                  else get_first loc ["lon"; "lng"; "longitude"]);
          mret (lat', lon')
        else mret (lat, lon));
  mret (if is_none taxon then None else Some (py_str taxon),
        to_float ll.1, to_float ll.2).

(** *** The loop of [main] *)

(** The encoding of the update by the driver, with the exception it
    raises, if any: an [OverflowError] on a payload with an [int]
    beyond eight bytes say. *)
Variable bson_encode : obs_doc -> option exn.

Definition same_key (topic : string) (seq : Z) (d : obs_doc) : bool :=
  String.eqb (o_topic d) topic && (o_seq d =? seq).

(** [update_one({"topic": t, "seq": i}, {"$setOnInsert": doc},
    upsert=True)]: the update is encoded before it is sent; a stored
    document with the key is left as it is, otherwise [doc] is
    inserted. *)
Definition upsert_on_insert (col : list obs_doc) (d : obs_doc)
    : list obs_doc * result unit :=
  match bson_encode d with
  | Some e => (col, Raise e)
  | None =>
      (if existsb (same_key (o_topic d) (o_seq d)) col then col else col ++ [d],
       Ok tt)
  end.

(** [doc] of lines 175 to 184, for the line at position [i]. *)
Definition doc_of (topic : string) (i : Z) (payload : pyval)
    (taxon_code : option string) (lat lon : option float) : obs_doc :=
  {| o_source := "kafka";
     o_topic := topic;
     o_seq := i;
     o_taxon_code := taxon_code;
     o_lat := lat;
     o_lon := lon;
     o_payload := payload |}.

(** Lines 171 to 191, from the index [i] on: an exception ends the
    loop. *)
Fixpoint ingest_lines (topic : string) (i : Z) (col : list obs_doc)
    (lines : list string) : list obs_doc * result unit :=
  match lines with
  | [] => (col, Ok tt)
  | line :: lines' =>
      let payload := safe_json line in
      match extract_taxon_and_geo payload with
      | Raise e => (col, Raise e)
      | Ok (taxon_code, lat, lon) =>
          let doc := doc_of topic i payload taxon_code lat lon in
          match upsert_on_insert col doc with
          | (col', Ok _) => ingest_lines topic (i + 1) col' lines'
          | (col', Raise e) => (col', Raise e)
          end
      end
  end.

(** [create_index([("topic", ASCENDING), ("seq", ASCENDING)],
    unique=True)]: refused by the server when two stored documents
    share their topic and position. *)
Definition create_index_unique (col : list obs_doc) : result unit :=
  if decide (NoDup ((fun d => (o_topic d, o_seq d)) <$> col))
  then Ok tt
  else Raise DuplicateKeyError.

(** [main] from the creation of the unique index on, lines 156 to 202,
    on the output of the consumer: the lines are filtered a second
    time, and every exception gives the status [1]. *)
Definition main (topic : string) (col : list obs_doc) (stdout stderr : string)
    : list obs_doc * Z :=
  match create_index_unique col with
  | Raise _ => (col, 1)
  | Ok _ =>
      let lines := consume_kafka_lines stdout stderr in
      let filtered := drop_log_lines lines in
      match ingest_lines topic 0 col filtered with
      | (col', Ok _) => (col', 0)
      | (col', Raise _) => (col', 1)
      end
  end.

End WithBuiltins.

End Ingest.

(** ** [taxonomy_seed.py]: the taxa *)

Module Taxonomy.

Record taxon_doc := {
  t_taxon_code : option string;
  t_common_name : option string;
  t_latin_name : string;
  t_scientific_name_full : option string;
  t_rank : string;
  t_family : option string;
  t_order : option string;
  t_source : string
}.

Definition normalize_spaces (s : string) : string :=
  strip (sub_spaces false s).

(** [re.sub(r"\s+", "_", s)] *)
Fixpoint sub_underscore (in_run : bool) (s : string) : string :=
  match s with
  | EmptyString => EmptyString
  | String c s' =>
      if is_space c
      then (if in_run then sub_underscore true s'
            else String "_" (sub_underscore true s'))
      else String c (sub_underscore false s')
  end.

(** The class [[a-z0-9_]]. *)
Definition is_code_char (c : ascii) : bool :=
  let n := nat_of_ascii c in
  (((97 <=? n) && (n <=? 122)) || ((48 <=? n) && (n <=? 57)) || (n =? 95))%nat.

(** [re.sub(r"[^a-z0-9_]+", "", s)] *)
Fixpoint keep_code_chars (s : string) : string :=
  match s with
  | EmptyString => EmptyString
  | String c s' =>
      if is_code_char c then String c (keep_code_chars s')
      else keep_code_chars s'
  end.

(** [x or None] on a string. *)
Definition or_none (s : string) : option string :=
  if Report.nonempty s then Some s else None.

Definition make_taxon_code_from_name (name : option string) : option string :=
  match name with
  | None => None
  | Some name =>
      if Report.nonempty name then
        let s := lower (strip name) in
        let s := sub_underscore false s in
        let s := keep_code_chars s in
        or_none s
      else None
  end.

Definition upper_char (c : ascii) : ascii :=
  let n := nat_of_ascii c in
  if ((97 <=? n) && (n <=? 122))%nat then ascii_of_nat (n - 32) else c.

Fixpoint upper (s : string) : string :=
  match s with
  | EmptyString => EmptyString
  | String c s' => String (upper_char c) (upper s')
  end.

(** The body of the loop over the table rows, lines 60 to 91; [tds] is
    the text of the cells of the row, each as [get_text(strip=True)]
    gives it. *)
Definition parse_row (tds : list string) : option taxon_doc :=
  match tds with
  | td0 :: td1 :: td2 :: td3 :: td4 :: _ =>
      let scientific_with_author := or_none (normalize_spaces td0) in
      let canonical_name := or_none (normalize_spaces td1) in
      let rank := or_none (normalize_spaces td2) in
      let family := or_none (normalize_spaces td3) in
      let order := or_none (normalize_spaces td4) in
      match rank with
      | None => None
      | Some rank =>
          if String.eqb (upper rank) "SPECIES" then
            match (match canonical_name with
                   | Some n => Some n
                   | None => scientific_with_author
                   end) with
            | None => None
            | Some latin_name =>
                Some {| t_taxon_code := make_taxon_code_from_name (Some latin_name);
                        t_common_name := None;
                        t_latin_name := latin_name;
                        t_scientific_name_full := scientific_with_author;
                        t_rank := "SPECIES";
                        t_family := family;
                        t_order := order;
                        t_source := "aves.regoch.net" |}
            end
          else None
      end
  | _ => None
  end.

(** [parse_species_table_from_rendered_html] on the rows of the first
    table of the page, [None] when the page has no table. *)
Definition parse_species_table (table : option (list (list string)))
    : list taxon_doc :=
  match table with
  | None => []
  | Some rows => omap parse_row rows
  end.

(** [update_one({"taxon_code": c}, {"$set": doc}, upsert=True)]: the
    first stored document with the code takes the fields of [doc],
    which is inserted when there is none. *)
Fixpoint upsert_set (d : taxon_doc) (col : list taxon_doc) : list taxon_doc :=
  match col with
  | [] => [d]
  | x :: col' =>
      if bool_decide (t_taxon_code x = t_taxon_code d) then d :: col'
      else x :: upsert_set d col'
  end.

(** Lines 170 to 176. *)
Definition upsert_docs (col : list taxon_doc) (docs : list taxon_doc)
    : list taxon_doc :=
  foldl (fun c d => upsert_set d c) col docs.

(** The pages of [main], lines 160 to 176, each with the table it shows
    when read and the one it shows two seconds later: an empty page is
    read a second time. *)
Definition seed_page (col : list taxon_doc)
    (page : option (list (list string)) * option (list (list string)))
    : list taxon_doc :=
  let docs := parse_species_table page.1 in
  let docs := match docs with
              | [] => parse_species_table page.2
              | _ => docs
              end in
  upsert_docs col docs.

(** [main] after the connection: nothing is done when [taxa] holds a
    document already. *)
Definition seed (col : list taxon_doc)
    (pages : list (option (list (list string)) * option (list (list string))))
    : list taxon_doc :=
  if (0 <? Z.of_nat (length col)) then col
  else foldl seed_page col pages.

Definition find_code (c : option string) (col : list taxon_doc) : option taxon_doc :=
  List.find (fun x => bool_decide (t_taxon_code x = c)) col.

End Taxonomy.

(** ** [upload_audio.py]: the recordings *)

Module Upload.

(** A file of the audio directory: [p.name], [p.suffix] and the bytes
    that [sha256_file] reads. *)
Record file := {
  f_name : string;
  f_suffix : string;
  f_content : string
}.

(** A document of [audio_files]; the time stamp [uploaded_at] is left
    out. *)
Record audio_doc := {
  a_audio_id : string;
  a_filename : string;
  a_bucket : string;
  a_object_name : string;
  a_lat : float;
  a_lon : float;
  a_source_dir : string
}.

(** The two stores: the collection [audio_files] and the names of the
    objects in the bucket. *)
Record stores := {
  audio_files : list audio_doc;
  objects : gset string
}.

Inductive run_status :=
| Finished (uploaded skipped : Z)
| RuntimeError (file_name : string).

Definition is_audio (f : file) : bool :=
  let ext := lower (f_suffix f) in
  String.eqb ext ".wav" || String.eqb ext ".mp3".

Definition find_one (col : list audio_doc) (id : string) : option audio_doc :=
  List.find (fun d => String.eqb (a_audio_id d) id) col.

Section WithServices.
(** The hex digest of the content, and whether MinIO takes the upload
    of an object. *)
Variable sha256 : string -> string.
Variable fput_ok : string -> bool.
Variable bucket audio_dir : string.
Variable lat lon : float.

Definition object_name_of (f : file) : string :=
  "audio/" +:+ sha256 (f_content f) +:+ lower (f_suffix f).

(** The loop of [main], lines 80 to 113. *)
Fixpoint upload_files (st : stores) (uploaded skipped : Z) (files : list file)
    : stores * run_status :=
  match files with
  | [] => (st, Finished uploaded skipped)
  | p :: files' =>
      let audio_id := sha256 (f_content p) in
      let object_name := object_name_of p in
      match find_one (audio_files st) audio_id with
      | Some _ => upload_files st uploaded (skipped + 1) files'
      | None =>
          if fput_ok object_name then
            let doc :=
              {| a_audio_id := audio_id;
                 a_filename := f_name p;
                 a_bucket := bucket;
                 a_object_name := object_name;
                 a_lat := lat;
                 a_lon := lon;
                 a_source_dir := audio_dir |} in
            upload_files
              {| audio_files := audio_files st ++ [doc];
                 objects := objects st ∪ {[object_name]} |}
              (uploaded + 1) skipped files'
          else (st, RuntimeError (f_name p))
      end
  end.

(** [main] on the entries of the directory that are files. *)
Definition main (st : stores) (entries : list file) : stores * run_status :=
  let files := filter (fun p => is_audio p = true) entries in
  upload_files st 0 0 files.

End WithServices.

End Upload.

(** ** Measures of a corpus and of an aggregate *)

Module Measures.
Import Report.

(** All the segments [main] reads, in the order of the loops. *)
Definition segments_of (cls_docs : list doc) : list pyval :=
  concat (doc_results <$> cls_docs).

Definition sum_over (g : entry -> Z) (a : list (string * entry)) : Z :=
  foldr (fun ke acc => g ke.2 + acc) 0 a.

Definition count_if (p : pyval -> bool) (l : list pyval) : Z :=
  Z.of_nat (length (filter (fun r => p r = true) l)).

Section WithBuiltins.
Context `{Builtins}.

(** A segment that takes part in the aggregation: a [dict] whose
    confidence parses. *)
Definition counted (r : pyval) : bool :=
  match r with
  | PDict kv => bool_decide (is_Some (safe_float (dict_get kv "confidence")))
  | _ => false
  end.

Definition positive (threshold : float) (r : pyval) : bool :=
  match r with
  | PDict kv =>
      match safe_float (dict_get kv "confidence") with
      | Some c => f_ge c threshold
      | None => false
      end
  | _ => false
  end.

End WithBuiltins.

(** The recordings seen for a species. *)
Definition audio_of (st : agg_state) (k : string) : gset string :=
  default ∅ (seen_audio_per_species st !! k).

(** [grows e e']: [e'] is [e] after more segments of its species. *)
Definition grows (e e' : entry) : Prop :=
  e_scientific_name e' = e_scientific_name e
  ∧ e_common_name e' = e_common_name e
  ∧ e_label e' = e_label e
  ∧ e_segments_total e ≤ e_segments_total e'
  ∧ e_positive_segments e ≤ e_positive_segments e'
  ∧ (is_none (e_sample_lat e) = false →
       e_sample_lat e' = e_sample_lat e ∧ e_sample_lon e' = e_sample_lon e).


(** The keys of [agg] as a [dict] has them: no key twice, every key
    stripped, and the scientific name of an entry empty or its key. *)
Definition key_ok (ke : string * entry) : Prop :=
  strip ke.1 = ke.1
  ∧ (e_scientific_name ke.2 = "" ∨ e_scientific_name ke.2 = ke.1).

Definition keys_ok (st : agg_state) : Prop :=
  NoDup (agg st).*1 ∧ Forall key_ok (agg st).

(** No species has more recordings than segments. *)
Definition audio_ok (st : agg_state) : Prop :=
  ∀ k, Z.of_nat (size (audio_of st k)) ≤ total_of st k.

(** [row_of seen k e r]: [r] is the row [build_row] makes of the entry
    [e] of the species [k], as far as names and counters go. *)
Definition row_of (seen : gmap string (gset string)) (k : string) (e : entry)
    (r : row) : Prop :=
  r_scientific_name r =
    (if nonempty (e_scientific_name e) then e_scientific_name e else k)
  ∧ r_positive_segments r = e_positive_segments e
  ∧ r_segments_total r = e_segments_total e
  ∧ r_audio_files_count r = Z.of_nat (size (default ∅ (seen !! k)))
  ∧ 0 < e_positive_segments e.

(** The identifiers stored in [classifications]. *)
Definition ids (col : Classify.collection) : list string :=
  Classify.c_audio_id <$> Classify.docs col.

(** [raised_by ... e]: [e] is an exception of the log encoder, of the
    lookup in [taxa] or of the encoder of the document. *)
Definition raised_by (taxa_find_one : pyval -> result pyval)
    (dumps_log : pyval -> option exn)
    (bson_encode : Classify.cls_doc -> option exn) (e : exn) : Prop :=
  (∃ v, dumps_log v = Some e)
  ∨ (∃ l, taxa_find_one l = Raise e)
  ∨ (∃ d, bson_encode d = Some e).

(** The keys of the unique index of [field_observations]. *)
Definition obs_keys (col : list Ingest.obs_doc) : list (string * Z) :=
  (fun d => (Ingest.o_topic d, Ingest.o_seq d)) <$> col.

(** [storable bson_encode topic i line]: the line at position [i] can
    be stored, its payload is an object or no JSON at all and the
    document made of it can be encoded. *)
Definition storable `{Builtins} (bson_encode : Ingest.obs_doc -> option exn)
    (topic : string) (i : Z) (line : string) : Prop :=
  ∃ taxon_code lat lon,
    Ingest.extract_taxon_and_geo (Ingest.safe_json line)
      = Ok (taxon_code, lat, lon)
    ∧ bson_encode (Ingest.doc_of topic i (Ingest.safe_json line)
                     taxon_code lat lon) = None.

(** A line of the consumer as [consume_kafka_lines] returns it. *)
Definition clean_line (ln : string) : Prop :=
  ln ≠ "" ∧ strip ln = ln ∧ Ingest.is_log_line ln = false.

(** Every character of [s] satisfies [p]. *)
Fixpoint all_chars (p : ascii -> bool) (s : string) : bool :=
  match s with
  | EmptyString => true
  | String c s' => p c && all_chars p s'
  end.

(** The codes stored in [taxa]. *)
Definition codes (col : list Taxonomy.taxon_doc) : list (option string) :=
  Taxonomy.t_taxon_code <$> col.

(** The identifiers stored in [audio_files], and the two stores in
    step: the object of every document is in the bucket. *)
Definition audio_ids (col : list Upload.audio_doc) : list string :=
  Upload.a_audio_id <$> col.

Definition stores_ok (st : Upload.stores) : Prop :=
  Forall (fun d => Upload.a_object_name d ∈ Upload.objects st)
    (Upload.audio_files st).

End Measures.

(** ** Values of the examples *)

(** The doubles 0.8, 0.6, 0.9, 0.2 and 1.5. *)
Definition f_0_8 : float := Eval vm_compute in f_div (Z2SF 8) (Z2SF 10).
Definition f_0_6 : float := Eval vm_compute in f_div (Z2SF 6) (Z2SF 10).
Definition f_0_9 : float := Eval vm_compute in f_div (Z2SF 9) (Z2SF 10).
Definition f_0_2 : float := Eval vm_compute in f_div (Z2SF 2) (Z2SF 10).
Definition f_1_5 : float := Eval vm_compute in f_div (Z2SF 15) (Z2SF 10).

(** The doubles 2.0 and -0.5. *)
Definition f_2_0 : float := Eval vm_compute in f_div (Z2SF 2) (Z2SF 1).
Definition f_minus_0_5 : float := Eval vm_compute in f_div (Z2SF (-1)) (Z2SF 2).

(** The sum [0.30 + -0.5]. *)
Definition below_zero : float := Eval vm_compute in f_add f_0_30 f_minus_0_5.

(** ** An interpretation of the builtins for the examples

    It agrees with the interpreter on the values the examples use: the
    texts below are the only ones converted or parsed, [round(x, 4)]
    takes 0.8000000000000002 to 0.8 and leaves a double that is already
    the nearest one to a number of four decimals as it is. *)

Definition example_builtins : Builtins :=
  {| float_of_str := fun s => if String.eqb s "0.3" then Some f_0_30 else None;
     repr := fun v =>
       match v with
       | PNone => "None"
       | PBool true => "True"
       | PBool false => "False"
       | PInt 7 => "7"
       | _ => "?"
       end;
     round4 := fun x =>
       if f_eq x (S754_finite false 7205759403792795 (-53)) then f_0_8 else x;
     json_loads := fun s =>
       if String.eqb s "null" then Some PNone
       else if String.eqb s "[]" then Some (PList [])
       else if String.eqb s "{}" then Some (PDict [])
       else None |}.


(** ** Documents, rows and collections of the examples *)

Module Examples.
Import Report Classify.

Definition robin_segment : pyval :=
  PDict [("label", PStr "robin");
         ("scientific_name", PStr "Erithacus rubecula");
         ("confidence", PFloat f_0_8)].

Definition wren_segment : pyval :=
  PDict [("label", PStr "wren"); ("confidence", PFloat f_0_2)].

(** A segment exactly at the threshold 0.30, one above 1, one with no
    confidence and one whose confidence is not a number. *)
Definition boundary_segment : list (string * pyval) :=
  [("label", PStr "robin"); ("confidence", PFloat f_0_30)].

Definition loud_segment : list (string * pyval) :=
  [("label", PStr "robin"); ("confidence", PFloat f_1_5)].

Definition silent_segment : list (string * pyval) :=
  [("label", PStr "robin")].

(** Two more confidences outside [0,1]: the [int] 2 and -0.5. *)
Definition whole_segment : list (string * pyval) :=
  [("label", PStr "robin"); ("confidence", PInt 2)].

Definition negative_segment : list (string * pyval) :=
  [("label", PStr "robin"); ("confidence", PFloat f_minus_0_5)].

Definition vague_segment : list (string * pyval) :=
  [("label", PStr "robin"); ("confidence", PStr "high")].

Definition somewhere : pyval := PDict [("lat", PFloat f_1_5); ("lon", PNone)].

Definition stored (id : string) (raw : pyval) : doc :=
  {| d_audio_id := PStr id;
     d_geo := somewhere;
     d_raw := raw;
     d_best_label := PStr "robin" |}.

Definition with_results (segments : list pyval) : pyval :=
  PDict [("results", PList segments)].

(** Three recordings with one robin each, the first with a wren below
    the threshold as well. *)
Definition three_robins : list doc :=
  [stored "a1" (with_results [robin_segment; wren_segment]);
   stored "a2" (with_results [robin_segment]);
   stored "a3" (with_results [robin_segment])].

Definition robin_row : row :=
  {| r_scientific_name := "Erithacus rubecula";
     r_common_name := "(unknown)";
     r_label := "robin";
     r_audio_files_count := 3;
     r_positive_segments := 3;
     r_segments_total := 3;
     r_max_confidence := f_0_8;
     r_avg_confidence := f_0_8;
     r_observations_count := 0;
     r_sample_lat := PFloat f_1_5;
     r_sample_lon := PNone |}.

Definition no_observations (taxon_code : string) : Z := 0.

(** A row of the sorting examples: a species, its positive segments and
    its maximal confidence. *)
Definition species_row (name : string) (positive : Z) (mx : float) : row :=
  {| r_scientific_name := name;
     r_common_name := "(unknown)";
     r_label := name;
     r_audio_files_count := 1;
     r_positive_segments := positive;
     r_segments_total := positive;
     r_max_confidence := mx;
     r_avg_confidence := mx;
     r_observations_count := 0;
     r_sample_lat := PNone;
     r_sample_lon := PNone |}.

Definition row_A : row := species_row "A" 5 f_0_6.
Definition row_B : row := species_row "B" 5 f_0_9.
Definition row_C : row := species_row "C" 7 f_0_2.

(** The state after the boundary segment is folded into the empty one. *)
Definition robin_entry (positive : Z) (c : float) : entry :=
  {| e_scientific_name := "";
     e_common_name := "";
     e_label := "robin";
     e_positive_segments := positive;
     e_segments_total := 1;
     e_confidence_sum := c;
     e_confidence_n := 1;
     e_max_confidence := c;
     e_sample_lat := PFloat f_1_5;
     e_sample_lon := PNone |}.

(** The robin at the threshold after a segment of confidence -0.5 of a
    second recording: one more segment, no more positive ones, the sum
    0.3 + -0.5 and the maximum as it was. *)
Definition negative_entry : entry :=
  {| e_scientific_name := "";
     e_common_name := "";
     e_label := "robin";
     e_positive_segments := 1;
     e_segments_total := 2;
     e_confidence_sum := below_zero;
     e_confidence_n := 2;
     e_max_confidence := f_0_30;
     e_sample_lat := PFloat f_1_5;
     e_sample_lon := PNone |}.

Definition one_robin (id : string) (c : float) : agg_state :=
  {| agg := [("robin", robin_entry 1 c)];
     seen_audio_per_species := {["robin" := {[id]}]} |}.

(** Payloads that carry their prediction outside of ["results"]. *)
Definition best_payload : list (string * pyval) :=
  [("best", PDict [("label", PStr "robin"); ("score", PFloat f_0_9)])].

Definition predictions_payload : list (string * pyval) :=
  [("predictions", PList [PDict [("label", PStr "robin"); ("score", PFloat f_0_9)]])].

Definition answer (text : string) : response :=
  {| resp_text := text; status_code := Some 200; ok := true |}.

Definition outcome_of (id : string) (text : string) (raw : pyval) : cls_doc :=
  {| c_audio_id := id;
     c_filename := "dawn.wav";
     c_bucket := "audio";
     c_object_name := "audio/" +:+ id +:+ ".wav";
     c_geo := somewhere;
     c_classify_url := "http://classifier/classify";
     c_minio_log_key := "logs/classify/" +:+ id +:+ ".json";
     c_http := answer text;
     c_best_label := PNone;
     c_best_score := None;
     c_taxonomy := PNone;
     c_raw := raw |}.

Definition first_outcome : cls_doc := outcome_of "a1" "{}" (PDict []).
Definition second_outcome : cls_doc := outcome_of "a1" "[]" (PList []).

Definition no_classifications : collection :=
  {| unique_audio_id := false; docs := [] |}.

Definition indexed (ds : list cls_doc) : collection :=
  {| unique_audio_id := true; docs := ds |}.

End Examples.

(** ** More examples *)

Module MoreExamples.
Import Report Classify Examples.

Definition robin_entry_of (total positive : Z) (sum mx : float) : entry :=
  {| e_scientific_name := "";
     e_common_name := "";
     e_label := "robin";
     e_positive_segments := positive;
     e_segments_total := total;
     e_confidence_sum := sum;
     e_confidence_n := total;
     e_max_confidence := mx;
     e_sample_lat := PFloat f_1_5;
     e_sample_lon := PNone |}.

(** The state after a second recording with a robin at the threshold:
    0.3 + 0.3 is the double 0.6. *)
Definition two_robins : agg_state :=
  {| agg := [("robin", robin_entry_of 2 2 f_0_6 f_0_30)];
     seen_audio_per_species := {["robin" := {["a1"; "a2"]}]} |}.

Definition boundary_doc (id : string) : doc :=
  stored id (with_results [PDict boundary_segment]).

(** Recordings, a store that delivers every object, a classifier that
    answers with an empty list, a collection of taxa that is empty, and
    encoders: two that take every value and one that takes none. *)
Definition recording (id name : string) : audio :=
  {| audio_id := id;
     object_name := "audio/" +:+ id +:+ ".wav";
     filename := name;
     lat := PFloat f_1_5;
     lon := PNone |}.

Definition every_object (object_name : string) : bool := true.
Definition empty_answer (a : audio) : response := answer "[]".
Definition classifier : string := "http://classifier/classify".
Definition no_taxon (code : pyval) : result pyval := Ok PNone.
Definition every_log (log : pyval) : option exn := None.
Definition every_document (d : cls_doc) : option exn := None.
Definition no_log (log : pyval) : option exn := Some ValueError.

(** Observations: the lines of the examples and what they store. *)
Definition observation_of (topic : string) (seq : Z) (payload : pyval)
    : Ingest.obs_doc :=
  {| Ingest.o_source := "kafka";
     Ingest.o_topic := topic;
     Ingest.o_seq := seq;
     Ingest.o_taxon_code := None;
     Ingest.o_lat := None;
     Ingest.o_lon := None;
     Ingest.o_payload := payload |}.

Definition observation (topic : string) (seq : Z) : Ingest.obs_doc :=
  observation_of topic seq (PDict []).

Definition raw_observation (topic : string) (seq : Z) (line : string)
    : Ingest.obs_doc :=
  observation_of topic seq (PDict [("_raw", PStr line)]).

(** Two encoders of the driver: one that takes every document and one
    that refuses the documents that are not the first of their batch. *)
Definition every_observation (d : Ingest.obs_doc) : option exn := None.
Definition first_only (d : Ingest.obs_doc) : option exn :=
  if Ingest.o_seq d =? 0 then None else Some OverflowError.

Definition equator_payload : list (string * pyval) :=
  [("taxon_code", PStr "robin"); ("lat", PFloat (S754_zero false));
   ("lon", PFloat f_1_5)].

Definition line_feed : string := String (ascii_of_nat 10) "".
Definition carriage_return : string := String (ascii_of_nat 13) "".

(** Taxa. *)
Definition taxon (code : option string) (latin : string) : Taxonomy.taxon_doc :=
  {| Taxonomy.t_taxon_code := code;
     Taxonomy.t_common_name := None;
     Taxonomy.t_latin_name := latin;
     Taxonomy.t_scientific_name_full := None;
     Taxonomy.t_rank := "SPECIES";
     Taxonomy.t_family := None;
     Taxonomy.t_order := None;
     Taxonomy.t_source := "aves.regoch.net" |}.

Definition robin_taxon : Taxonomy.taxon_doc :=
  taxon (Some "erithacus_rubecula") "Erithacus rubecula".
Definition robin_taxon_again : Taxonomy.taxon_doc :=
  taxon (Some "erithacus_rubecula") "Erithacus  Rubecula".
Definition wren_taxon : Taxonomy.taxon_doc :=
  taxon (Some "troglodytes_troglodytes") "Troglodytes troglodytes".

Definition three_taxa : list Taxonomy.taxon_doc :=
  [robin_taxon; wren_taxon; robin_taxon_again].

(** A page whose table has one row, a species. *)
Definition robin_page : option (list (list string)) * option (list (list string)) :=
  (Some [["Erithacus rubecula (Linnaeus, 1758)"; "Erithacus rubecula";
          "Species"; "Muscicapidae"; "Passeriformes"]], None).

(** Files: the digest of the examples is the content itself. *)
Definition content_digest (content : string) : string := content.
Definition every_upload (object_name : string) : bool := true.

Definition dawn_wav : Upload.file :=
  {| Upload.f_name := "dawn.WAV"; Upload.f_suffix := ".WAV"; Upload.f_content := "abc" |}.
Definition notes_txt : Upload.file :=
  {| Upload.f_name := "notes.txt"; Upload.f_suffix := ".txt"; Upload.f_content := "n" |}.
Definition copy_mp3 : Upload.file :=
  {| Upload.f_name := "copy.mp3"; Upload.f_suffix := ".mp3"; Upload.f_content := "abc" |}.

Definition audio_directory : list Upload.file := [dawn_wav; notes_txt; copy_mp3].

Definition nothing_stored : Upload.stores :=
  {| Upload.audio_files := []; Upload.objects := ∅ |}.

Definition dawn_doc : Upload.audio_doc :=
  {| Upload.a_audio_id := "abc";
     Upload.a_filename := "dawn.WAV";
     Upload.a_bucket := "audio";
     Upload.a_object_name := "audio/abc.wav";
     Upload.a_lat := f_1_5;
     Upload.a_lon := f_0_8;
     Upload.a_source_dir := "/data" |}.

Definition dawn_stored : Upload.stores :=
  {| Upload.audio_files := [dawn_doc]; Upload.objects := {["audio/abc.wav"]} |}.

End MoreExamples.

(** ** Properties of the trigram matcher *)

Section TrigramFacts.
Import Trigram.

Lemma div_eucl_shift (p : positive) :
  Z.div_eucl (Z.shiftl (Z.pos p) 53) (Z.pos p) = (2 ^ 53, 0).
Proof.
  rewrite Z.shiftl_mul_pow2 by lia.
  pose proof (Z.div_eucl_eq (Z.pos p * 2 ^ 53) (Z.pos p)) as E.
  pose proof (Z.mod_pos_bound (Z.pos p * 2 ^ 53) (Z.pos p)) as B.
  unfold Z.modulo in B.
  destruct (Z.div_eucl (Z.pos p * 2 ^ 53) (Z.pos p)) as [q r].
  specialize (E ltac:(lia)). specialize (B ltac:(lia)).
  assert (q = 2 ^ 53) by nia. subst q. f_equal. lia.
Qed.

(** Dividing an integer by itself: the quotient 2^53 at exponent -53,
    with nothing left to round. *)
Lemma div_core_same (p : positive) :
  SFdiv_core_binary prec emax (Z.pos p) 0 (Z.pos p) 0 = (2 ^ 53, -53, loc_Exact).
Proof.
  unfold SFdiv_core_binary.
  replace (Zdigits2 (Z.pos p) + 0 - (Zdigits2 (Z.pos p) + 0)) with 0 by lia.
  change (fexp prec emax 0) with (-53).
  change (Z.min (-53) (0 - 0)) with (-53).
  change (0 - 0 - -53) with 53.
  cbv beta iota zeta.
  change IntDef.Z.div_eucl with Z.div_eucl.
  rewrite div_eucl_shift.
  unfold new_location, new_location_even, new_location_odd.
  destruct (Z.even (Z.pos p)); reflexivity.
Qed.

Lemma int_truediv_same (p : positive) : int_truediv (Zpos p) (Zpos p) = Ok f_one.
Proof.
  unfold int_truediv. simpl (_ =? _). cbv iota.
  unfold f_div, SFdiv, Z2SF.
  rewrite div_core_same. vm_compute. reflexivity.
Qed.

Lemma length_append (s1 s2 : string) :
  String.length (s1 +:+ s2) = (String.length s1 + String.length s2)%nat.
Proof. induction s1 as [|c s1 IH]; simpl; [reflexivity | now rewrite IH]. Qed.

Lemma padded_length (s : string) :
  String.length (padded s) = (String.length (norm s) + 4)%nat.
Proof. unfold padded. rewrite !length_append. simpl. lia. Qed.

(** The padding leaves no string without a trigram: the guard
    [len(s) < 3] of [trigram_set] never fires. *)
Lemma trigram_set_nonempty (s : string) : trigram_set s ≠ ∅.
Proof.
  unfold trigram_set. cbv zeta.
  pose proof (padded_length s) as L.
  destruct (String.length (padded s) <? 3)%nat eqn:E.
  - apply Nat.ltb_lt in E. lia.
  - destruct (String.length (padded s) - 2)%nat as [|n] eqn:En; [lia|].
    simpl. set_solver.
Qed.

Lemma jaccard_comm (A B : gset string) : jaccard A B = jaccard B A.
Proof.
  unfold jaccard.
  rewrite (comm_L (∩) A B), (comm_L (∪) A B).
  destruct (decide (A = ∅ ∨ B = ∅)), (decide (B = ∅ ∨ A = ∅)); tauto.
Qed.

Lemma jaccard_self (A : gset string) : A ≠ ∅ → jaccard A A = Ok f_one.
Proof.
  intros HA. unfold jaccard.
  destruct (decide (A = ∅ ∨ A = ∅)) as [[?|?]|_]; [done..|].
  rewrite (idemp_L (∩) A), (idemp_L (∪) A).
  destruct (size A) as [|n] eqn:En.
  - apply size_empty_inv in En. apply leibniz_equiv in En. done.
  - rewrite Nat2Z.inj_succ. rewrite <- Z.add_1_r.
    replace (Z.of_nat n + 1) with (Z.pos (Pos.of_succ_nat n)) by lia.
    apply int_truediv_same.
Qed.

Lemma jaccard_empty (A B : gset string) :
  A = ∅ ∨ B = ∅ → jaccard A B = Ok f_zero.
Proof. intros HAB. unfold jaccard. now rewrite decide_True. Qed.

(** The example of the specification: one letter dropped from
    "sparrow" leaves a similarity of 0.7, above the 0.35 of the filter. *)
Example similarity_sparrow_sparow :
  trigram_similarity "sparrow" "sparow" = Ok (S754_finite false 6305039478318694 (-53))
  ∧ f_ge (S754_finite false 6305039478318694 (-53)) f_0_35 = true.
Proof. split; vm_compute; reflexivity. Qed.

(** C8. The similarity does not depend on the order of its two
    arguments, and a string that yields at least one trigram has
    similarity 1.0 with itself; neither call raises. *)
Theorem trigram_similarity_sym_refl (a b : string) :
  trigram_similarity a b = trigram_similarity b a
  ∧ (trigram_set a ≠ ∅ → trigram_similarity a a = Ok f_one).
Proof.
  split.
  - apply jaccard_comm.
  - intros Ha. now apply jaccard_self.
Qed.

Lemma trigram_similarity_sym_refl_witness :
  trigram_set "robin" ≠ ∅
  ∧ trigram_similarity "robin" "american robin" = trigram_similarity "american robin" "robin"
  ∧ trigram_similarity "robin" "robin" = Ok f_one.
Proof.
  assert (Hne : trigram_set "robin" ≠ ∅) by (vm_compute; discriminate).
  split; [exact Hne|].
  split.
  - exact (proj1 (trigram_similarity_sym_refl "robin" "american robin")).
  - exact (proj2 (trigram_similarity_sym_refl "robin" "robin") Hne).
Defined.

(** C9, as the specification words it, fails: the empty string does not
    yield zero trigrams.  Padded to four spaces it yields the trigram of
    three spaces, and its similarity with itself is 1.0, not 0. *)
Lemma empty_string_similarity_is_one :
  trigram_set "" = {["   "]}
  ∧ trigram_similarity "" "" = Ok f_one
  ∧ trigram_similarity "" "" ≠ Ok f_zero.
Proof.
  split; [|split].
  - vm_compute. reflexivity.
  - vm_compute. reflexivity.
  - vm_compute. discriminate.
Qed.

(** C9, amended.  The similarity of two trigram sets is 0 as soon as one
    of them is empty; but [trigram_set] returns an empty set for no
    string, so [trigram_similarity] never takes that branch. *)
Theorem zero_trigrams_similarity (A B : gset string) (s : string)
    (HAB : A = ∅ ∨ B = ∅) :
  jaccard A B = Ok f_zero ∧ trigram_set s ≠ ∅.
Proof.
  split; [now apply jaccard_empty | apply trigram_set_nonempty].
Qed.

Lemma zero_trigrams_similarity_witness :
  jaccard ∅ (trigram_set "robin") = Ok f_zero ∧ trigram_set "" ≠ ∅.
Proof.
  apply (zero_trigrams_similarity ∅ (trigram_set "robin") "").
  left. reflexivity.
Defined.

End TrigramFacts.

(** ** The order of the doubles and the sort *)

Section FloatOrder.

Ltac cmp_cases :=
  repeat match goal with
  | |- context [Z.compare ?x ?y] => destruct (Z.compare_spec x y)
  | |- context [Pos.compare ?x ?y] => destruct (Pos.compare_spec x y)
  | H : context [Z.compare ?x ?y] |- _ => destruct (Z.compare_spec x y)
  | H : context [Pos.compare ?x ?y] |- _ => destruct (Pos.compare_spec x y)
  end.

Ltac float_cases :=
  unfold f_ge, f_gt, f_lt, f_eq, SFleb, SFltb, SFeqb, SFcompare, is_nan in *;
  repeat match goal with
  | f : spec_float |- _ => destruct f as [[]|[]| |[] ? ?]
  end;
  change IntDef.Z.compare with Z.compare in *;
  change (PosDef.Pos.compare_cont Eq) with Pos.compare in *;
  try (simpl in *; congruence);
  cmp_cases; simpl in *; try congruence; try lia.

Lemma f_ge_trans (a b c : float) :
  f_ge a b = true → f_ge b c = true → f_ge a c = true.
Proof. intros Hab Hbc. float_cases. Qed.

Lemma f_ge_total (a b : float) :
  is_nan a = false → is_nan b = false → f_lt a b = false → f_ge a b = true.
Proof. intros Ha Hb Hab. float_cases. Qed.

Lemma f_lt_ge (a b : float) : f_lt a b = true → f_ge b a = true.
Proof. intros Hab. float_cases. Qed.

Lemma f_eq_ge (a b : float) : f_eq a b = true → f_ge a b = true.
Proof. intros Hab. float_cases. Qed.

Lemma f_gt_ge (a b : float) : f_gt a b = true → f_ge a b = true.
Proof. intros Hab. float_cases. Qed.

Lemma f_gt_not_nan (a b : float) : f_gt a b = true → is_nan a = false.
Proof. intros Hab. float_cases. Qed.

End FloatOrder.

Section SortFacts.
Context {A : Type} (lt : A → A → bool) (R : A → A → Prop) (P : A → Prop).
Hypothesis not_lt_R : ∀ x y, P x → P y → lt x y = false → R x y.
Hypothesis lt_R : ∀ x y, P x → P y → lt x y = true → R y x.
Hypothesis R_trans : ∀ x y z, R x y → R y z → R x z.

Lemma insert_desc_perm (x : A) (l : list A) : insert_desc lt x l ≡ₚ x :: l.
Proof.
  induction l as [|y l IH]; simpl; [done|].
  destruct (lt x y); [|done].
  rewrite IH. apply Permutation_swap.
Qed.

Lemma sort_desc_perm (l : list A) : sort_desc lt l ≡ₚ l.
Proof.
  induction l as [|x l IH]; simpl; [done|].
  unfold sort_desc in *. simpl. rewrite insert_desc_perm. now rewrite IH.
Qed.

Lemma insert_desc_sorted (x : A) (l : list A) :
  P x → Forall P l → StronglySorted R l → StronglySorted R (insert_desc lt x l).
Proof.
  intros Hx HP Hs. induction Hs as [|y l Hs IH Hy]; simpl.
  - repeat constructor.
  - apply Forall_cons in HP as [HPy HPl].
    destruct (lt x y) eqn:E.
    + constructor; [now apply IH|].
      rewrite insert_desc_perm. constructor; [now apply lt_R | done].
    + assert (R x y) by now apply not_lt_R.
      constructor; [now constructor|].
      constructor; [done|].
      eapply Forall_impl; [exact Hy|]. intros z Hz. now apply R_trans with y.
Qed.

Lemma sort_desc_sorted (l : list A) :
  Forall P l → StronglySorted R (sort_desc lt l).
Proof.
  induction 1 as [|x l Hx Hl IH]; [constructor|].
  unfold sort_desc in *. simpl. apply insert_desc_sorted; [done| |done].
  change (foldr (insert_desc lt) [] l) with (sort_desc lt l).
  now rewrite sort_desc_perm.
Qed.

End SortFacts.

(** ** Properties of the report builder *)

Section ReportFacts.
Import Report.

Lemma key_lt_false_before (x y : row) :
  no_nan x → no_nan y → key_lt x y = false → before x y.
Proof.
  unfold no_nan, key_lt, before. intros Hx Hy Hlt.
  destruct (Z.eqb_spec (r_positive_segments x) (r_positive_segments y)) as [E|E].
  - right. split; [done|].
    destruct (f_eq _ _) eqn:Eq; [now apply f_eq_ge | now apply f_ge_total].
  - left. apply Z.ltb_ge in Hlt. lia.
Qed.

Lemma key_lt_true_before (x y : row) :
  no_nan x → no_nan y → key_lt x y = true → before y x.
Proof.
  unfold no_nan, key_lt, before. intros Hx Hy Hlt.
  destruct (Z.eqb_spec (r_positive_segments x) (r_positive_segments y)) as [E|E].
  - right. split; [done|].
    destruct (f_eq _ _) eqn:Eq; [done | now apply f_lt_ge].
  - left. now apply Z.ltb_lt in Hlt.
Qed.

Lemma before_trans (x y z : row) : before x y → before y z → before x z.
Proof.
  unfold before. intros [H1|[H1 G1]] [H2|[H2 G2]]; try (left; lia).
  right. split; [lia|]. now apply f_ge_trans with (r_max_confidence y).
Qed.

Lemma sort_rows_perm (rows : list row) : sort_rows rows ≡ₚ rows.
Proof. apply sort_desc_perm. Qed.

Lemma sort_rows_sorted (rows : list row) :
  Forall no_nan rows → StronglySorted before (sort_rows rows).
Proof.
  apply sort_desc_sorted.
  - apply key_lt_false_before.
  - apply key_lt_true_before.
  - apply before_trans.
Qed.

Lemma top_rows_spec (top_n : Z) (rows : list row) :
  top_rows top_n rows = if 0 <? top_n then take (Z.to_nat top_n) rows else rows.
Proof.
  unfold top_rows.
  destruct (Z.eqb_spec top_n 0) as [->|Hne]; [reflexivity|].
  reflexivity.
Qed.

(** C3. The report builder orders the rows by the pair
    (positive segments, maximal confidence), both descending, the first
    being the primary key: the sorted list is a rearrangement of the
    rows in which every row may stand [before] every later one.  With
    [top_n > 0] the builder keeps the first [top_n] rows of that order,
    all of them when [top_n] is 0 or there are no more than [top_n]
    rows.  The rows are those the builder makes, whose maximal
    confidence is never a NaN. *)
Theorem report_sorted_then_truncated (rows : list row) (top_n : Z)
    (Hnan : Forall no_nan rows) :
  sort_rows rows ≡ₚ rows
  ∧ StronglySorted before (sort_rows rows)
  ∧ sort_and_truncate top_n rows =
      (if 0 <? top_n then take (Z.to_nat top_n) (sort_rows rows) else sort_rows rows)
  ∧ (0 < top_n →
       length (sort_and_truncate top_n rows) = Nat.min (Z.to_nat top_n) (length rows))
  ∧ (top_n ≤ 0 ∨ Z.of_nat (length rows) ≤ top_n →
       sort_and_truncate top_n rows = sort_rows rows).
Proof.
  assert (Hlen : length (sort_rows rows) = length rows)
    by (apply Permutation_length, sort_rows_perm).
  split; [apply sort_rows_perm|].
  split; [now apply sort_rows_sorted|].
  unfold sort_and_truncate. rewrite top_rows_spec.
  split; [reflexivity|].
  split.
  - intros Hpos. apply Z.ltb_lt in Hpos as ->. now rewrite length_take, Hlen.
  - intros [Hle|Hge].
    + apply Z.ltb_ge in Hle as ->. reflexivity.
    + destruct (0 <? top_n); [|reflexivity].
      apply take_ge. lia.
Qed.

End ReportFacts.

(** ** Properties of the aggregation engine *)

Lemma bind_Ok {A B} (m : result A) (f : A → result B) (b : B) :
  m ≫= f = Ok b ↔ ∃ a, m = Ok a ∧ f a = Ok b.
Proof.
  destruct m as [a|e]; simpl; split.
  - intros Hf. now exists a.
  - now intros (a' & [= <-] & Hf).
  - discriminate.
  - now intros (a' & [=] & _).
Qed.

Ltac inv_bind :=
  repeat match goal with
  | H : _ ≫= _ = Ok _ |- _ => apply bind_Ok in H as (? & ? & H)
  | H : mret _ = Ok _ |- _ => injection H as H
  | H : Ok _ = Ok _ |- _ => injection H as H
  end.

Section AggFacts.
Import Report.
Context `{Builtins}.

Lemma agg_update_lookup k d f a a' :
  agg_update k d f a = Ok a' →
  ∃ e', f (default d (agg_lookup k a)) = Ok e' ∧ agg_lookup k a' = Some e'.
Proof.
  revert a'. induction a as [|[k' e] a IH]; intros a' Hu; simpl in *.
  - inv_bind. subst. exists x. simpl. now rewrite String.eqb_refl.
  - destruct (String.eqb k k') eqn:E.
    + inv_bind. subst. exists x. simpl. now rewrite E.
    + inv_bind. subst. destruct (IH _ H0) as (e' & Hf & Hl).
      exists e'. simpl. now rewrite E.
Qed.

Lemma agg_update_Forall (P : entry → Prop) k d f a a' :
  (∀ e e', P e → f e = Ok e' → P e') →
  P d →
  Forall (fun ke => P ke.2) a →
  agg_update k d f a = Ok a' →
  Forall (fun ke => P ke.2) a'.
Proof.
  intros Hf Hd. revert a'. induction a as [|[k' e] a IH]; intros a' Ha Hu; simpl in *.
  - inv_bind. subst. repeat constructor. simpl. eauto.
  - apply Forall_cons in Ha as [He Ha].
    destruct (String.eqb k k').
    + inv_bind. subst. constructor; simpl; eauto.
    + inv_bind. subst. constructor; eauto.
Qed.

Lemma update_entry_counts thr c geo e e' :
  update_entry thr c geo e = Ok e' →
  e_segments_total e' = e_segments_total e + 1
  ∧ e_confidence_n e' = e_confidence_n e + 1
  ∧ e_positive_segments e' =
      e_positive_segments e + (if f_ge c thr then 1 else 0).
Proof.
  unfold update_entry. intros Hu.
  destruct (is_none (e_sample_lat e)); inv_bind; subst; simpl;
    destruct (f_ge c thr); repeat split; lia.
Qed.

Lemma update_entry_ok thr c geo e e' :
  entry_ok e → update_entry thr c geo e = Ok e' → entry_ok e'.
Proof.
  unfold entry_ok. intros He Hu.
  apply update_entry_counts in Hu as (-> & -> & ->).
  destruct (f_ge c thr); lia.
Qed.

Lemma fold_segment_dict thr d geo st kv st' c :
  safe_float (dict_get kv "confidence") = Some c →
  fold_segment thr d geo st (PDict kv) = Ok st' →
  ∃ k sci com,
    species_key_of d kv = Ok k
    ∧ agg_update k (fresh_entry sci com (strip (py_str (segment_label d kv))))
        (update_entry thr c geo) (agg st) = Ok (agg st').
Proof.
  intros Hc Hf. unfold fold_segment in Hf. rewrite Hc in Hf.
  apply bind_Ok in Hf as (k & Hk & Hf).
  apply bind_Ok in Hf as (sci & _ & Hf).
  apply bind_Ok in Hf as (com & _ & Hf).
  apply bind_Ok in Hf as (a & Ha & Hf).
  injection Hf as <-. simpl. eauto.
Qed.

Lemma fold_segment_skip thr d geo st r :
  (∀ kv, r = PDict kv → safe_float (dict_get kv "confidence") = None) →
  fold_segment thr d geo st r = Ok st.
Proof.
  intros Hr. destruct r; try reflexivity.
  unfold fold_segment. now rewrite (Hr kv eq_refl).
Qed.

Lemma fresh_entry_ok sci com lab : entry_ok (fresh_entry sci com lab).
Proof. unfold entry_ok. simpl. lia. Qed.

(** A property of the entries that the default entry has and the update
    of one segment keeps holds in every state of the fold. *)
Section Preserved.
Variable thr : float.
Variable P : entry → Prop.
Hypothesis P_fresh : ∀ sci com lab, P (fresh_entry sci com lab).
Hypothesis P_update : ∀ c geo e e', P e → update_entry thr c geo e = Ok e' → P e'.

Let all_P (st : agg_state) : Prop := Forall (fun ke => P ke.2) (agg st).

Lemma fold_segment_preserves d geo st r st' :
  all_P st → fold_segment thr d geo st r = Ok st' → all_P st'.
Proof.
  intros Hok Hf.
  destruct r as [| | | | | |kv];
    try (injection Hf as <-; exact Hok).
  destruct (safe_float (dict_get kv "confidence")) as [c|] eqn:Hc.
  - destruct (fold_segment_dict _ _ _ _ _ _ _ Hc Hf) as (k & sci & com & _ & Hu).
    unfold all_P. eapply (agg_update_Forall P); [|apply P_fresh|exact Hok|exact Hu].
    intros e e'. apply P_update.
  - unfold fold_segment in Hf. rewrite Hc in Hf. injection Hf as <-. exact Hok.
Qed.

Lemma fold_segments_preserves d geo results : ∀ st st',
  all_P st → fold_segments thr d geo st results = Ok st' → all_P st'.
Proof.
  induction results as [|r results IH]; intros st st' Hok Hf; simpl in Hf.
  - injection Hf as <-. exact Hok.
  - apply bind_Ok in Hf as (st1 & H1 & Hf).
    eapply IH; [|exact Hf]. eapply fold_segment_preserves; eauto.
Qed.

Lemma fold_docs_preserves docs : ∀ st st',
  all_P st → fold_docs thr st docs = Ok st' → all_P st'.
Proof.
  induction docs as [|d docs IH]; intros st st' Hok Hf; simpl in Hf.
  - injection Hf as <-. exact Hok.
  - apply bind_Ok in Hf as (st1 & H1 & Hf).
    eapply IH; [|exact Hf]. eapply fold_segments_preserves; eauto.
Qed.

Lemma aggregate_preserves cls_docs st :
  aggregate thr cls_docs = Ok st → all_P st.
Proof. apply fold_docs_preserves. constructor. Qed.

End Preserved.

Lemma fold_segment_ok thr d geo st r st' :
  agg_ok st → fold_segment thr d geo st r = Ok st' → agg_ok st'.
Proof.
  apply (fold_segment_preserves thr entry_ok).
  - apply fresh_entry_ok.
  - intros c g e e'. apply update_entry_ok.
Qed.

Lemma aggregate_ok thr cls_docs st :
  aggregate thr cls_docs = Ok st → agg_ok st.
Proof.
  apply (aggregate_preserves thr entry_ok).
  - apply fresh_entry_ok.
  - intros c g e e'. apply update_entry_ok.
Qed.

(** The maximal confidence of a species is never a NaN: it starts at
    0.0 and only a confidence that compares greater replaces it. *)
Lemma aggregate_max_not_nan thr cls_docs st :
  aggregate thr cls_docs = Ok st →
  Forall (fun ke => is_nan (e_max_confidence ke.2) = false) (agg st).
Proof.
  apply (aggregate_preserves thr (fun e => is_nan (e_max_confidence e) = false)).
  - reflexivity.
  - intros c g e e' He Hu. unfold update_entry in Hu.
    destruct (is_none (e_sample_lat e));
      repeat (apply bind_Ok in Hu as (? & _ & Hu));
      injection Hu as <-; simpl;
      (destruct (f_gt c (e_max_confidence e)) eqn:Hgt;
       [now apply f_gt_not_nan in Hgt | exact He]).
Qed.

Lemma segment_counts thr d geo st kv st' c k :
  safe_float (dict_get kv "confidence") = Some c →
  species_key_of d kv = Ok k →
  fold_segment thr d geo st (PDict kv) = Ok st' →
  total_of st' k = total_of st k + 1
  ∧ count_of st' k = count_of st k + 1
  ∧ positive_of st' k = positive_of st k + (if f_ge c thr then 1 else 0).
Proof.
  intros Hc Hk Hf.
  destruct (fold_segment_dict _ _ _ _ _ _ _ Hc Hf) as (k' & sci & com & Hk' & Hu).
  rewrite Hk in Hk'. injection Hk' as <-.
  apply agg_update_lookup in Hu as (e' & He' & Hl).
  apply update_entry_counts in He' as (Ht & Hn & Hp).
  unfold total_of, count_of, positive_of. rewrite Hl. simpl.
  rewrite Ht, Hn, Hp.
  destruct (agg_lookup k (agg st)); simpl; repeat split; reflexivity.
Qed.

(** C1. A segment whose confidence parses counts as positive exactly
    when that confidence is greater than or equal to the threshold:
    folding it in adds one to the positive segments of its species if
    [confidence >= threshold] holds and leaves them as they are if not.
    The boundary is inclusive: a confidence equal to the threshold adds
    one. *)
Theorem positive_iff_confidence_ge_threshold thr d geo st kv st' c k
    (Hc : safe_float (dict_get kv "confidence") = Some c)
    (Hk : species_key_of d kv = Ok k)
    (Hf : fold_segment thr d geo st (PDict kv) = Ok st') :
  (positive_of st' k = positive_of st k + 1 ↔ f_ge c thr = true)
  ∧ (positive_of st' k = positive_of st k ↔ f_ge c thr = false)
  ∧ (f_eq c thr = true → positive_of st' k = positive_of st k + 1).
Proof.
  destruct (segment_counts _ _ _ _ _ _ _ _ Hc Hk Hf) as (_ & _ & Hp).
  rewrite Hp. split; [|split].
  - destruct (f_ge c thr); split; intros; (done || lia).
  - destruct (f_ge c thr); split; intros; (done || lia).
  - intros Heq. now rewrite (f_eq_ge _ _ Heq).
Qed.

(** C4. [positive_segments <= segments_total] and
    [confidence_n <= segments_total] hold for every species after every
    segment is folded in: one step of the fold keeps them, a folded
    segment adds one to the total and to the confidence count of its
    species and zero or one to its positive segments, and so they hold in
    the aggregate of any documents at any threshold. *)
Theorem counts_invariant thr :
  (∀ d geo st r st',
     agg_ok st → fold_segment thr d geo st r = Ok st' → agg_ok st')
  ∧ (∀ d geo st kv st' c k,
       safe_float (dict_get kv "confidence") = Some c →
       species_key_of d kv = Ok k →
       fold_segment thr d geo st (PDict kv) = Ok st' →
       total_of st' k = total_of st k + 1
       ∧ count_of st' k = count_of st k + 1
       ∧ positive_of st k ≤ positive_of st' k ≤ positive_of st k + 1)
  ∧ (∀ cls_docs st k e,
       aggregate thr cls_docs = Ok st →
       (k, e) ∈ agg st →
       e_positive_segments e ≤ e_segments_total e
       ∧ e_confidence_n e ≤ e_segments_total e).
Proof.
  split; [|split].
  - intros d geo st r st'. apply fold_segment_ok.
  - intros d geo st kv st' c k Hc Hk Hf.
    destruct (segment_counts _ _ _ _ _ _ _ _ Hc Hk Hf) as (Ht & Hn & Hp).
    rewrite Ht, Hn, Hp. destruct (f_ge c thr); lia.
  - intros cls_docs st k e Ha Hin.
    assert (Hok : agg_ok st) by (eapply aggregate_ok; exact Ha).
    unfold agg_ok in Hok. rewrite Forall_forall in Hok.
    specialize (Hok _ Hin). unfold entry_ok in Hok. simpl in Hok. lia.
Qed.

Section BuilderFacts.
Variable count_documents : string → Z.

Lemma build_row_positive seen k e r :
  build_row count_documents seen k e = Ok (Some r) → 1 ≤ r_positive_segments r.
Proof.
  unfold build_row. intros Hb.
  destruct (Z.leb_spec (e_positive_segments e) 0) as [Hle|Hgt]; [discriminate|].
  apply bind_Ok in Hb as (avg & _ & Hb).
  injection Hb as <-. simpl. lia.
Qed.

Lemma build_rows_positive seen a : ∀ rows,
  build_rows count_documents seen a = Ok rows →
  Forall (fun r => 1 ≤ r_positive_segments r) rows.
Proof.
  induction a as [|[k e] a IH]; intros rows Hb; simpl in Hb.
  - injection Hb as <-. constructor.
  - apply bind_Ok in Hb as (o & Ho & Hb).
    apply bind_Ok in Hb as (rest & Hrest & Hb).
    injection Hb as <-.
    destruct o as [r|]; [constructor|]; eauto using build_row_positive.
Qed.

Lemma filter_allowed_Forall (P : row → Prop) query allowed rows : ∀ rows',
  filter_allowed query allowed rows = Ok rows' → Forall P rows → Forall P rows'.
Proof.
  induction rows as [|r rows IH]; intros rows' Hf HP; simpl in Hf.
  - injection Hf as <-. constructor.
  - apply Forall_cons in HP as [Hr HP].
    apply bind_Ok in Hf as (b & _ & Hf).
    apply bind_Ok in Hf as (rest & Hrest & Hf).
    injection Hf as <-.
    destruct b; [constructor|]; eauto.
Qed.

Lemma species_filter_Forall (P : row → Prop) species rows rows' :
  species_filter species rows = Ok rows' → Forall P rows → Forall P rows'.
Proof.
  unfold species_filter. intros Hf HP.
  destruct species as [query|]; [|injection Hf as <-; exact HP].
  destruct (nonempty query); [|injection Hf as <-; exact HP].
  apply bind_Ok in Hf as (allowed & _ & Hf).
  eapply filter_allowed_Forall; eauto.
Qed.

Lemma sort_and_truncate_Forall (P : row → Prop) top_n rows :
  Forall P rows → Forall P (sort_and_truncate top_n rows).
Proof.
  intros HP. unfold sort_and_truncate. rewrite top_rows_spec.
  assert (Hs : Forall P (sort_rows rows)) by now rewrite sort_rows_perm.
  destruct (0 <? top_n); [now apply Forall_take | exact Hs].
Qed.

(** C5. No species without a positive segment is in the report: every
    row the report emits, for any documents, threshold, species filter
    and [top_n], has [positive_segments >= 1]. *)
Theorem report_rows_have_a_positive_segment thr species top_n cls_docs rows
    (Hrep : report count_documents thr species top_n cls_docs = Ok rows) :
  Forall (fun r => 1 ≤ r_positive_segments r) rows.
Proof.
  unfold report in Hrep.
  apply bind_Ok in Hrep as (st & _ & Hrep).
  apply bind_Ok in Hrep as (rows0 & Hb & Hrep).
  apply bind_Ok in Hrep as (rows1 & Hf & Hrep).
  injection Hrep as <-.
  apply sort_and_truncate_Forall.
  eapply species_filter_Forall; [exact Hf|].
  apply Forall_fmap. eapply Forall_impl; [eapply build_rows_positive; exact Hb|].
  intros r Hr. exact Hr.
Qed.

End BuilderFacts.

Lemma safe_float_raise v e : py_float v = Raise e → safe_float v = None.
Proof. intros Hv. unfold safe_float. rewrite Hv. now destruct v. Qed.

Lemma update_entry_values thr c geo e e' :
  update_entry thr c geo e = Ok e' →
  e_confidence_sum e' = f_add (e_confidence_sum e) c
  ∧ e_max_confidence e' =
      (if f_gt c (e_max_confidence e) then c else e_max_confidence e).
Proof.
  unfold update_entry. intros Hu.
  destruct (is_none (e_sample_lat e)); inv_bind; subst; simpl; split; reflexivity.
Qed.

Lemma segment_values thr d geo st kv st' c k :
  safe_float (dict_get kv "confidence") = Some c →
  species_key_of d kv = Ok k →
  fold_segment thr d geo st (PDict kv) = Ok st' →
  sum_of st' k = f_add (sum_of st k) c
  ∧ max_of st' k = (if f_gt c (max_of st k) then c else max_of st k).
Proof.
  intros Hc Hk Hf.
  destruct (fold_segment_dict _ _ _ _ _ _ _ Hc Hf) as (k' & sci & com & Hk' & Hu).
  rewrite Hk in Hk'. injection Hk' as <-.
  apply agg_update_lookup in Hu as (e' & He' & Hl).
  apply update_entry_values in He' as (Hs & Hm).
  unfold sum_of, max_of. rewrite Hl. simpl.
  rewrite Hs, Hm.
  destruct (agg_lookup k (agg st)); simpl; split; reflexivity.
Qed.

Lemma safe_float_int n c : float_of_int n = Ok c → safe_float (PInt n) = Some c.
Proof. intros Hn. unfold safe_float. simpl. now rewrite Hn. Qed.

(** C6, amended.  A confidence that is missing, [None] or not
    convertible to a float is absent: [safe_float] returns [None], never
    0, and the segment is skipped, the aggregate staying as it was.  A
    number is not absent, whatever its range: [safe_float] returns a
    float as it is and an [int] as the float of its value, and the
    segment of every confidence that [safe_float] returns takes part in
    the aggregation, where it adds one to the segments and to the
    confidences counted of its species, counts as positive by the
    threshold alone, and enters the sum and the maximum as it is,
    neither clamped nor replaced. *)
Theorem missing_confidence_is_absent thr d geo st kv :
  ((dict_get kv "confidence" = PNone
    ∨ ∃ e, py_float (dict_get kv "confidence") = Raise e) →
   safe_float (dict_get kv "confidence") = None
   ∧ fold_segment thr d geo st (PDict kv) = Ok st)
  ∧ (∀ f, safe_float (PFloat f) = Some f)
  ∧ (∀ n c, float_of_int n = Ok c → safe_float (PInt n) = Some c)
  ∧ (∀ c k st',
       (dict_get kv "confidence" = PFloat c
        ∨ (∃ n, dict_get kv "confidence" = PInt n ∧ float_of_int n = Ok c)
        ∨ safe_float (dict_get kv "confidence") = Some c) →
       species_key_of d kv = Ok k →
       fold_segment thr d geo st (PDict kv) = Ok st' →
       safe_float (dict_get kv "confidence") = Some c
       ∧ total_of st' k = total_of st k + 1
       ∧ count_of st' k = count_of st k + 1
       ∧ positive_of st' k = positive_of st k + (if f_ge c thr then 1 else 0)
       ∧ sum_of st' k = f_add (sum_of st k) c
       ∧ max_of st' k = (if f_gt c (max_of st k) then c else max_of st k)
       ∧ st' ≠ st).
Proof.
  split; [|split; [reflexivity|split; [apply safe_float_int|]]].
  - intros Hmiss.
    assert (Hn : safe_float (dict_get kv "confidence") = None).
    { destruct Hmiss as [->|[e He]]; [reflexivity | eapply safe_float_raise, He]. }
    split; [exact Hn|]. unfold fold_segment. now rewrite Hn.
  - intros c k st' Hnum Hk Hf.
    assert (Hc : safe_float (dict_get kv "confidence") = Some c).
    { destruct Hnum as [->|[(n & -> & Hn)|Hc]];
        [reflexivity | now apply safe_float_int | exact Hc]. }
    destruct (segment_counts _ _ _ _ _ _ _ _ Hc Hk Hf) as (Ht & Hn & Hp).
    destruct (segment_values _ _ _ _ _ _ _ _ Hc Hk Hf) as (Hs & Hm).
    split_and!; try assumption.
    intros ->. lia.
Qed.

Lemma doc_results_no_key d kv :
  d_raw d = PDict kv → assoc "results" kv = None → doc_results d = [].
Proof.
  intros Hraw Hres. unfold doc_results, py_or. rewrite Hraw.
  destruct kv as [|p kv']; simpl; [reflexivity|].
  unfold dict_get. now rewrite Hres.
Qed.

Lemma fold_doc_no_results thr st d :
  doc_results d = [] → fold_doc thr st d = Ok st.
Proof. intros Hr. unfold fold_doc. now rewrite Hr. Qed.

End AggFacts.

(** ** Properties of the normaliser and of the commit *)

Section ClassifyFacts.
Import Report Classify.
Context `{Builtins}.

Lemma extract_total kv : ∃ bl bs, extract (PDict kv) = Ok (bl, bs).
Proof. unfold extract. simpl. eauto. Qed.

Lemma normalize_total parsed : ∃ bl bs, normalize parsed = Ok (bl, bs).
Proof.
  unfold normalize.
  destruct parsed as [| | | | | |kv]; simpl; eauto.
  assert (Hbest : ∃ best, (if is_dict (dict_get kv "best")
                          then extract (dict_get kv "best")
                          else mret (PNone, None)) = Ok best).
  { destruct (dict_get kv "best") as [| | | | | |kb]; simpl; eauto. }
  destruct Hbest as ([bl bs] & ->). simpl.
  destruct (is_none bl); [|eauto].
  destruct (py_or (dict_get kv "predictions") (dict_get kv "results"))
    as [| | | | |l|kp]; simpl; eauto.
  destruct l as [|top l]; simpl; eauto.
  destruct top as [| | | | | |kt]; simpl; eauto.
Qed.

Lemma extract_bad_score o e :
  py_float (dict_get o "score") = Raise e → ∃ bl, extract (PDict o) = Ok (bl, None).
Proof.
  intros Hs. unfold extract. simpl. rewrite Hs.
  destruct (is_none (dict_get o "score")); simpl; eauto.
Qed.

Lemma safe_json_failed text :
  json_loads text = None → safe_json text = PDict [("raw", PStr text)].
Proof. intros Hj. unfold safe_json. now rewrite Hj. Qed.

(** C7. Normalisation never raises: for every payload the extraction
    of [best_label] and [best_score] returns; a text that [json.loads]
    rejects is stored as a raw echo that gives the aggregation no
    segment; a [score] that [float] rejects leaves [best_score] at
    [None], and a [confidence] that [float] rejects is [None] as well. *)
Theorem normalization_never_raises (parsed : pyval) (text : string)
    (c : cls_doc) (thr : float) (st : agg_state)
    (o : list (string * pyval)) (v : pyval) (e : exn) :
  (∃ bl bs, normalize parsed = Ok (bl, bs))
  ∧ (json_loads text = None → c_raw c = safe_json text →
       doc_results (project c) = [] ∧ fold_doc thr st (project c) = Ok st)
  ∧ (py_float (dict_get o "score") = Raise e →
       ∃ bl, extract (PDict o) = Ok (bl, None))
  ∧ (py_float v = Raise e → safe_float v = None).
Proof.
  split; [apply normalize_total|].
  split; [|split; [apply extract_bad_score | apply safe_float_raise]].
  intros Hj Hraw.
  assert (Hr : doc_results (project c) = []).
  { apply (doc_results_no_key _ [("raw", PStr text)]); [|reflexivity].
    simpl. rewrite Hraw. now apply safe_json_failed. }
  split; [exact Hr | now apply fold_doc_no_results].
Qed.


Lemma find_one_app_None col d id :
  find_one col id = None →
  List.find (fun x => String.eqb (c_audio_id x) id) (docs col ++ [d])
  = if String.eqb (c_audio_id d) id then Some d else None.
Proof.
  unfold find_one. induction (docs col) as [|x l IH]; simpl; [done|].
  destruct (String.eqb (c_audio_id x) id); [discriminate | exact IH].
Qed.

Lemma create_index_unique_flag col0 col :
  create_index_unique col0 = Ok col → unique_audio_id col = true ∧ docs col = docs col0.
Proof.
  unfold create_index_unique. destruct (decide _); [|discriminate].
  now intros [= <-].
Qed.

Lemma insert_one_conflict col d1 d2 :
  unique_audio_id col = true →
  find_one col (c_audio_id d2) = Some d1 →
  insert_one col d2 = (col, Raise DuplicateKeyError).
Proof.
  intros Hu Hf. unfold insert_one. rewrite Hu. simpl.
  rewrite bool_decide_eq_true_2 by (rewrite Hf; eauto). reflexivity.
Qed.

Lemma insert_one_stored col d col1 :
  unique_audio_id col = true →
  insert_one col d = (col1, Ok tt) →
  unique_audio_id col1 = true ∧ find_one col1 (c_audio_id d) = Some d.
Proof.
  intros Hu. unfold insert_one. rewrite Hu. simpl.
  destruct (bool_decide _) eqn:Hb; [discriminate|].
  intros [= <-]. split; [reflexivity|].
  apply bool_decide_eq_false in Hb.
  assert (Hn : find_one col (c_audio_id d) = None).
  { destruct (find_one col (c_audio_id d)); [exfalso; eauto | reflexivity]. }
  unfold find_one at 1. simpl.
  rewrite (find_one_app_None _ _ _ Hn). now rewrite String.eqb_refl.
Qed.

(** C2. Once the unique index on [audio_id] exists and an outcome is
    stored for an identifier, committing a second outcome for the same
    identifier fails with [DuplicateKeyError], the collection is left as
    it was and the stored outcome is still the first one; the same
    holds for any stored outcome in any indexed collection. *)
Theorem second_commit_conflicts (col0 col col1 : collection) (d1 d2 : cls_doc)
    (Hidx : create_index_unique col0 = Ok col)
    (Hfirst : insert_one col d1 = (col1, Ok tt))
    (Hid : c_audio_id d2 = c_audio_id d1) :
  insert_one col1 d2 = (col1, Raise DuplicateKeyError)
  ∧ find_one (insert_one col1 d2).1 (c_audio_id d1) = Some d1
  ∧ ∀ col' d d', unique_audio_id col' = true →
      find_one col' (c_audio_id d') = Some d →
      insert_one col' d' = (col', Raise DuplicateKeyError).
Proof.
  apply create_index_unique_flag in Hidx as [Hu _].
  destruct (insert_one_stored _ _ _ Hu Hfirst) as [Hu1 Hf1].
  assert (Hc : insert_one col1 d2 = (col1, Raise DuplicateKeyError)).
  { eapply insert_one_conflict; [exact Hu1|]. rewrite Hid. exact Hf1. }
  split; [exact Hc|]. split; [now rewrite Hc|].
  intros col' d d'. apply insert_one_conflict.
Qed.

(** The guard of the loop: a recording with a stored outcome is skipped
    and nothing is sent or written; the document of a recording without
    one is never refused by the index. *)
Section Loop.
Variable bucket classify_url : string.
Variable get_object : string → bool.
Variable post : audio → response.
Variable taxa_find_one : pyval → result pyval.
Variable dumps_log : pyval → option exn.
Variable bson_encode : cls_doc → option exn.

Lemma classify_one_skips col a d :
  find_one col (audio_id a) = Some d →
  classify_one bucket classify_url get_object post taxa_find_one
    dumps_log bson_encode col a
  = (col, Ok Skipped).
Proof. intros Hf. unfold classify_one. now rewrite Hf. Qed.

Lemma insert_one_fresh col d :
  find_one col (c_audio_id d) = None →
  insert_one col d
  = ({| unique_audio_id := unique_audio_id col; docs := docs col ++ [d] |}, Ok tt).
Proof.
  intros Hf. unfold insert_one. rewrite Hf.
  rewrite bool_decide_eq_false_2 by (intros [? [=]]).
  now rewrite andb_false_r.
Qed.

End Loop.

End ClassifyFacts.

(** ** The properties on the examples *)

Section Worked.
Import Report Classify Examples.

Local Existing Instance example_builtins.

(** The scenario of the specification: three recordings with one robin
    segment of confidence 0.8 each give one row, the wren below the
    threshold gives none. *)
Example report_three_robins :
  report no_observations f_0_30 None 0 three_robins = Ok [robin_row].
Proof. vm_compute. reflexivity. Qed.

(** Species C, with more positive segments, comes first; B comes before
    A by its greater maximal confidence. *)
Example sort_rows_A_B_C :
  sort_and_truncate 0 [row_A; row_B; row_C] = [row_C; row_B; row_A]
  ∧ sort_and_truncate 2 [row_A; row_B; row_C] = [row_C; row_B].
Proof. split; reflexivity. Qed.

(** A confidence that is not a number is skipped like a missing one. *)
Example vague_confidence_is_skipped :
  safe_float (dict_get vague_segment "confidence") = None
  ∧ fold_segment f_0_30 (stored "a1" (with_results [PDict vague_segment]))
      somewhere agg_empty (PDict vague_segment) = Ok agg_empty.
Proof. split; reflexivity. Qed.

(** A payload with a [predictions] list has a best label and gives the
    report nothing. *)
Example predictions_payload_is_not_reported :
  normalize (PDict predictions_payload) = Ok (PStr "robin", Some f_0_9)
  ∧ report no_observations f_0_30 None 0
      [stored "a1" (PDict predictions_payload)] = Ok [].
Proof. split; vm_compute; reflexivity. Qed.

(** The filter of the specification: "robin" keeps the American Robin
    and drops the Bald Eagle. *)
Example fuzzy_robin :
  Trigram.fuzzy_match "robin" ["American Robin"; "Bald Eagle"] f_0_35
  = Ok {["American Robin"]}.
Proof. vm_compute. reflexivity. Qed.

Lemma positive_iff_confidence_ge_threshold_witness :
  f_eq f_0_30 f_0_30 = true
  ∧ positive_of (one_robin "a1" f_0_30) "robin" = positive_of agg_empty "robin" + 1.
Proof.
  split; [reflexivity|].
  refine (proj2 (proj2
    (@positive_iff_confidence_ge_threshold example_builtins f_0_30
       (stored "a1" (with_results [PDict boundary_segment])) somewhere agg_empty
       boundary_segment (one_robin "a1" f_0_30) f_0_30 "robin" _ _ _)) _);
    vm_compute; reflexivity.
Defined.

Lemma report_sorted_then_truncated_witness :
  sort_rows [row_A; row_B; row_C] ≡ₚ [row_A; row_B; row_C]
  ∧ StronglySorted before (sort_rows [row_A; row_B; row_C])
  ∧ sort_and_truncate 2 [row_A; row_B; row_C] =
      take 2 (sort_rows [row_A; row_B; row_C])
  ∧ (0 < 2 →
       length (sort_and_truncate 2 [row_A; row_B; row_C]) = Nat.min 2 3)
  ∧ (2 ≤ 0 ∨ 3 ≤ 2 →
       sort_and_truncate 2 [row_A; row_B; row_C] = sort_rows [row_A; row_B; row_C]).
Proof.
  apply (report_sorted_then_truncated [row_A; row_B; row_C] 2).
  repeat constructor.
Defined.

Lemma counts_invariant_witness :
  agg_ok (one_robin "a1" f_0_30)
  ∧ total_of (one_robin "a1" f_0_30) "robin" = total_of agg_empty "robin" + 1
  ∧ e_positive_segments (robin_entry 1 f_0_30) ≤ e_segments_total (robin_entry 1 f_0_30)
  ∧ e_confidence_n (robin_entry 1 f_0_30) ≤ e_segments_total (robin_entry 1 f_0_30).
Proof.
  pose (d := stored "a1" (with_results [PDict boundary_segment])).
  destruct (@counts_invariant example_builtins f_0_30) as (Hstep & Hcount & Hall).
  split.
  { apply (Hstep d somewhere agg_empty (PDict boundary_segment));
      [constructor | vm_compute; reflexivity]. }
  split.
  { apply (Hcount d somewhere agg_empty boundary_segment (one_robin "a1" f_0_30)
             f_0_30 "robin"); vm_compute; reflexivity. }
  apply (Hall [d] (one_robin "a1" f_0_30) "robin" (robin_entry 1 f_0_30)).
  - vm_compute. reflexivity.
  - simpl. apply list_elem_of_here.
Defined.

Lemma report_rows_have_a_positive_segment_witness :
  Forall (fun r => 1 ≤ r_positive_segments r) [robin_row].
Proof.
  apply (@report_rows_have_a_positive_segment example_builtins no_observations
           f_0_30 None 0 three_robins [robin_row]).
  vm_compute. reflexivity.
Defined.

(** C6, as the specification words it, fails: a confidence of 1.5 lies
    outside [0,1], yet [safe_float] returns it and the segment is
    counted, in the total and among the positive segments of its
    species, with 1.5 as maximal confidence. *)
Lemma out_of_range_confidence_is_aggregated :
  f_gt f_1_5 f_one = true
  ∧ safe_float (dict_get loud_segment "confidence") = Some f_1_5
  ∧ fold_segment f_0_30 (stored "a1" (with_results [PDict loud_segment]))
      somewhere agg_empty (PDict loud_segment) = Ok (one_robin "a1" f_1_5)
  ∧ fold_segment f_0_30 (stored "a1" (with_results [PDict loud_segment]))
      somewhere agg_empty (PDict loud_segment) ≠ Ok agg_empty
  ∧ total_of (one_robin "a1" f_1_5) "robin" = 1
  ∧ positive_of (one_robin "a1" f_1_5) "robin" = 1.
Proof.
  assert (Hf : fold_segment f_0_30 (stored "a1" (with_results [PDict loud_segment]))
                 somewhere agg_empty (PDict loud_segment) = Ok (one_robin "a1" f_1_5))
    by (vm_compute; reflexivity).
  repeat split; try reflexivity; try exact Hf.
  rewrite Hf. discriminate.
Qed.

Lemma missing_confidence_is_absent_witness :
  (safe_float (dict_get silent_segment "confidence") = None
   ∧ fold_segment f_0_30 (stored "a1" (with_results [PDict silent_segment]))
       somewhere agg_empty (PDict silent_segment) = Ok agg_empty)
  ∧ (safe_float (dict_get whole_segment "confidence") = Some f_2_0
     ∧ total_of (one_robin "a1" f_2_0) "robin" = total_of agg_empty "robin" + 1
     ∧ positive_of (one_robin "a1" f_2_0) "robin" = positive_of agg_empty "robin" + 1
     ∧ max_of (one_robin "a1" f_2_0) "robin" = f_2_0)
  ∧ (safe_float (dict_get negative_segment "confidence") = Some f_minus_0_5
     ∧ total_of (one_robin "a1" f_0_30) "robin" + 1
       = total_of
           {| agg := [("robin", negative_entry)];
              seen_audio_per_species := {["robin" := {["a1"; "a2"]}]} |} "robin"
     ∧ positive_of (one_robin "a1" f_0_30) "robin"
       = positive_of
           {| agg := [("robin", negative_entry)];
              seen_audio_per_species := {["robin" := {["a1"; "a2"]}]} |} "robin").
Proof.
  split; [|split].
  - apply (proj1 (@missing_confidence_is_absent example_builtins f_0_30
                    (stored "a1" (with_results [PDict silent_segment])) somewhere
                    agg_empty silent_segment)).
    left. reflexivity.
  - destruct (proj2 (proj2 (proj2
        (@missing_confidence_is_absent example_builtins f_0_30
           (stored "a1" (with_results [PDict whole_segment])) somewhere
           agg_empty whole_segment)))
        f_2_0 "robin" (one_robin "a1" f_2_0))
      as (Hc & Ht & _ & Hp & _ & Hm & _).
    + right. left. exists 2. split; vm_compute; reflexivity.
    + vm_compute. reflexivity.
    + vm_compute. reflexivity.
    + split; [exact Hc|]. split; [exact Ht|]. split; [exact Hp|]. exact Hm.
  - destruct (proj2 (proj2 (proj2
        (@missing_confidence_is_absent example_builtins f_0_30
           (stored "a2" (with_results [PDict negative_segment])) somewhere
           (one_robin "a1" f_0_30) negative_segment)))
        f_minus_0_5 "robin"
        {| agg := [("robin", negative_entry)];
           seen_audio_per_species := {["robin" := {["a1"; "a2"]}]} |})
      as (Hc & Ht & _ & Hp & _).
    + left. reflexivity.
    + vm_compute. reflexivity.
    + vm_compute. reflexivity.
    + split; [exact Hc|]. split; [now rewrite Ht|]. now rewrite Hp.
Defined.

Lemma normalization_never_raises_witness :
  (∃ bl bs, normalize (PDict best_payload) = Ok (bl, bs))
  ∧ json_loads "<html>" = None
  ∧ fold_doc f_0_30 agg_empty
      (project (outcome_of "a1" "<html>" (safe_json "<html>"))) = Ok agg_empty
  ∧ (∃ bl, extract (PDict [("label", PStr "robin"); ("score", PStr "high")])
           = Ok (bl, None))
  ∧ safe_float (PStr "high") = None.
Proof.
  destruct (@normalization_never_raises example_builtins (PDict best_payload)
              "<html>" (outcome_of "a1" "<html>" (safe_json "<html>")) f_0_30
              agg_empty [("label", PStr "robin"); ("score", PStr "high")]
              (PStr "high") ValueError) as (Hn & Hj & Hs & Hc).
  split; [exact Hn|].
  split; [reflexivity|].
  split; [apply Hj; reflexivity|].
  split; [apply Hs; reflexivity | apply Hc; reflexivity].
Defined.


Lemma second_commit_conflicts_witness :
  insert_one (indexed [first_outcome]) second_outcome
    = (indexed [first_outcome], Raise DuplicateKeyError)
  ∧ find_one (insert_one (indexed [first_outcome]) second_outcome).1 "a1"
    = Some first_outcome.
Proof.
  destruct (second_commit_conflicts no_classifications (indexed [])
              (indexed [first_outcome]) first_outcome second_outcome)
    as (Hc & Hs & _).
  - vm_compute. reflexivity.
  - reflexivity.
  - reflexivity.
  - split; [exact Hc | exact Hs].
Defined.

End Worked.

(** ** Strings: reversal and stripping *)

Section StringFacts.

Lemma app_cons (c : ascii) (s1 s2 : string) :
  String c s1 +:+ s2 = String c (s1 +:+ s2).
Proof. reflexivity. Qed.

Lemma app_empty_r (s : string) : s +:+ "" = s.
Proof. induction s as [|c s IH]; [reflexivity|]. now rewrite app_cons, IH. Qed.

Lemma app_assoc_str (s1 s2 s3 : string) :
  (s1 +:+ s2) +:+ s3 = s1 +:+ (s2 +:+ s3).
Proof.
  induction s1 as [|c s1 IH]; [reflexivity|]. now rewrite !app_cons, IH.
Qed.

Lemma rev_app_spec (s1 s2 : string) :
  String.rev_app s1 s2 = String.rev s1 +:+ s2.
Proof.
  unfold String.rev. revert s2.
  induction s1 as [|c s1 IH]; intros s2; simpl; [reflexivity|].
  rewrite (IH (String c s2)), (IH (String c "")).
  now rewrite app_assoc_str.
Qed.

Lemma rev_cons (c : ascii) (s : string) :
  String.rev (String c s) = String.rev s +:+ String c "".
Proof. unfold String.rev at 1. simpl. apply rev_app_spec. Qed.

Lemma rev_snoc (c : ascii) (s : string) :
  String.rev (s +:+ String c "") = String c (String.rev s).
Proof.
  induction s as [|a s IH]; [reflexivity|].
  now rewrite app_cons, !rev_cons, IH.
Qed.

Lemma rev_involutive (s : string) : String.rev (String.rev s) = s.
Proof.
  induction s as [|c s IH]; [reflexivity|].
  now rewrite rev_cons, rev_snoc, IH.
Qed.

Lemma rev_empty_inv (s : string) : String.rev s = "" → s = "".
Proof. intros Hs. rewrite <- (rev_involutive s), Hs. reflexivity. Qed.

(** [lstrip] of a string followed by more text. *)
Lemma lstrip_app (x y : string) :
  lstrip (x +:+ y) = if String.eqb (lstrip x) "" then lstrip y else lstrip x +:+ y.
Proof.
  induction x as [|c x IH]; [reflexivity|].
  rewrite app_cons. simpl. destruct (is_space c); [exact IH | reflexivity].
Qed.

(** [rstrip] by recursion on the string, without the reversals. *)
Lemma rstrip_cons (c : ascii) (s : string) :
  rstrip (String c s) =
    match rstrip s with
    | EmptyString => if is_space c then "" else String c ""
    | r => String c r
    end.
Proof.
  unfold rstrip. rewrite rev_cons, lstrip_app.
  destruct (lstrip (String.rev s)) as [|a w] eqn:Hw.
  - simpl. now destruct (is_space c).
  - simpl (String.eqb _ _). cbv iota.
    rewrite rev_snoc.
    destruct (String.rev (String a w)) eqn:Hr; [|reflexivity].
    apply rev_empty_inv in Hr. discriminate.
Qed.

Lemma rstrip_empty : rstrip "" = "".
Proof. reflexivity. Qed.

Lemma lstrip_idem (s : string) : lstrip (lstrip s) = lstrip s.
Proof.
  induction s as [|c s IH]; [reflexivity|].
  simpl. destruct (is_space c) eqn:Hc; [exact IH|]. simpl. now rewrite Hc.
Qed.

Lemma rstrip_idem (s : string) : rstrip (rstrip s) = rstrip s.
Proof.
  induction s as [|c s IH]; [reflexivity|].
  rewrite rstrip_cons. destruct (rstrip s) as [|a r] eqn:Hr.
  - destruct (is_space c) eqn:Hc; [reflexivity|].
    rewrite rstrip_cons, rstrip_empty, Hc. reflexivity.
  - rewrite rstrip_cons, IH. reflexivity.
Qed.

Lemma lstrip_rstrip (s : string) : lstrip (rstrip s) = rstrip (lstrip s).
Proof.
  induction s as [|c s IH]; [reflexivity|].
  rewrite rstrip_cons. simpl (lstrip (String c s)).
  destruct (is_space c) eqn:Hc.
  - rewrite <- IH. destruct (rstrip s) as [|a r]; [reflexivity|].
    simpl. now rewrite Hc.
  - rewrite rstrip_cons.
    destruct (rstrip s) as [|a r]; simpl; now rewrite Hc.
Qed.

Lemma strip_idem (s : string) : strip (strip s) = strip s.
Proof.
  unfold strip. now rewrite lstrip_rstrip, rstrip_idem, lstrip_idem.
Qed.

Lemma lower_char_space (c : ascii) : is_space (lower_char c) = is_space c.
Proof.
  destruct c as [[] [] [] [] [] [] [] []]; reflexivity.
Qed.

Lemma lower_char_idem (c : ascii) : lower_char (lower_char c) = lower_char c.
Proof.
  destruct c as [[] [] [] [] [] [] [] []]; reflexivity.
Qed.

Lemma lower_idem (s : string) : lower (lower s) = lower s.
Proof.
  induction s as [|c s IH]; [reflexivity|].
  simpl. now rewrite lower_char_idem, IH.
Qed.

Lemma lower_lstrip (s : string) : lower (lstrip s) = lstrip (lower s).
Proof.
  induction s as [|c s IH]; [reflexivity|].
  simpl. rewrite lower_char_space. now destruct (is_space c).
Qed.

Lemma lower_rstrip (s : string) : lower (rstrip s) = rstrip (lower s).
Proof.
  induction s as [|c s IH]; [reflexivity|].
  simpl (lower (String c s)). rewrite !rstrip_cons, <- IH, lower_char_space.
  destruct (rstrip s) as [|a r]; simpl; [now destruct (is_space c) | reflexivity].
Qed.

Lemma lower_strip (s : string) : lower (strip s) = strip (lower s).
Proof. unfold strip. now rewrite lower_rstrip, lower_lstrip. Qed.

Lemma lower_sub_spaces (b : bool) (s : string) :
  lower (sub_spaces b s) = sub_spaces b (lower s).
Proof.
  revert b. induction s as [|c s IH]; intros b; [reflexivity|].
  simpl. rewrite lower_char_space.
  destruct (is_space c), b; simpl; now rewrite ?IH.
Qed.

End StringFacts.

(** ** The normal form of the trigram matcher *)

Section NormFacts.
Import Trigram.

Lemma sub_spaces_idem_both (s : string) :
  (∀ b, sub_spaces false (sub_spaces b s) = sub_spaces b s)
  ∧ sub_spaces true (sub_spaces true s) = sub_spaces true s.
Proof.
  induction s as [|c s [IHf IHt]]; [split; [intros []|]; reflexivity|].
  split.
  - intros b. simpl. destruct (is_space c) eqn:Hc.
    + destruct b; [apply IHf|].
      simpl. now rewrite IHt.
    + simpl. now rewrite Hc, IHf.
  - simpl. destruct (is_space c) eqn:Hc; [exact IHt|].
    simpl. now rewrite Hc, IHf.
Qed.

Lemma sub_spaces_idem (s : string) :
  sub_spaces false (sub_spaces false s) = sub_spaces false s.
Proof. apply sub_spaces_idem_both. Qed.

(** A string that [lstrip] leaves alone starts with no white space, and
    so does what [sub_spaces] makes of it. *)
Lemma lstrip_sub_spaces (b : bool) (s : string) :
  lstrip s = s → lstrip (sub_spaces b s) = sub_spaces b s.
Proof.
  destruct s as [|c s]; [reflexivity|].
  simpl. destruct (is_space c) eqn:Hc.
  - intros Hs. exfalso.
    assert (L : ∀ t, (String.length (lstrip t) <= String.length t)%nat).
    { induction t as [|a t IH]; simpl; [lia|]. destruct (is_space a); simpl; lia. }
    specialize (L s). rewrite Hs in L. simpl in L. lia.
  - intros _. simpl. now rewrite Hc.
Qed.

Lemma sub_spaces_empty (b : bool) (s : string) :
  sub_spaces b s = "" → rstrip s = "".
Proof.
  revert b. induction s as [|c s IH]; intros b; [reflexivity|].
  simpl. rewrite rstrip_cons. destruct (is_space c).
  - destruct b; [|discriminate]. intros Hs. now rewrite (IH true Hs).
  - discriminate.
Qed.

Lemma rstrip_fixed_cons (c : ascii) (s : string) :
  rstrip (String c s) = String c s →
  (s = "" ∧ is_space c = false) ∨ (s ≠ "" ∧ rstrip s = s).
Proof.
  rewrite rstrip_cons. destruct (rstrip s) as [|a r] eqn:Hr.
  - destruct (is_space c); [discriminate|]. intros [= <-]. now left.
  - intros [= <-]. right. split; [discriminate | reflexivity].
Qed.

Lemma rstrip_sub_spaces (s : string) : ∀ b,
  rstrip s = s → rstrip (sub_spaces b s) = sub_spaces b s.
Proof.
  induction s as [|c s IH]; intros b Hs; [reflexivity|].
  apply rstrip_fixed_cons in Hs as [[-> Hc]|[Hne Hs]].
  - simpl. rewrite Hc. rewrite rstrip_cons, rstrip_empty, Hc. reflexivity.
  - assert (Hx : ∀ b', sub_spaces b' s ≠ "").
    { intros b' Hx. apply sub_spaces_empty in Hx. congruence. }
    simpl. destruct (is_space c) eqn:Hc.
    + destruct b; [now apply IH|].
      rewrite rstrip_cons, (IH true Hs).
      destruct (sub_spaces true s) eqn:Hx'; [now destruct (Hx true)|reflexivity].
    + rewrite rstrip_cons, (IH false Hs).
      destruct (sub_spaces false s) eqn:Hx'; [now rewrite Hc | reflexivity].
Qed.

Lemma strip_fixed (s : string) : lstrip s = s → rstrip s = s → strip s = s.
Proof. intros Hl Hr. unfold strip. now rewrite Hl, Hr. Qed.

Lemma strip_lstrip (s : string) : lstrip (strip s) = strip s.
Proof. unfold strip. now rewrite lstrip_rstrip, lstrip_idem. Qed.

Lemma strip_rstrip (s : string) : rstrip (strip s) = strip s.
Proof. unfold strip. now rewrite rstrip_idem. Qed.

Lemma strip_sub_spaces_strip (s : string) :
  strip (sub_spaces false (strip s)) = sub_spaces false (strip s).
Proof.
  apply strip_fixed.
  - apply lstrip_sub_spaces, strip_lstrip.
  - apply rstrip_sub_spaces, strip_rstrip.
Qed.

(** X1. [norm] is idempotent and does not see the case of its argument,
    and the trigrams of a string are those of its normal form. *)
Theorem norm_idempotent (s : string) :
  norm (norm s) = norm s
  ∧ norm (lower s) = norm s
  ∧ trigram_set (norm s) = trigram_set s.
Proof.
  assert (Hn : norm (norm s) = norm s).
  { unfold norm. cbv zeta.
    rewrite lower_sub_spaces, lower_strip, lower_idem.
    now rewrite strip_sub_spaces_strip, sub_spaces_idem. }
  split; [exact Hn|]. split.
  - unfold norm. now rewrite lower_idem.
  - unfold trigram_set, padded. now rewrite Hn.
Qed.

End NormFacts.

(** ** More on the aggregation engine *)

Section AggMore.
Import Report Measures.
Context `{Builtins}.

Lemma agg_update_other k k' d f a a' :
  agg_update k d f a = Ok a' → k' ≠ k → agg_lookup k' a' = agg_lookup k' a.
Proof.
  revert a'. induction a as [|[k0 e] a IH]; intros a' Hu Hne; simpl in *.
  - apply bind_Ok in Hu as (e' & _ & [= <-]). simpl.
    destruct (String.eqb_spec k' k); [congruence | reflexivity].
  - destruct (String.eqb_spec k k0) as [->|Hk].
    + apply bind_Ok in Hu as (e' & _ & [= <-]). simpl.
      destruct (String.eqb_spec k' k0); [congruence | reflexivity].
    + apply bind_Ok in Hu as (a1 & Ha1 & [= <-]). simpl.
      destruct (String.eqb k' k0); [reflexivity | now apply IH].
Qed.

Lemma agg_lookup_None_keys k a : agg_lookup k a = None ↔ k ∉ a.*1.
Proof.
  induction a as [|[k0 e] a IH]; simpl.
  - split; [intros _; apply not_elem_of_nil | reflexivity].
  - rewrite not_elem_of_cons. destruct (String.eqb_spec k k0) as [->|Hk].
    + split; [discriminate | intros [? _]; congruence].
    + rewrite IH. tauto.
Qed.

(** The keys after [setdefault]: as before for a known species, with the
    new species at the end for an unknown one. *)
Lemma agg_update_keys k d f a a' :
  agg_update k d f a = Ok a' →
  a'.*1 = match agg_lookup k a with
          | Some _ => a.*1
          | None => a.*1 ++ [k]
          end.
Proof.
  revert a'. induction a as [|[k0 e] a IH]; intros a' Hu; simpl in Hu.
  - apply bind_Ok in Hu as (e' & _ & [= <-]). reflexivity.
  - simpl agg_lookup. destruct (String.eqb_spec k k0) as [->|Hk].
    + apply bind_Ok in Hu as (e' & _ & [= <-]). reflexivity.
    + apply bind_Ok in Hu as (a1 & Ha1 & [= <-]).
      rewrite !fmap_cons, (IH _ Ha1). now destruct (agg_lookup k a).
Qed.

Lemma agg_update_sum (g : entry → Z) (δ : Z) k d f a a' :
  (∀ e e', f e = Ok e' → g e' = g e + δ) →
  g d = 0 →
  agg_update k d f a = Ok a' →
  sum_over g a' = sum_over g a + δ.
Proof.
  intros Hf Hd. revert a'. induction a as [|[k0 e] a IH]; intros a' Hu; simpl in *.
  - apply bind_Ok in Hu as (e' & He' & [= <-]). simpl.
    rewrite (Hf _ _ He'). lia.
  - destruct (String.eqb k k0).
    + apply bind_Ok in Hu as (e' & He' & [= <-]). simpl.
      rewrite (Hf _ _ He'). lia.
    + apply bind_Ok in Hu as (a1 & Ha1 & [= <-]). simpl.
      rewrite (IH _ Ha1). lia.
Qed.

Lemma counted_spec kv c :
  safe_float (dict_get kv "confidence") = Some c → counted (PDict kv) = true.
Proof. intros Hc. unfold counted. rewrite Hc. apply bool_decide_eq_true_2. eauto. Qed.

Lemma fold_segment_sums thr d geo st r st' :
  fold_segment thr d geo st r = Ok st' →
  sum_over e_segments_total (agg st') =
    sum_over e_segments_total (agg st) + (if counted r then 1 else 0)
  ∧ sum_over e_confidence_n (agg st') =
    sum_over e_confidence_n (agg st) + (if counted r then 1 else 0)
  ∧ sum_over e_positive_segments (agg st') =
    sum_over e_positive_segments (agg st) + (if positive thr r then 1 else 0).
Proof.
  intros Hf.
  assert (Hskip : counted r = false → positive thr r = false → st' = st →
    sum_over e_segments_total (agg st') = sum_over e_segments_total (agg st) + (if counted r then 1 else 0)
    ∧ sum_over e_confidence_n (agg st') = sum_over e_confidence_n (agg st) + (if counted r then 1 else 0)
    ∧ sum_over e_positive_segments (agg st') =
      sum_over e_positive_segments (agg st) + (if positive thr r then 1 else 0)).
  { intros -> -> ->. lia. }
  destruct r as [| | | | | |kv];
    try (injection Hf as <-; now apply Hskip).
  destruct (safe_float (dict_get kv "confidence")) as [c|] eqn:Hc.
  - destruct (fold_segment_dict _ _ _ _ _ _ _ Hc Hf) as (k & sci & com & _ & Hu).
    rewrite (counted_spec _ _ Hc). unfold positive. rewrite Hc.
    pose proof (fun g δ Hg Hd => agg_update_sum g δ _ _ _ _ _ Hg Hd Hu) as Hsum.
    repeat split; apply Hsum; try reflexivity; intros e e' He.
    + now apply update_entry_counts in He as (-> & _ & _).
    + now apply update_entry_counts in He as (_ & -> & _).
    + now apply update_entry_counts in He as (_ & _ & ->).
  - unfold fold_segment in Hf. rewrite Hc in Hf. injection Hf as <-.
    apply Hskip; [|  |reflexivity].
    + unfold counted. rewrite Hc. apply bool_decide_eq_false_2. intros [? [=]].
    + unfold positive. now rewrite Hc.
Qed.

Lemma count_if_cons p r l :
  count_if p (r :: l) = (if p r then 1 else 0) + count_if p l.
Proof.
  unfold count_if. rewrite filter_cons.
  destruct (p r) eqn:Hp.
  - rewrite decide_True by reflexivity. simpl length. lia.
  - rewrite decide_False by discriminate. lia.
Qed.

Lemma count_if_app p l1 l2 : count_if p (l1 ++ l2) = count_if p l1 + count_if p l2.
Proof. unfold count_if. rewrite filter_app, length_app. lia. Qed.

Lemma fold_segments_sums thr d geo results : ∀ st st',
  fold_segments thr d geo st results = Ok st' →
  sum_over e_segments_total (agg st') =
    sum_over e_segments_total (agg st) + count_if counted results
  ∧ sum_over e_confidence_n (agg st') =
    sum_over e_confidence_n (agg st) + count_if counted results
  ∧ sum_over e_positive_segments (agg st') =
    sum_over e_positive_segments (agg st) + count_if (positive thr) results.
Proof.
  induction results as [|r results IH]; intros st st' Hf; simpl in Hf.
  - injection Hf as <-. unfold count_if. simpl. lia.
  - apply bind_Ok in Hf as (st1 & H1 & Hf).
    apply fold_segment_sums in H1 as (Ht & Hn & Hp).
    apply IH in Hf as (Ht' & Hn' & Hp').
    rewrite !count_if_cons. lia.
Qed.

Lemma fold_docs_sums thr docs : ∀ st st',
  fold_docs thr st docs = Ok st' →
  sum_over e_segments_total (agg st') =
    sum_over e_segments_total (agg st) + count_if counted (segments_of docs)
  ∧ sum_over e_confidence_n (agg st') =
    sum_over e_confidence_n (agg st) + count_if counted (segments_of docs)
  ∧ sum_over e_positive_segments (agg st') =
    sum_over e_positive_segments (agg st) + count_if (positive thr) (segments_of docs).
Proof.
  induction docs as [|d docs IH]; intros st st' Hf; simpl in Hf.
  - injection Hf as <-. unfold count_if, segments_of. simpl. lia.
  - apply bind_Ok in Hf as (st1 & H1 & Hf).
    apply fold_segments_sums in H1 as (Ht & Hn & Hp).
    apply IH in Hf as (Ht' & Hn' & Hp').
    unfold segments_of in *. rewrite fmap_cons. simpl concat.
    rewrite !count_if_app. lia.
Qed.

(** X2. No segment is lost and none is counted twice. *)
Theorem aggregate_conserves_segments thr cls_docs st
    (Hagg : aggregate thr cls_docs = Ok st) :
  sum_over e_segments_total (agg st) = count_if counted (segments_of cls_docs)
  ∧ sum_over e_confidence_n (agg st) = count_if counted (segments_of cls_docs)
  ∧ sum_over e_positive_segments (agg st)
    = count_if (positive thr) (segments_of cls_docs).
Proof.
  apply fold_docs_sums in Hagg as (Ht & Hn & Hp). simpl in *. lia.
Qed.

End AggMore.

(** ** What one segment does to the state, and what every fold keeps *)

Section FoldFacts.
Import Report Measures.
Context `{Builtins}.

(** The steps of [fold_segment] on a segment that counts. *)
Lemma fold_segment_inv thr d geo st kv st' c :
  safe_float (dict_get kv "confidence") = Some c →
  fold_segment thr d geo st (PDict kv) = Ok st' →
  ∃ k sci com,
    py_strip (py_or (dict_get kv "scientific_name") (PStr "")) = Ok sci
    ∧ k = (if nonempty sci then sci else strip (py_str (segment_label d kv)))
    ∧ agg_update k (fresh_entry sci com (strip (py_str (segment_label d kv))))
        (update_entry thr c geo) (agg st) = Ok (agg st')
    ∧ seen_audio_per_species st' =
        (if truthy (d_audio_id d)
         then seen_add k (py_str (d_audio_id d)) (seen_audio_per_species st)
         else seen_audio_per_species st).
Proof.
  intros Hc Hf. unfold fold_segment in Hf. rewrite Hc in Hf.
  apply bind_Ok in Hf as (k & Hk & Hf).
  apply bind_Ok in Hf as (sci & Hsci & Hf).
  apply bind_Ok in Hf as (com & _ & Hf).
  apply bind_Ok in Hf as (a & Ha & Hf).
  injection Hf as <-. simpl.
  unfold species_key_of in Hk. rewrite Hsci in Hk. injection Hk as <-.
  exists (if nonempty sci then sci else strip (py_str (segment_label d kv))), sci, com.
  auto.
Qed.

Lemma fold_segment_not_counted thr d geo st r st' :
  counted r = false → fold_segment thr d geo st r = Ok st' → st' = st.
Proof.
  intros Hr Hf. destruct r as [| | | | | |kv]; try (now injection Hf as <-).
  unfold counted in Hr. apply bool_decide_eq_false in Hr.
  unfold fold_segment in Hf.
  destruct (safe_float (dict_get kv "confidence")); [exfalso; eauto|].
  now injection Hf as <-.
Qed.

Lemma counted_inv r :
  counted r = true →
  ∃ kv c, r = PDict kv ∧ safe_float (dict_get kv "confidence") = Some c.
Proof.
  destruct r as [| | | | | |kv]; try discriminate.
  unfold counted. intros [c Hc]%bool_decide_eq_true. eauto.
Qed.

(** A relation between states that every step of the fold respects is
    respected by the whole aggregation. *)
Section Related.
Variable thr : float.
Variable Rel : agg_state → agg_state → Prop.
Hypothesis Rel_refl : ∀ st, Rel st st.
Hypothesis Rel_trans : ∀ st1 st2 st3, Rel st1 st2 → Rel st2 st3 → Rel st1 st3.
Hypothesis Rel_step : ∀ d geo st r st',
  fold_segment thr d geo st r = Ok st' → Rel st st'.

Lemma fold_segments_related d geo results : ∀ st st',
  fold_segments thr d geo st results = Ok st' → Rel st st'.
Proof.
  induction results as [|r results IH]; intros st st' Hf; simpl in Hf.
  - injection Hf as <-. apply Rel_refl.
  - apply bind_Ok in Hf as (st1 & H1 & Hf). eauto.
Qed.

Lemma fold_docs_related docs : ∀ st st',
  fold_docs thr st docs = Ok st' → Rel st st'.
Proof.
  induction docs as [|d docs IH]; intros st st' Hf; simpl in Hf.
  - injection Hf as <-. apply Rel_refl.
  - apply bind_Ok in Hf as (st1 & H1 & Hf).
    apply fold_segments_related in H1. eauto.
Qed.

End Related.

(** *** The species met stay, in their order, with their names *)



Lemma update_entry_grows thr c geo e e' :
  update_entry thr c geo e = Ok e' → grows e e'.
Proof.
  unfold update_entry, grows. intros Hu.
  destruct (is_none (e_sample_lat e)) eqn:Hn.
  - apply bind_Ok in Hu as (la & _ & Hu). apply bind_Ok in Hu as (lo & _ & Hu).
    injection Hu as <-. simpl.
    refine (conj _ (conj _ (conj _ (conj _ (conj _ _)))));
      try reflexivity; try lia; try discriminate.
    destruct (f_ge c thr); lia.
  - injection Hu as <-. simpl.
    refine (conj _ (conj _ (conj _ (conj _ (conj _ _)))));
      try reflexivity; try lia.
    + destruct (f_ge c thr); lia.
    + intros _. split; reflexivity.
Qed.





(** *** Invariants of the state *)

Lemma aggregate_invariant thr (Inv : agg_state → Prop) :
  Inv agg_empty →
  (∀ d geo st r st', Inv st → fold_segment thr d geo st r = Ok st' → Inv st') →
  ∀ cls_docs st, aggregate thr cls_docs = Ok st → Inv st.
Proof.
  intros H0 Hstep cls_docs st Ha.
  assert (R : Inv agg_empty → Inv st); [|now apply R].
  apply (fold_docs_related thr (fun s s' => Inv s → Inv s')) with (docs := cls_docs);
    [tauto | tauto | | exact Ha].
  intros d geo s r s' Hf Hs. now apply (Hstep d geo s r s').
Qed.

Lemma agg_update_Forall_pairs (P : string * entry → Prop) k d f a a' :
  (∀ e e', P (k, e) → f e = Ok e' → P (k, e')) →
  (∀ e', f d = Ok e' → P (k, e')) →
  Forall P a →
  agg_update k d f a = Ok a' →
  Forall P a'.
Proof.
  intros Hf Hd. revert a'.
  induction a as [|[k0 e] a IH]; intros a' Ha Hu; simpl in Hu.
  - apply bind_Ok in Hu as (e' & He' & [= <-]). repeat constructor. eauto.
  - apply Forall_cons in Ha as [He Ha].
    destruct (String.eqb_spec k k0) as [->|Hk].
    + apply bind_Ok in Hu as (e' & He' & [= <-]). constructor; eauto.
    + apply bind_Ok in Hu as (a1 & Ha1 & [= <-]). constructor; eauto.
Qed.

Lemma update_entry_names thr c geo e e' :
  update_entry thr c geo e = Ok e' →
  e_scientific_name e' = e_scientific_name e.
Proof. intros Hu. now apply update_entry_grows in Hu as (-> & _). Qed.

Lemma keys_ok_step thr d geo st r st' :
  keys_ok st → fold_segment thr d geo st r = Ok st' → keys_ok st'.
Proof.
  intros [Hnd Hall] Hf. destruct (counted r) eqn:Hr.
  - apply counted_inv in Hr as (kv & c & -> & Hc).
    destruct (fold_segment_inv _ _ _ _ _ _ _ Hc Hf)
      as (k & sci & com & Hsci & Hk & Hu & _).
    assert (Hstrip : strip k = k).
    { subst k. destruct (nonempty sci); [|apply strip_idem].
      destruct (py_or _ _); try discriminate.
      injection Hsci as <-. apply strip_idem. }
    split.
    + rewrite (agg_update_keys _ _ _ _ _ Hu).
      destruct (agg_lookup k (agg st)) eqn:Hl; [exact Hnd|].
      apply NoDup_app. split; [exact Hnd|]. split; [|apply NoDup_singleton].
      intros x Hx ->%list_elem_of_singleton.
      now apply agg_lookup_None_keys in Hl.
    + eapply (agg_update_Forall_pairs key_ok); [| |exact Hall|exact Hu].
      * intros e e' [Hs He] Hupd. split; [exact Hs|].
        simpl in *. now rewrite (update_entry_names _ _ _ _ _ Hupd).
      * intros e' Hupd. split; [exact Hstrip|]. simpl.
        rewrite (update_entry_names _ _ _ _ _ Hupd). simpl.
        subst k. unfold nonempty.
        destruct (String.eqb_spec sci ""); simpl; [now left | now right].
  - now apply fold_segment_not_counted in Hf as ->.
Qed.

Lemma aggregate_keys_ok thr cls_docs st :
  aggregate thr cls_docs = Ok st → keys_ok st.
Proof.
  apply (aggregate_invariant thr keys_ok).
  - split; constructor.
  - intros d geo s r s'. apply keys_ok_step.
Qed.

Lemma audio_of_seen_add k x st k' :
  default ∅ (seen_add k x (seen_audio_per_species st) !! k') =
    if decide (k' = k) then audio_of st k ∪ {[x]} else audio_of st k'.
Proof.
  unfold seen_add, audio_of. destruct (decide (k' = k)) as [->|Hne].
  - now rewrite lookup_insert_eq.
  - now rewrite lookup_insert_ne by congruence.
Qed.

Lemma audio_ok_step thr d geo st r st' :
  audio_ok st → fold_segment thr d geo st r = Ok st' → audio_ok st'.
Proof.
  intros Hok Hf. destruct (counted r) eqn:Hr.
  - apply counted_inv in Hr as (kv & c & -> & Hc).
    destruct (fold_segment_inv _ _ _ _ _ _ _ Hc Hf)
      as (k & sci & com & _ & _ & Hu & Hseen).
    intros k'. specialize (Hok k').
    unfold audio_of, total_of in *. rewrite Hseen.
    destruct (decide (k' = k)) as [->|Hne].
    + apply agg_update_lookup in Hu as (e' & He' & ->).
      apply update_entry_counts in He' as (Ht & _). simpl. rewrite Ht.
      assert (Hold : from_option e_segments_total 0 (agg_lookup k (agg st))
                     = e_segments_total
                         (default (fresh_entry sci com
                                     (strip (py_str (segment_label d kv))))
                            (agg_lookup k (agg st))))
        by (destruct (agg_lookup k (agg st)); reflexivity).
      rewrite <- Hold.
      destruct (truthy (d_audio_id d)); [|lia].
      pose proof (audio_of_seen_add k (py_str (d_audio_id d)) st k) as Ha.
      unfold audio_of in Ha. rewrite Ha, decide_True by reflexivity.
      pose proof (size_union_alt (default ∅ (seen_audio_per_species st !! k))
                    ({[py_str (d_audio_id d)]} : gset string)) as Hsz.
      assert (Hsub : ({[py_str (d_audio_id d)]} : gset string)
                       ∖ default ∅ (seen_audio_per_species st !! k)
                     ⊆ {[py_str (d_audio_id d)]}) by apply subseteq_difference_l, reflexivity.
      apply subseteq_size in Hsub. rewrite size_singleton in Hsub. lia.
    + rewrite (agg_update_other _ _ _ _ _ _ Hu Hne).
      destruct (truthy (d_audio_id d)); [|exact Hok].
      pose proof (audio_of_seen_add k (py_str (d_audio_id d)) st k') as Ha.
      unfold audio_of in Ha. rewrite Ha, decide_False by exact Hne. exact Hok.
  - now apply fold_segment_not_counted in Hf as ->.
Qed.

Lemma aggregate_audio_ok thr cls_docs st :
  aggregate thr cls_docs = Ok st → audio_ok st.
Proof.
  apply (aggregate_invariant thr audio_ok).
  - intros k. unfold audio_of, total_of. simpl. rewrite lookup_empty.
    now vm_compute.
  - intros d geo s r s'. apply audio_ok_step.
Qed.

End FoldFacts.

(** ** The rows of the report *)

Section RowFacts.
Import Report Measures.
Context `{Builtins}.
Variable count_documents : string → Z.

Lemma build_row_spec seen k e r :
  build_row count_documents seen k e = Ok (Some r) → row_of seen k e r.
Proof.
  unfold build_row, row_of. intros Hb.
  destruct (Z.leb_spec (e_positive_segments e) 0) as [Hle|Hgt]; [discriminate|].
  apply bind_Ok in Hb as (avg & _ & Hb).
  injection Hb as <-. simpl. auto.
Qed.

Lemma build_rows_spec seen a : ∀ rows,
  build_rows count_documents seen a = Ok rows →
  ∃ a', a' `sublist_of` a
        ∧ Forall2 (fun r ke => row_of seen ke.1 ke.2 r) rows a'.
Proof.
  induction a as [|[k e] a IH]; intros rows Hb; simpl in Hb.
  - injection Hb as <-. exists []. split; constructor.
  - apply bind_Ok in Hb as (o & Ho & Hb).
    apply bind_Ok in Hb as (rest & Hrest & Hb).
    injection Hb as <-.
    destruct (IH _ Hrest) as (a' & Hsub & Hall).
    destruct o as [r|].
    + exists ((k, e) :: a'). split; [now constructor|].
      constructor; [|exact Hall]. now apply build_row_spec in Ho.
    + exists a'. split; [now constructor | exact Hall].
Qed.

Lemma filter_allowed_sublist query allowed rows : ∀ rows',
  filter_allowed query allowed rows = Ok rows' → rows' `sublist_of` rows.
Proof.
  induction rows as [|r rows IH]; intros rows' Hf; simpl in Hf.
  - injection Hf as <-. constructor.
  - apply bind_Ok in Hf as (b & _ & Hf).
    apply bind_Ok in Hf as (rest & Hrest & Hf).
    injection Hf as <-.
    destruct b; constructor; eauto.
Qed.

Lemma species_filter_sublist species rows rows' :
  species_filter species rows = Ok rows' → rows' `sublist_of` rows.
Proof.
  unfold species_filter. intros Hf.
  destruct species as [query|]; [|now injection Hf as <-].
  destruct (nonempty query); [|now injection Hf as <-].
  apply bind_Ok in Hf as (allowed & _ & Hf).
  now apply filter_allowed_sublist in Hf.
Qed.

(** The report is, up to the order, a selection of the cleaned rows of
    the species with a positive segment. *)
Lemma report_rows thr species top_n cls_docs rows :
  report count_documents thr species top_n cls_docs = Ok rows →
  ∃ st a' rows0 rows1,
    aggregate thr cls_docs = Ok st
    ∧ a' `sublist_of` agg st
    ∧ Forall2 (fun r ke => row_of (seen_audio_per_species st) ke.1 ke.2 r) rows0 a'
    ∧ rows1 `sublist_of` (clean_row <$> rows0)
    ∧ ∃ rows2, rows2 ≡ₚ rows1 ∧ rows `sublist_of` rows2.
Proof.
  unfold report. intros Hrep.
  apply bind_Ok in Hrep as (st & Hst & Hrep).
  apply bind_Ok in Hrep as (rows0 & Hb & Hrep).
  apply bind_Ok in Hrep as (rows1 & Hf & Hrep).
  injection Hrep as <-.
  destruct (build_rows_spec _ _ _ Hb) as (a' & Hsub & Hall).
  exists st, a', rows0, rows1. repeat split; try assumption.
  - now apply species_filter_sublist in Hf.
  - exists (sort_rows rows1). split; [apply sort_rows_perm|].
    unfold sort_and_truncate. rewrite top_rows_spec.
    destruct (0 <? top_n); [apply sublist_take | reflexivity].
Qed.

Lemma Forall_sublist_perm {A} (P : A → Prop) (l0 l1 l2 l3 : list A) :
  Forall P l0 → l1 `sublist_of` l0 → l2 ≡ₚ l1 → l3 `sublist_of` l2 → Forall P l3.
Proof.
  intros H0 S1 P2 S3. rewrite Forall_forall in *. intros x Hx.
  apply H0. eapply elem_of_sublist; [|exact S1].
  rewrite <- P2. eapply elem_of_sublist; eauto.
Qed.

(** X4. The counters of a row: as many positive segments as segments at
    most, and as many recordings as segments at most. *)
Theorem report_row_counters thr species top_n cls_docs rows
    (Hrep : report count_documents thr species top_n cls_docs = Ok rows) :
  Forall (fun r => 1 ≤ r_positive_segments r ≤ r_segments_total r
                   ∧ 0 ≤ r_audio_files_count r ≤ r_segments_total r) rows.
Proof.
  destruct (report_rows _ _ _ _ _ Hrep)
    as (st & a' & rows0 & rows1 & Hst & Hsub & Hall & H1 & rows2 & H2 & H3).
  pose proof (aggregate_ok _ _ _ Hst) as Hok.
  pose proof (aggregate_audio_ok _ _ _ Hst) as Haud.
  pose proof (aggregate_keys_ok _ _ _ Hst) as [Hnd _].
  eapply Forall_sublist_perm; [|exact H1|exact H2|exact H3].
  apply Forall_fmap.
  assert (Ha' : Forall (fun ke => entry_ok ke.2
                                  ∧ total_of st ke.1 = e_segments_total ke.2) a').
  { rewrite Forall_forall. intros [k e] Hin.
    assert (Hin' : (k, e) ∈ agg st) by (eapply elem_of_sublist; eauto).
    split.
    - unfold agg_ok in Hok. rewrite Forall_forall in Hok. exact (Hok _ Hin').
    - unfold total_of. simpl.
      assert (Hl : agg_lookup k (agg st) = Some e).
      { clear -Hin' Hnd. induction (agg st) as [|[k0 e0] a IH]; [inversion Hin'|].
        apply NoDup_cons in Hnd as [Hk0 Hnd]. simpl in *.
        apply elem_of_cons in Hin' as [[= -> ->]|Hin'].
        - now rewrite String.eqb_refl.
        - destruct (String.eqb_spec k k0) as [->|_]; [|now apply IH].
          exfalso. apply Hk0. apply (list_elem_of_fmap_2 fst _ (k0, e)). exact Hin'. }
      now rewrite Hl. }
  clear -Hall Ha' Haud.
  induction Hall as [|r [k e] rows0 a' Hr Hall IH]; [constructor|].
  apply Forall_cons in Ha' as [[Hok Htot] Ha'].
  constructor; [|now apply IH].
  destruct Hr as (_ & Hp & Ht & Hc & Hpos). simpl in *.
  unfold entry_ok in Hok. specialize (Haud k).
  unfold audio_of in Haud. rewrite Htot in Haud. lia.
Qed.

(** X5. One row per species: no two rows of the report have the same
    scientific name. *)
Theorem report_one_row_per_species thr species top_n cls_docs rows
    (Hrep : report count_documents thr species top_n cls_docs = Ok rows) :
  NoDup (r_scientific_name <$> rows).
Proof.
  destruct (report_rows _ _ _ _ _ Hrep)
    as (st & a' & rows0 & rows1 & Hst & Hsub & Hall & H1 & rows2 & H2 & H3).
  pose proof (aggregate_keys_ok _ _ _ Hst) as [Hnd Hkeys].
  assert (Hnames : r_scientific_name <$> (clean_row <$> rows0) = a'.*1).
  { assert (Ha' : Forall key_ok a').
    { rewrite Forall_forall in *. intros ke Hin. apply Hkeys.
      eapply elem_of_sublist; eauto. }
    clear -Hall Ha'.
    induction Hall as [|r [k e] rows0 a' Hr Hall IH]; [reflexivity|].
    apply Forall_cons in Ha' as [[Hs He] Ha'].
    rewrite !fmap_cons, (IH Ha'). f_equal.
    destruct Hr as (Hn & _). simpl in *. rewrite Hn.
    unfold nonempty. destruct He as [-> | ->]; simpl; [exact Hs|].
    destruct (String.eqb k ""); exact Hs. }
  assert (N0 : NoDup (r_scientific_name <$> (clean_row <$> rows0))).
  { rewrite Hnames. eapply sublist_NoDup; [exact Hnd|]. now apply fmap_sublist. }
  assert (N1 : NoDup (r_scientific_name <$> rows1)).
  { eapply sublist_NoDup; [exact N0|]. now apply fmap_sublist. }
  assert (N2 : NoDup (r_scientific_name <$> rows2)) by now rewrite H2.
  eapply sublist_NoDup; [exact N2|]. now apply fmap_sublist.
Qed.

End RowFacts.

(** ** The quotient of two set sizes is a double *)

Section NoOverflow.

Lemma fexp_eq (x : Z) : fexp prec emax x = Z.max (x - 53) (-1074).
Proof. reflexivity. Qed.

Lemma digits2_pos_size (p : positive) : digits2_pos p = Pos.size p.
Proof. induction p as [p IH|p IH|]; simpl; now rewrite ?IH. Qed.

Lemma Zdigits2_log2 (p : positive) : Zdigits2 (Z.pos p) = Z.log2 (Z.pos p) + 1.
Proof.
  unfold Zdigits2. rewrite digits2_pos_size.
  destruct p; simpl; lia.
Qed.

Lemma Zdigits2_nonneg (m : Z) : 0 ≤ Zdigits2 m.
Proof. destruct m; simpl; lia. Qed.

Lemma Zdigits2_mono_pos (p q : positive) :
  (p <= q)%positive → Zdigits2 (Z.pos p) ≤ Zdigits2 (Z.pos q).
Proof.
  intros Hpq. rewrite !Zdigits2_log2.
  apply Z.add_le_mono_r, Z.log2_le_mono. lia.
Qed.

Lemma Zdigits2_le_pow2 (m s : Z) : 0 ≤ s → 0 ≤ m ≤ 2 ^ s → Zdigits2 m ≤ s + 1.
Proof.
  intros Hs [H0 Hm]. destruct m as [|p|p]; [simpl; lia| |lia].
  rewrite Zdigits2_log2.
  apply Z.add_le_mono_r. rewrite <- (Z.log2_pow2 s Hs). now apply Z.log2_le_mono.
Qed.

Lemma Zdigits2_succ (m : Z) : Zdigits2 (m + 1) ≤ Zdigits2 m + 1.
Proof.
  destruct m as [|p|p].
  - simpl. lia.
  - replace (Z.pos p + 1) with (Z.succ (Z.pos p)) by lia.
    assert (Hs : Z.succ (Z.pos p) = Z.pos (Pos.succ p)) by lia.
    rewrite Hs, !Zdigits2_log2, <- Hs.
    pose proof (Z.log2_succ_le (Z.pos p)). lia.
  - destruct (Pos.eq_dec p 1%positive) as [->|Hp]; [simpl; lia|].
    replace (Z.neg p + 1) with (Z.neg (Pos.pred p)) by lia.
    change (Zdigits2 (Z.neg (Pos.pred p))) with (Zdigits2 (Z.pos (Pos.pred p))).
    change (Zdigits2 (Z.neg p)) with (Zdigits2 (Z.pos p)).
    pose proof (Zdigits2_mono_pos (Pos.pred p) p ltac:(lia)). lia.
Qed.

Lemma shr_1_digits (s : shr_record) :
  Zdigits2 (shr_m (shr_1 s)) = Z.max 0 (Zdigits2 (shr_m s) - 1).
Proof.
  destruct s as [m r t]. simpl.
  destruct m as [|[p|p|]|[p|p|]]; simpl; lia.
Qed.

Lemma iter_shr_1_digits (p : positive) : ∀ s,
  Zdigits2 (shr_m (SpecFloat.iter_pos shr_1 p s)) = Z.max 0 (Zdigits2 (shr_m s) - Z.pos p).
Proof.
  induction p as [p IH|p IH|]; intros s; simpl.
  - rewrite !IH, shr_1_digits. lia.
  - rewrite !IH. lia.
  - apply shr_1_digits.
Qed.

Lemma shr_record_of_loc_m (m : Z) (l : location) :
  shr_m (shr_record_of_loc m l) = m.
Proof. destruct l as [|[]]; reflexivity. Qed.

(** What one truncation step of the rounding does to the exponent and
    to the number of digits. *)
Lemma shr_fexp_bounds (m e : Z) (l : location) (mrs : shr_record) (e1 : Z) :
  shr_fexp prec emax m e l = (mrs, e1) →
  e1 ≤ Z.max e (fexp prec emax (Zdigits2 m + e))
  ∧ Zdigits2 (shr_m mrs) + e1
    ≤ Z.max (Zdigits2 m + e) (fexp prec emax (Zdigits2 m + e)).
Proof.
  unfold shr_fexp, shr.
  destruct (fexp prec emax (Zdigits2 m + e) - e) as [|p|p] eqn:Hn;
    intros [= <- <-].
  - rewrite shr_record_of_loc_m. lia.
  - rewrite iter_shr_1_digits, shr_record_of_loc_m. lia.
  - rewrite shr_record_of_loc_m. lia.
Qed.

Lemma round_nearest_even_digits (m : Z) (l : location) :
  Zdigits2 (round_nearest_even m l) ≤ Zdigits2 m + 1.
Proof.
  pose proof (Zdigits2_succ m).
  destruct l as [|[]]; simpl; try lia.
  destruct (Z.even m); lia.
Qed.

(** A value below 2 rounds to a finite double or to a zero. *)
Lemma binary_round_aux_small (sx : bool) (mx ex : Z) (lx : location) :
  ex ≤ 0 → Zdigits2 mx + ex ≤ 1 →
  ∀ s, binary_round_aux prec emax sx mx ex lx ≠ S754_infinity s.
Proof.
  intros Hex Hdm s. unfold binary_round_aux.
  destruct (shr_fexp prec emax mx ex lx) as [mrs1 e1] eqn:E1.
  apply shr_fexp_bounds in E1 as [He1 Hd1].
  rewrite fexp_eq in He1, Hd1.
  destruct (shr_fexp prec emax
              (round_nearest_even (shr_m mrs1) (loc_of_shr_record mrs1)) e1 loc_Exact)
    as [mrs2 e2] eqn:E2.
  apply shr_fexp_bounds in E2 as [He2 _].
  rewrite fexp_eq in He2.
  pose proof (round_nearest_even_digits (shr_m mrs1) (loc_of_shr_record mrs1)).
  destruct (shr_m mrs2); try discriminate.
  destruct (Z.leb_spec e2 (emax - prec)) as [_|Hgt]; [discriminate|].
  unfold emax, prec in Hgt. lia.
Qed.

Lemma div_quotient_bounds (n d s : Z) :
  0 < n ≤ d → 0 ≤ s → 0 ≤ (n * 2 ^ s) / d ≤ 2 ^ s.
Proof.
  intros [Hn Hd] Hs.
  assert (0 < 2 ^ s) by (apply Z.pow_pos_nonneg; lia).
  split; [apply Z.div_pos; nia|].
  apply Z.div_le_upper_bound; nia.
Qed.

(** [n / d] for [0 <= n <= d] and [d > 0] raises nothing. *)
Lemma int_truediv_le (n d : Z) :
  0 ≤ n ≤ d → 0 < d → ∃ f, int_truediv n d = Ok f.
Proof.
  intros [Hn Hnd] Hd. unfold int_truediv.
  destruct (Z.eqb_spec d 0) as [->|_]; [lia|].
  destruct d as [|pd|pd]; try lia.
  destruct n as [|pn|pn]; try lia; [simpl; eauto|].
  assert (Hni : ∀ s, f_div (Z2SF (Z.pos pn)) (Z2SF (Z.pos pd)) ≠ S754_infinity s).
  { intros s. unfold f_div, Z2SF, SFdiv, SFdiv_core_binary.
    rewrite !Z.add_0_r, Z.sub_0_r.
    pose proof (Zdigits2_mono_pos pn pd ltac:(lia)) as Hdig.
    pose proof (Zdigits2_nonneg (Z.pos pn)).
    set (e' := Z.min (fexp prec emax (Zdigits2 (Z.pos pn) - Zdigits2 (Z.pos pd))) 0).
    assert (He' : -1074 ≤ e' ≤ -53) by (subst e'; rewrite fexp_eq; lia).
    destruct (0 - e') as [|ps|ps] eqn:Hs; try lia.
    change IntDef.Z.div_eucl with Z.div_eucl.
    pose proof (Z.div_eucl_eq (Z.shiftl (Z.pos pn) (Z.pos ps)) (Z.pos pd) ltac:(lia)) as Heq.
    assert (Hq : fst (Z.div_eucl (Z.shiftl (Z.pos pn) (Z.pos ps)) (Z.pos pd))
                 = Z.shiftl (Z.pos pn) (Z.pos ps) / Z.pos pd) by reflexivity.
    destruct (Z.div_eucl (Z.shiftl (Z.pos pn) (Z.pos ps)) (Z.pos pd)) as [q r].
    simpl in Hq. rewrite Z.shiftl_mul_pow2 in Hq by lia.
    pose proof (div_quotient_bounds (Z.pos pn) (Z.pos pd) (Z.pos ps)
                  ltac:(lia) ltac:(lia)) as Hb.
    rewrite <- Hq in Hb.
    apply binary_round_aux_small; [lia|].
    pose proof (Zdigits2_le_pow2 q (Z.pos ps) ltac:(lia) Hb). lia. }
  destruct (f_div (Z2SF (Z.pos pn)) (Z2SF (Z.pos pd))) as [s|s| |s m e] eqn:Hf; eauto.
  now destruct (Hni s).
Qed.

End NoOverflow.

Section TrigramMore.
Import Trigram.

Lemma jaccard_returns (A B : gset string) : ∃ f, jaccard A B = Ok f.
Proof.
  unfold jaccard. destruct (decide (A = ∅ ∨ B = ∅)) as [_|Hne]; [eauto|].
  assert (HA : A ≠ ∅) by tauto.
  apply int_truediv_le.
  - split; [lia|]. apply inj_le, subseteq_size.
    etransitivity; [apply intersection_subseteq_l | apply union_subseteq_l].
  - assert (size (A ∪ B) ≠ 0%nat); [|lia].
    intros Hz. apply size_empty_inv, leibniz_equiv in Hz.
    now apply empty_union_L in Hz as [? _].
Qed.

(** X6. The similarity of two strings is always a number: the division
    is never by zero and never overflows. *)
Theorem trigram_similarity_returns (a b : string) :
  ∃ f, trigram_similarity a b = Ok f.
Proof. apply jaccard_returns. Qed.

End TrigramMore.

(** ** The fuzzy filter *)

Section FilterFacts.
Import Trigram Report.

Lemma mapM_Ok {A B} (f : A → result B) (l : list A) (k : list B) :
  mapM f l = Ok k ↔ Forall2 (fun x y => f x = Ok y) l k.
Proof.
  revert k. induction l as [|x l IH]; intros k; simpl.
  - split; [intros [= <-]; constructor | intros Hk; now inversion Hk].
  - split.
    + intros Hm. apply bind_Ok in Hm as (y & Hy & Hm).
      apply bind_Ok in Hm as (k' & Hk' & [= <-]).
      constructor; [exact Hy | now apply IH].
    + intros Hk. inversion Hk as [|? y ? k' Hy Hk']; subst.
      rewrite Hy. simpl. apply IH in Hk'. rewrite Hk'. reflexivity.
Qed.

Lemma mapM_returns {A B} (f : A → result B) (l : list A) :
  (∀ x, ∃ y, f x = Ok y) → ∃ k, mapM f l = Ok k.
Proof.
  intros Hf. induction l as [|x l [k Hk]]; simpl; [eauto|].
  destruct (Hf x) as [y ->]. rewrite Hk. simpl. eauto.
Qed.

Lemma fuzzy_match_scored (query : string) (candidates : list string) :
  ∃ scored,
    mapM (fun c => s ← trigram_similarity query c; mret (c, s)) candidates
    = Ok scored.
Proof.
  apply mapM_returns. intros c. unfold trigram_similarity.
  destruct (jaccard_returns (trigram_set query) (trigram_set c)) as [s ->].
  simpl. eauto.
Qed.

Lemma fuzzy_match_returns (query : string) (candidates : list string)
    (min_score : float) :
  ∃ S, fuzzy_match query candidates min_score = Ok S.
Proof.
  unfold fuzzy_match.
  destruct (fuzzy_match_scored query candidates) as [scored ->].
  simpl. eauto.
Qed.

Lemma fuzzy_match_elem (query : string) (candidates : list string)
    (min_score : float) (S : gset string) (c : string) :
  fuzzy_match query candidates min_score = Ok S →
  c ∈ S ↔
    c ∈ candidates
    ∧ ∃ s, trigram_similarity query c = Ok s ∧ f_ge s min_score = true.
Proof.
  unfold fuzzy_match. intros Hf.
  apply bind_Ok in Hf as (scored & Hs & [= <-]).
  apply mapM_Ok in Hs.
  rewrite elem_of_list_to_set, list_elem_of_fmap.
  split.
  - intros ([c' s] & -> & Hin). simpl.
    apply list_elem_of_filter in Hin as [Hge Hin]. simpl in Hge.
    rewrite (sort_desc_perm _ scored) in Hin.
    clear -Hs Hin Hge. induction Hs as [|x y l k Hxy Hs IH]; [inversion Hin|].
    apply bind_Ok in Hxy as (s' & Hs' & [= <-]).
    apply elem_of_cons in Hin as [[= -> ->]|Hin].
    + split; [left | eauto].
    + destruct (IH Hin) as [Hc Hex]. split; [now right | exact Hex].
  - intros [Hin (s & Hsim & Hge)].
    exists (c, s). split; [reflexivity|].
    apply list_elem_of_filter. split; [exact Hge|].
    rewrite (sort_desc_perm _ scored).
    clear -Hs Hin Hsim. induction Hs as [|x y l k Hxy Hs IH]; [inversion Hin|].
    apply elem_of_cons in Hin as [->|Hin].
    + rewrite Hsim in Hxy. injection Hxy as <-. left.
    + right. now apply IH.
Qed.

(** X7. [fuzzy_match] raises nothing and returns the candidates whose
    similarity to the query reaches [min_score], whatever their order
    and however often they occur: the sort before the set is built has
    no effect on the result. *)
Theorem fuzzy_match_spec (query : string) (candidates : list string)
    (min_score : float) :
  ∃ S, fuzzy_match query candidates min_score = Ok S
       ∧ ∀ c, c ∈ S ↔
              c ∈ candidates
              ∧ ∃ s, trigram_similarity query c = Ok s ∧ f_ge s min_score = true.
Proof.
  destruct (fuzzy_match_returns query candidates min_score) as [S HS].
  exists S. split; [exact HS|].
  intros c. now apply fuzzy_match_elem.
Qed.

Lemma is_allowed_returns query allowed r : ∃ b, is_allowed query allowed r = Ok b.
Proof.
  unfold is_allowed. repeat (destruct (decide _); [eauto|]).
  unfold trigram_similarity.
  destruct (jaccard_returns (trigram_set query) (trigram_set (r_scientific_name r)))
    as [s1 ->].
  simpl. destruct (f_ge s1 f_0_35); [eauto|].
  destruct (jaccard_returns (trigram_set query) (trigram_set (r_common_name r)))
    as [s2 ->].
  simpl. eauto.
Qed.

Lemma filter_allowed_returns query allowed rows :
  ∃ rows', filter_allowed query allowed rows = Ok rows'.
Proof.
  induction rows as [|r rows [rows' IH]]; simpl; [eauto|].
  destruct (is_allowed_returns query allowed r) as [b ->]. rewrite IH.
  simpl. eauto.
Qed.

Lemma filter_allowed_keeps query allowed rows : ∀ rows' r,
  filter_allowed query allowed rows = Ok rows' →
  r ∈ rows → is_allowed query allowed r = Ok true → r ∈ rows'.
Proof.
  induction rows as [|r0 rows IH]; intros rows' r Hf Hin Hr; [inversion Hin|].
  simpl in Hf.
  apply bind_Ok in Hf as (b & Hb & Hf).
  apply bind_Ok in Hf as (rest & Hrest & Hf).
  injection Hf as <-.
  apply elem_of_cons in Hin as [->|Hin].
  - rewrite Hr in Hb. injection Hb as <-. left.
  - destruct b; [right|]; eauto.
Qed.

Lemma is_allowed_member query allowed r :
  r_scientific_name r ∈ allowed ∨ r_common_name r ∈ allowed ∨ r_label r ∈ allowed →
  is_allowed query allowed r = Ok true.
Proof.
  unfold is_allowed. intros Hm.
  repeat (destruct (decide _); [reflexivity|]). tauto.
Qed.

(** X8. The filter raises nothing, keeps the rows in their order, keeps all
    of them without a query, and never drops a row one of whose names is
    the query itself. *)
Theorem species_filter_spec (species : option string) (rows : list row) :
  ∃ rows', species_filter species rows = Ok rows'
    ∧ rows' `sublist_of` rows
    ∧ (species = None ∨ species = Some "" → rows' = rows)
    ∧ ∀ query r, species = Some query → r ∈ rows →
        r_scientific_name r = query ∨ r_common_name r = query ∨ r_label r = query →
        r ∈ rows'.
Proof.
  assert (Hret : ∃ rows', species_filter species rows = Ok rows').
  { unfold species_filter. destruct species as [query|]; [|eauto].
    destruct (nonempty query); [|eauto].
    destruct (fuzzy_match_returns query
                (flat_map (fun r => [r_scientific_name r; r_common_name r; r_label r]) rows)
                f_0_35) as [S ->].
    simpl. apply filter_allowed_returns. }
  destruct Hret as [rows' Hf]. exists rows'.
  split; [exact Hf|]. split; [now apply species_filter_sublist in Hf|]. split.
  - intros [->| ->]; simpl in Hf; now injection Hf as <-.
  - intros query r -> Hin Hname. unfold species_filter in Hf.
    destruct (nonempty query) eqn:Hq; [|now injection Hf as <-].
    destruct (fuzzy_match_returns query
                (flat_map (fun r => [r_scientific_name r; r_common_name r; r_label r]) rows)
                f_0_35) as [S HS].
    pose proof (fun c => fuzzy_match_elem _ _ _ _ c HS) as Hmem.
    rewrite HS in Hf. simpl in Hf.
    eapply filter_allowed_keeps; [exact Hf|exact Hin|].
    apply is_allowed_member.
    assert (Hqa : query ∈ S).
    { apply Hmem. split.
      - apply list_elem_of_In, in_flat_map. exists r.
        split; [now apply list_elem_of_In|].
        simpl. destruct Hname as [<-|[<-|<-]]; auto.
      - exists f_one. split; [|reflexivity].
        apply jaccard_self, trigram_set_nonempty. }
    destruct Hname as [->|[->| ->]]; auto.
Qed.

End FilterFacts.

Section TrigramExtremes.
Import Trigram Report Measures.

Lemma trigram_set_norm (a b : string) : norm a = norm b → trigram_set a = trigram_set b.
Proof. intros Hab. unfold trigram_set, padded. now rewrite Hab. Qed.

(** X9. Strings with one normal form, that is equal up to case, outer white
    space and the length of the inner white space, have similarity 1.0. *)
Theorem similarity_same_norm (a b : string) (Hab : norm a = norm b) :
  trigram_similarity a b = Ok f_one.
Proof.
  unfold trigram_similarity. rewrite (trigram_set_norm a b Hab).
  apply jaccard_self, trigram_set_nonempty.
Qed.

(** X10. Strings that share no trigram have similarity 0.0. *)
Theorem similarity_disjoint (a b : string)
    (Hab : trigram_set a ∩ trigram_set b = ∅) :
  trigram_similarity a b = Ok f_zero.
Proof.
  unfold trigram_similarity, jaccard.
  destruct (decide _) as [_|Hne]; [reflexivity|].
  rewrite Hab, size_empty. unfold int_truediv.
  destruct (Z.of_nat (size (trigram_set a ∪ trigram_set b))) as [|p|p] eqn:Hs.
  - exfalso. assert (Hz : size (trigram_set a ∪ trigram_set b) = 0%nat) by lia.
    apply size_empty_inv, leibniz_equiv in Hz.
    apply empty_union_L in Hz as [Ha _]. now apply (trigram_set_nonempty a).
  - reflexivity.
  - lia.
Qed.

End TrigramExtremes.

Section MaxFacts.
Import Report Measures.
Context `{Builtins}.

Lemma f_ge_refl (a : float) : is_nan a = false → f_ge a a = true.
Proof. intros Ha. apply f_ge_total; [exact Ha..|].
  unfold f_lt, SFltb, SFcompare.
  destruct a as [[]|[]| |[] m e]; try reflexivity; try discriminate;
    change IntDef.Z.compare with Z.compare;
    change (PosDef.Pos.compare_cont Eq) with Pos.compare;
    rewrite Z.compare_refl, Pos.compare_refl; reflexivity.
Qed.

Lemma f_ge_not_nan (a b : float) : f_ge a b = true → is_nan a = false ∧ is_nan b = false.
Proof.
  unfold f_ge, SFleb, SFcompare.
  destruct a as [[]|[]| |[] ? ?], b as [[]|[]| |[] ? ?]; simpl; intros; try discriminate; auto.
Qed.

Lemma update_entry_max thr c geo e e' :
  f_ge (e_max_confidence e) f_zero = true →
  update_entry thr c geo e = Ok e' →
  f_ge (e_max_confidence e') f_zero = true
  ∧ f_ge (e_max_confidence e') (e_max_confidence e) = true
  ∧ (is_nan c = false → f_ge (e_max_confidence e') c = true).
Proof.
  intros H0 Hu.
  assert (Hm : e_max_confidence e' =
               if f_gt c (e_max_confidence e) then c else e_max_confidence e).
  { unfold update_entry in Hu.
    destruct (is_none (e_sample_lat e));
      repeat (apply bind_Ok in Hu as (? & _ & Hu)); now injection Hu as <-. }
  rewrite Hm. destruct (f_ge_not_nan _ _ H0) as [Hn _].
  destruct (f_gt c (e_max_confidence e)) eqn:Hgt.
  - apply f_gt_ge in Hgt. destruct (f_ge_not_nan _ _ Hgt) as [Hc _].
    split; [now apply f_ge_trans with (e_max_confidence e)|].
    split; [exact Hgt | intros _; now apply f_ge_refl].
  - split; [exact H0|]. split; [now apply f_ge_refl|].
    intros Hc. now apply f_ge_total.
Qed.

(** X11. The maximal confidence of a species is never below 0.0 and never a
    NaN, and after a segment is folded in it is at least the confidence
    of that segment. *)
Theorem max_confidence_bounds thr :
  (∀ cls_docs st k e,
     aggregate thr cls_docs = Ok st → (k, e) ∈ agg st →
     f_ge (e_max_confidence e) f_zero = true
     ∧ is_nan (e_max_confidence e) = false)
  ∧ (∀ cls_docs st d geo kv st' c k,
       aggregate thr cls_docs = Ok st →
       safe_float (dict_get kv "confidence") = Some c →
       is_nan c = false →
       species_key_of d kv = Ok k →
       fold_segment thr d geo st (PDict kv) = Ok st' →
       ∃ e', agg_lookup k (agg st') = Some e'
             ∧ f_ge (e_max_confidence e') c = true).
Proof.
  assert (Hall : ∀ cls_docs st, aggregate thr cls_docs = Ok st →
            Forall (fun ke => f_ge (e_max_confidence ke.2) f_zero = true) (agg st)).
  { intros cls_docs st.
    apply (aggregate_preserves thr (fun e => f_ge (e_max_confidence e) f_zero = true)).
    - reflexivity.
    - intros c g e e' He Hu. now apply (update_entry_max _ _ _ _ _ He) in Hu. }
  split.
  - intros cls_docs st k e Ha Hin.
    specialize (Hall _ _ Ha). rewrite Forall_forall in Hall.
    specialize (Hall _ Hin). simpl in Hall.
    split; [exact Hall | now apply f_ge_not_nan in Hall].
  - intros cls_docs st d geo kv st' c k Ha Hc Hnan Hk Hf.
    destruct (fold_segment_dict _ _ _ _ _ _ _ Hc Hf) as (k' & sci & com & Hk' & Hu).
    rewrite Hk in Hk'. injection Hk' as <-.
    apply agg_update_lookup in Hu as (e' & He' & Hl).
    exists e'. split; [exact Hl|].
    apply update_entry_max in He' as (_ & _ & Hge); [now apply Hge|].
    destruct (agg_lookup k (agg st)) as [e0|] eqn:Hl0; simpl; [|reflexivity].
    specialize (Hall _ _ Ha). rewrite Forall_forall in Hall.
    assert (Hin : (k, e0) ∈ agg st).
    { clear -Hl0. induction (agg st) as [|[k0 e1] a IH]; [discriminate|].
      simpl in Hl0. destruct (String.eqb_spec k k0) as [->|_].
      - injection Hl0 as ->. left.
      - right. now apply IH. }
    exact (Hall _ Hin).
Qed.

End MaxFacts.

(** ** More on the classification run *)

Section ClassifyMore.
Import Report Classify Measures.
Context `{Builtins}.

Lemma find_one_None_ids col id : find_one col id = None ↔ id ∉ ids col.
Proof.
  unfold find_one, ids. induction (docs col) as [|x l IH]; simpl.
  - split; [intros _; apply not_elem_of_nil | reflexivity].
  - rewrite not_elem_of_cons.
    destruct (String.eqb_spec (c_audio_id x) id) as [<-|Hne].
    + split; [discriminate | intros [? _]; congruence].
    + rewrite IH. split; [intros ?; split; [congruence | assumption] | tauto].
Qed.

Lemma fmap_prefix {A B} (f : A → B) (l1 l2 : list A) :
  l1 `prefix_of` l2 → f <$> l1 `prefix_of` f <$> l2.
Proof. intros [k ->]. exists (f <$> k). apply fmap_app. Qed.

(** With every outcome stored the loop skips every recording, whatever
    the services are. *)
Lemma classify_all_stored bucket classify_url get_object post taxa_find_one
    dumps_log bson_encode audios col :
  Forall (fun a => audio_id a ∈ ids col) audios →
  classify_all bucket classify_url get_object post taxa_find_one
    dumps_log bson_encode col audios = (col, Ok tt).
Proof.
  induction audios as [|a audios IH]; intros Hall; simpl; [reflexivity|].
  apply Forall_cons in Hall as [Ha Hall].
  destruct (find_one col (audio_id a)) as [d|] eqn:Hf.
  - rewrite (classify_one_skips _ _ _ _ _ _ _ _ _ _ Hf). now apply IH.
  - apply find_one_None_ids in Hf. contradiction.
Qed.

Section Run.
Variable bucket classify_url : string.
Variable get_object : string → bool.
Variable post : audio → response.
Variable taxa_find_one : pyval → result pyval.
Variable dumps_log : pyval → option exn.
Variable bson_encode : cls_doc → option exn.

Local Abbreviation classify_one :=
  (classify_one bucket classify_url get_object post taxa_find_one
     dumps_log bson_encode).
Local Abbreviation classify_all :=
  (classify_all bucket classify_url get_object post taxa_find_one
     dumps_log bson_encode).
Local Abbreviation main :=
  (main bucket classify_url get_object post taxa_find_one dumps_log bson_encode).
Local Abbreviation raised_by := (raised_by taxa_find_one dumps_log bson_encode).

(** The four ways one recording goes. *)
Lemma classify_one_cases col a :
  (is_Some (find_one col (audio_id a)) ∧ classify_one col a = (col, Ok Skipped))
  ∨ (find_one col (audio_id a) = None ∧ get_object (object_name a) = false
     ∧ classify_one col a = (col, Ok DownloadFailed))
  ∨ (find_one col (audio_id a) = None ∧ get_object (object_name a) = true
     ∧ ∃ e, raised_by e ∧ classify_one col a = (col, Raise e))
  ∨ (find_one col (audio_id a) = None ∧ get_object (object_name a) = true
     ∧ ∃ d, c_audio_id d = audio_id a
            ∧ c_raw d = safe_json (resp_text (post a))
            ∧ dumps_log (log_doc bucket classify_url a (post a) (c_raw d)) = None
            ∧ bson_encode d = None
            ∧ classify_one col a =
                ({| unique_audio_id := unique_audio_id col; docs := docs col ++ [d] |},
                 Ok Processed)).
Proof.
  unfold Classify.classify_one.
  destruct (find_one col (audio_id a)) eqn:Hf; [left; eauto|].
  right. destruct (get_object (object_name a)); simpl; [right | left; auto].
  destruct (dumps_log _) as [e|] eqn:Hlog.
  { left. split_and!; [reflexivity..|]. exists e. split; [|reflexivity].
    left. eauto. }
  destruct (normalize_total (safe_json (resp_text (post a)))) as (bl & bs & ->).
  destruct (if truthy bl then taxa_find_one bl else Ok PNone) as [t|e] eqn:Ht.
  2:{ left. split_and!; [reflexivity..|]. exists e. split; [|reflexivity].
      right. left. destruct (truthy bl); [eauto | discriminate]. }
  destruct (bson_encode _) as [e|] eqn:Hb.
  { left. split_and!; [reflexivity..|]. exists e. split; [|reflexivity].
    right. right. eauto. }
  right. split_and!; [reflexivity..|].
  rewrite insert_one_fresh by exact Hf.
  eexists. split_and!; [| | |exact Hb|reflexivity]; [reflexivity..|exact Hlog].
Qed.

Lemma classify_all_facts audios : ∀ col,
  unique_audio_id (classify_all col audios).1 = unique_audio_id col
  ∧ docs col `prefix_of` docs (classify_all col audios).1
  ∧ (NoDup (ids col) → NoDup (ids (classify_all col audios).1))
  ∧ (∀ id, id ∈ ids (classify_all col audios).1 →
       id ∈ ids col ∨ id ∈ audio_id <$> audios)
  ∧ (∀ e, (classify_all col audios).2 = Raise e → raised_by e)
  ∧ ((classify_all col audios).2 = Ok tt →
     Forall (fun a => get_object (object_name a) = true →
                      audio_id a ∈ ids (classify_all col audios).1) audios).
Proof.
  induction audios as [|a audios IH]; intros col; simpl.
  { split_and!; auto; discriminate. }
  destruct (classify_one_cases col a)
    as [[Hs ->]|[(Hn & Hg & ->)|[(Hn & Hg & e & He & ->)
                               |(Hn & Hg & d & Hd & _ & _ & _ & ->)]]].
  - destruct (IH col) as (Hu & Hp & Hnd & Hids & Hex & Hall).
    split_and!; [exact Hu|exact Hp|exact Hnd| |exact Hex|].
    + intros id Hid. destruct (Hids id Hid); [now left | right; now right].
    + intros Hok. constructor; [|now apply Hall]. intros _.
      assert (Hin : audio_id a ∈ ids col).
      { destruct (decide (audio_id a ∈ ids col)) as [|Hni]; [assumption|].
        apply find_one_None_ids in Hni. rewrite Hni in Hs. now destruct Hs. }
      unfold ids in *. eapply elem_of_prefix; [exact Hin|]. now apply fmap_prefix.
  - destruct (IH col) as (Hu & Hp & Hnd & Hids & Hex & Hall).
    split_and!; [exact Hu|exact Hp|exact Hnd| |exact Hex|].
    + intros id Hid. destruct (Hids id Hid); [now left | right; now right].
    + intros Hok. constructor; [congruence | now apply Hall].
  - simpl. split_and!; [reflexivity|reflexivity|auto|auto| |discriminate].
    now intros e' [= <-].
  - destruct (IH {| unique_audio_id := unique_audio_id col; docs := docs col ++ [d] |})
      as (Hu & Hp & Hnd & Hids & Hex & Hall).
    simpl in Hu, Hp.
    split_and!; [exact Hu| | | |exact Hex|].
    + etransitivity; [|exact Hp]. now apply prefix_app_r.
    + intros Hnd0. apply Hnd. unfold ids. simpl. rewrite fmap_app.
      apply NoDup_app. split; [exact Hnd0|]. split; [|apply NoDup_singleton].
      intros x Hx ->%list_elem_of_singleton.
      apply find_one_None_ids in Hn. apply Hn. simpl in Hx. now rewrite <- Hd.
    + intros id Hid. destruct (Hids id Hid) as [Hin|Hin]; [|right; now right].
      unfold ids in Hin. simpl in Hin. rewrite fmap_app in Hin.
      apply elem_of_app in Hin as [Hin|Hin]; [now left|].
      apply list_elem_of_singleton in Hin. right. rewrite Hin, Hd. left.
    + intros Hok. constructor; [|now apply Hall]. intros _.
      unfold ids. eapply elem_of_prefix; [|apply fmap_prefix; exact Hp].
      rewrite fmap_app. apply elem_of_app. right.
      simpl. rewrite Hd. apply list_elem_of_singleton. reflexivity.
Qed.

(** X13. One run of the loop, finished or ended by an exception, keeps
    what is stored, stores at most one outcome for an identifier, and
    only for the recordings it was given.  The exception that ends a
    run is one of the log encoder, of the lookup in [taxa] or of the
    encoder of the document: the unique index refuses nothing the loop
    inserts. *)
Theorem classify_all_keeps_unique col audios :
  docs col `prefix_of` docs (classify_all col audios).1
  ∧ (NoDup (ids col) → NoDup (ids (classify_all col audios).1))
  ∧ (∀ id, id ∈ ids (classify_all col audios).1 →
       id ∈ ids col ∨ id ∈ audio_id <$> audios)
  ∧ (∀ e, (classify_all col audios).2 = Raise e → raised_by e).
Proof.
  destruct (classify_all_facts audios col) as (_ & Hp & Hnd & Hids & Hex & _).
  auto.
Qed.

(** X14. After a run that finished and in which every download
    succeeded, a second run over the same recordings stores nothing and
    finishes, whatever the services do then: every recording is
    skipped before any of them is called. *)
Theorem classify_all_idempotent col audios col1
    (Hrun : classify_all col audios = (col1, Ok tt))
    (Hget : Forall (fun a => get_object (object_name a) = true) audios) :
  ∀ bucket' classify_url' get_object' post' taxa_find_one' dumps_log'
    bson_encode',
    Classify.classify_all bucket' classify_url' get_object' post'
      taxa_find_one' dumps_log' bson_encode' col1 audios
    = (col1, Ok tt).
Proof.
  intros. apply classify_all_stored.
  destruct (classify_all_facts audios col) as (_ & _ & _ & _ & _ & Hall).
  rewrite Hrun in Hall. simpl in Hall. specialize (Hall eq_refl).
  rewrite Forall_forall in *. auto.
Qed.


End Run.

End ClassifyMore.

(** ** The ingestion of the field observations *)

Section IngestFacts.
Import Report Ingest Measures.
Context `{Builtins}.

Lemma get_first_dict kv keys : ∃ v, get_first (PDict kv) keys = Ok v.
Proof.
  induction keys as [|k keys IH]; simpl; [eauto|].
  destruct keys as [|k' keys]; [eauto|].
  destruct (truthy (dict_get kv k)); [eauto | exact IH].
Qed.

Lemma get_first_not_dict v k keys :
  is_dict v = false → get_first v (k :: keys) = Raise AttributeError.
Proof.
  intros Hv. destruct v; try discriminate; simpl; now destruct keys.
Qed.

(** On an object the extraction returns, on any other value it raises
    [AttributeError]. *)
Lemma extract_dict kv : ∃ x, extract_taxon_and_geo (PDict kv) = Ok x.
Proof.
  unfold extract_taxon_and_geo.
  destruct (get_first_dict kv ["taxon_code"; "taxonCode"; "species_code";
              "speciesCode"; "taxon"; "species"; "code"]) as [t ->].
  destruct (get_first_dict kv ["lat"; "latitude"]) as [la ->].
  destruct (get_first_dict kv ["lon"; "lng"; "longitude"; "long"]) as [lo ->].
  destruct (get_first_dict kv ["location"; "geo"; "coordinates"]) as [loc ->].
  cbn [mbind result_bind].
  destruct loc as [| | | | | |kl]; cbn [is_dict mbind result_bind mret result_ret]; eauto.
  assert (Hla : ∃ la', (if truthy la then mret la
                        else get_first (PDict kl) ["lat"; "latitude"]) = Ok la').
  { destruct (truthy la); [eexists; reflexivity | apply get_first_dict]. }
  assert (Hlo : ∃ lo', (if truthy lo then mret lo
                        else get_first (PDict kl) ["lon"; "lng"; "longitude"]) = Ok lo').
  { destruct (truthy lo); [eexists; reflexivity | apply get_first_dict]. }
  destruct Hla as [la' ->], Hlo as [lo' ->].
  cbn [mbind result_bind mret result_ret]. eauto.
Qed.

Lemma extract_not_dict v :
  is_dict v = false → extract_taxon_and_geo v = Raise AttributeError.
Proof.
  intros Hv. unfold extract_taxon_and_geo.
  rewrite (get_first_not_dict v "taxon_code" _ Hv). reflexivity.
Qed.

End IngestFacts.

Section IngestLoop.
Import Report Ingest Measures.
Context `{Builtins}.
Variable bson_encode : obs_doc → option exn.

Local Abbreviation upsert_on_insert := (upsert_on_insert bson_encode).
Local Abbreviation ingest_lines := (ingest_lines bson_encode).
Local Abbreviation main := (main bson_encode).
Local Abbreviation storable := (storable bson_encode).

Lemma ingest_lines_app topic l1 : ∀ i col l2,
  ingest_lines topic i col (l1 ++ l2) =
    match ingest_lines topic i col l1 with
    | (col1, Ok _) => ingest_lines topic (i + Z.of_nat (length l1)) col1 l2
    | (col1, Raise e) => (col1, Raise e)
    end.
Proof.
  induction l1 as [|line l1 IH]; intros i col l2.
  - simpl. now rewrite Z.add_0_r.
  - cbn [app Ingest.ingest_lines length].
    destruct (extract_taxon_and_geo (safe_json line)) as [[[t la] lo]|e];
      [|reflexivity].
    destruct (upsert_on_insert col _) as [col1 [[]|e]]; [|reflexivity].
    rewrite IH. replace (i + 1 + Z.of_nat (length l1))
      with (i + Z.of_nat (S (length l1))) by lia.
    reflexivity.
Qed.

(** X16. A line that is JSON but no object, a number or a list say,
    ends the loop with an [AttributeError]: the lines before it are
    stored, those after it are not read.  No object does that. *)
Theorem ingest_stops_at_non_object topic col lines1 line lines2 col1
    (Hfirst : ingest_lines topic 0 col lines1 = (col1, Ok tt))
    (Hline : is_dict (safe_json line) = false) :
  extract_taxon_and_geo (safe_json line) = Raise AttributeError
  ∧ ingest_lines topic 0 col (lines1 ++ line :: lines2)
    = (col1, Raise AttributeError)
  ∧ ∀ kv, ∃ x, extract_taxon_and_geo (PDict kv) = Ok x.
Proof.
  pose proof (extract_not_dict _ Hline) as He.
  split; [exact He|]. split; [|apply extract_dict].
  rewrite ingest_lines_app, Hfirst. simpl. now rewrite He.
Qed.

(** X17. A latitude of 0 under ["lat"] counts as missing: with no
    ["latitude"] and no location object the observation is stored
    without a latitude. *)
Theorem zero_latitude_is_dropped (kv : list (string * pyval))
    (Hlat : dict_get kv "lat" = PInt 0
            ∨ ∃ s, dict_get kv "lat" = PFloat (S754_zero s))
    (Hlatitude : dict_get kv "latitude" = PNone)
    (Hloc : dict_get kv "location" = PNone ∧ dict_get kv "geo" = PNone
            ∧ dict_get kv "coordinates" = PNone) :
  ∃ taxon lon, extract_taxon_and_geo (PDict kv) = Ok (taxon, None, lon).
Proof.
  destruct Hloc as (Hl1 & Hl2 & Hl3).
  assert (Hfalsy : truthy (dict_get kv "lat") = false)
    by (destruct Hlat as [->|[s ->]]; reflexivity).
  unfold extract_taxon_and_geo.
  destruct (get_first_dict kv ["taxon_code"; "taxonCode"; "species_code";
              "speciesCode"; "taxon"; "species"; "code"]) as [t ->].
  destruct (get_first_dict kv ["lon"; "lng"; "longitude"; "long"]) as [lo ->].
  cbn [get_first py_get mbind result_bind mret result_ret].
  rewrite Hfalsy, Hlatitude, Hl1, Hl2, Hl3.
  cbn [truthy is_dict mbind result_bind mret result_ret fst snd].
  eexists _, _. reflexivity.
Qed.

(** *** The loop *)

Lemma has_key_keys topic j col :
  existsb (same_key topic j) col = true ↔ (topic, j) ∈ obs_keys col.
Proof.
  unfold obs_keys. induction col as [|d col IH]; simpl.
  - split; [discriminate | intros Hin; inversion Hin].
  - rewrite orb_true_iff, IH, elem_of_cons. unfold same_key.
    rewrite andb_true_iff, String.eqb_eq, Z.eqb_eq.
    split; (intros [Hd|Hin]; [left|now right]).
    + destruct Hd as [<- <-]. reflexivity.
    + injection Hd as -> ->. auto.
Qed.

(** The three ways one update goes. *)
Lemma upsert_on_insert_cases col d :
  (∃ e, bson_encode d = Some e ∧ upsert_on_insert col d = (col, Raise e))
  ∨ (bson_encode d = None ∧ (o_topic d, o_seq d) ∈ obs_keys col
     ∧ upsert_on_insert col d = (col, Ok tt))
  ∨ (bson_encode d = None ∧ ((o_topic d, o_seq d) ∉ obs_keys col)
     ∧ upsert_on_insert col d = (col ++ [d], Ok tt)).
Proof.
  unfold Ingest.upsert_on_insert.
  destruct (bson_encode d) as [e|]; [left; eauto|]. right.
  destruct (existsb (same_key (o_topic d) (o_seq d)) col) eqn:He.
  - left. split_and!; [reflexivity | now apply has_key_keys | reflexivity].
  - right. split_and!; [reflexivity| |reflexivity].
    intros Hin. apply has_key_keys in Hin. congruence.
Qed.

Lemma storable_shift topic i line lines :
  (∀ j ln, (line :: lines) !! j = Some ln → storable topic (i + Z.of_nat j) ln)
  ↔ storable topic i line
    ∧ ∀ j ln, lines !! j = Some ln → storable topic (i + 1 + Z.of_nat j) ln.
Proof.
  split.
  - intros Hall. split.
    + specialize (Hall 0%nat line eq_refl). now rewrite Z.add_0_r in Hall.
    + intros j ln Hj. specialize (Hall (S j) ln Hj).
      now replace (i + 1 + Z.of_nat j) with (i + Z.of_nat (S j)) by lia.
  - intros [H0 Hall] [|j] ln Hj; simpl in Hj.
    + injection Hj as <-. now rewrite Z.add_0_r.
    + replace (i + Z.of_nat (S j)) with (i + 1 + Z.of_nat j) by lia. auto.
Qed.

(** What every run keeps, and when it finishes. *)
Lemma ingest_lines_any topic lines : ∀ i col,
  col `prefix_of` (ingest_lines topic i col lines).1
  ∧ (NoDup (obs_keys col) → NoDup (obs_keys (ingest_lines topic i col lines).1))
  ∧ (length (ingest_lines topic i col lines).1 <= length col + length lines)%nat
  ∧ ((ingest_lines topic i col lines).2 = Ok tt
     ↔ ∀ j ln, lines !! j = Some ln → storable topic (i + Z.of_nat j) ln)
  ∧ ((ingest_lines topic i col lines).2 = Ok tt →
     ∀ j, i ≤ j < i + Z.of_nat (length lines) →
          (topic, j) ∈ obs_keys (ingest_lines topic i col lines).1).
Proof.
  induction lines as [|line lines IH]; intros i col.
  { simpl. split_and!; [reflexivity|auto|lia| |intros _ j; lia].
    split; [intros _ j ln Hj; inversion Hj | reflexivity]. }
  rewrite storable_shift. cbn [Ingest.ingest_lines length].
  destruct (extract_taxon_and_geo (safe_json line)) as [[[t la] lo]|e] eqn:He.
  2:{ simpl. split_and!; [reflexivity|auto|lia| |discriminate].
      split; [discriminate|]. intros [(t & la & lo & Hx & _) _]. congruence. }
  set (d := doc_of topic i (safe_json line) t la lo).
  assert (Hst : storable topic i line ↔ bson_encode d = None).
  { unfold Measures.storable. split.
    - intros (t' & la' & lo' & Hx & Hb). rewrite He in Hx.
      injection Hx as <- <- <-. exact Hb.
    - intros Hb. exists t, la, lo. auto. }
  destruct (upsert_on_insert_cases col d)
    as [(e & Hb & ->)|[(Hb & Hin & ->)|(Hb & Hni & ->)]].
  - simpl. split_and!; [reflexivity|auto|lia| |discriminate].
    split; [discriminate|]. intros [Hs _]. apply Hst in Hs. congruence.
  - destruct (IH (i + 1) col) as (Hp & Hnd & Hlen & Hiff & Hk).
    split_and!; [exact Hp|exact Hnd|lia| |].
    + rewrite Hiff. tauto.
    + intros Hok j Hj. destruct (decide (j = i)) as [->|Hne].
      * unfold obs_keys in *. eapply elem_of_prefix; [exact Hin|].
        now apply fmap_prefix.
      * apply Hk; [exact Hok | lia].
  - destruct (IH (i + 1) (col ++ [d])) as (Hp & Hnd & Hlen & Hiff & Hk).
    split_and!.
    + etransitivity; [|exact Hp]. now apply prefix_app_r.
    + intros Hnd0. apply Hnd. unfold obs_keys. rewrite fmap_app.
      apply NoDup_app. split; [exact Hnd0|]. split; [|apply NoDup_singleton].
      intros x Hx ->%list_elem_of_singleton. now apply Hni.
    + rewrite length_app in Hlen. simpl in Hlen. lia.
    + rewrite Hiff. tauto.
    + intros Hok j Hj. destruct (decide (j = i)) as [->|Hne].
      * unfold obs_keys. eapply elem_of_prefix; [|apply fmap_prefix; exact Hp].
        rewrite fmap_app. apply elem_of_app. right. left.
      * apply Hk; [exact Hok | lia].
Qed.

(** With every position taken the loop stores nothing. *)
Lemma ingest_lines_taken topic lines : ∀ i col,
  (∀ j, i ≤ j < i + Z.of_nat (length lines) → (topic, j) ∈ obs_keys col) →
  (ingest_lines topic i col lines).1 = col.
Proof.
  induction lines as [|line lines IH]; intros i col Hk; [reflexivity|].
  cbn [Ingest.ingest_lines].
  destruct (extract_taxon_and_geo (safe_json line)) as [[[t la] lo]|e] eqn:He;
    [|reflexivity].
  set (d := doc_of topic i (safe_json line) t la lo).
  destruct (upsert_on_insert_cases col d)
    as [(e & Hb & ->)|[(Hb & Hin & ->)|(Hb & Hni & ->)]]; [reflexivity| |].
  - apply IH. intros j Hj. apply Hk. simpl length. lia.
  - exfalso. apply Hni. apply (Hk i). simpl length. lia.
Qed.

Lemma ingest_lines_result topic i col lines :
  ingest_lines topic i col lines
  = ((ingest_lines topic i col lines).1, (ingest_lines topic i col lines).2).
Proof. now destruct (ingest_lines topic i col lines). Qed.

(** X18. Ingesting is safe to repeat: a run keeps what is stored and the
    keys distinct, and the same lines ingested again change nothing. *)
Theorem ingest_rerun_safe topic col lines col'
    (Hrun : ingest_lines topic 0 col lines = (col', Ok tt)) :
  col `prefix_of` col'
  ∧ (NoDup (obs_keys col) → NoDup (obs_keys col'))
  ∧ (length col' <= length col + length lines)%nat
  ∧ ingest_lines topic 0 col' lines = (col', Ok tt).
Proof.
  destruct (ingest_lines_any topic lines 0 col) as (Hp & Hnd & Hlen & Hiff & Hk).
  rewrite Hrun in *. simpl in *.
  split_and!; try assumption.
  rewrite ingest_lines_result. f_equal.
  - apply ingest_lines_taken. now apply Hk.
  - apply (ingest_lines_any topic lines 0 col'). now apply Hiff.
Qed.

(** X19. The key is the position of a line, not its content: after a run,
    a different batch that is not longer stores nothing at all. *)
Theorem ingest_positions_taken topic col lines col' lines2
    (Hrun : ingest_lines topic 0 col lines = (col', Ok tt))
    (Hlen : (length lines2 <= length lines)%nat) :
  (ingest_lines topic 0 col' lines2).1 = col'.
Proof.
  destruct (ingest_lines_any topic lines 0 col) as (_ & _ & _ & _ & Hk).
  rewrite Hrun in Hk. simpl in Hk.
  apply ingest_lines_taken. intros j Hj. apply Hk; [reflexivity | lia].
Qed.

(** *** The lines *)

Lemma stripped_lines_clean combined :
  Forall (fun ln => ln ≠ "" ∧ strip ln = ln) (stripped_lines combined).
Proof.
  unfold stripped_lines. rewrite Forall_forall. intros ln Hin.
  apply list_elem_of_filter in Hin as [Hne Hin].
  apply list_elem_of_fmap in Hin as (x & -> & _).
  split; [|apply strip_idem].
  intros Hs. rewrite Hs in Hne. discriminate.
Qed.

Lemma drop_log_lines_idem lines :
  drop_log_lines (drop_log_lines lines) = drop_log_lines lines.
Proof. unfold drop_log_lines. apply list_filter_filter_l. auto. Qed.

Lemma drop_log_lines_consumed stdout stderr :
  drop_log_lines (consume_kafka_lines stdout stderr)
  = consume_kafka_lines stdout stderr.
Proof. unfold consume_kafka_lines. apply drop_log_lines_idem. Qed.

(** X20. The lines handed to the loop are not empty, stripped and no log
    lines; the second filter of [main] removes none of them. *)
Theorem consumed_lines_clean stdout stderr :
  Forall clean_line (consume_kafka_lines stdout stderr)
  ∧ drop_log_lines (consume_kafka_lines stdout stderr)
    = consume_kafka_lines stdout stderr.
Proof.
  split; [|apply drop_log_lines_consumed].
  unfold consume_kafka_lines.
  - rewrite Forall_forall. intros ln Hin. unfold drop_log_lines in Hin.
    apply list_elem_of_filter in Hin as [Hlog Hin].
    pose proof (stripped_lines_clean
      (if nonempty stderr
       then (if nonempty stdout then "" +:+ stdout else "") +:+ stderr
       else if nonempty stdout then "" +:+ stdout else "")) as Hc.
    rewrite Forall_forall in Hc. destruct (Hc ln Hin) as [Hne Hs].
    split; [exact Hne|]. split; [exact Hs | exact Hlog].
Qed.

(** *** The whole run *)

(** X29. [main] ends with the status 0 or 1, and with 0 exactly when
    the keys stored are distinct, so that the unique index can be made,
    and every line of the consumer can be stored: it is a JSON object
    or no JSON at all, and the driver can encode the document made of
    it.  Whatever the status, the documents stored before are kept and
    distinct keys stay distinct. *)
Theorem ingest_main_status topic col stdout stderr :
  ((main topic col stdout stderr).2 = 0 ∨ (main topic col stdout stderr).2 = 1)
  ∧ ((main topic col stdout stderr).2 = 0
     ↔ NoDup (obs_keys col)
       ∧ ∀ j ln, consume_kafka_lines stdout stderr !! j = Some ln →
                 storable topic (Z.of_nat j) ln)
  ∧ col `prefix_of` (main topic col stdout stderr).1
  ∧ (NoDup (obs_keys col) → NoDup (obs_keys (main topic col stdout stderr).1)).
Proof.
  unfold Ingest.main, create_index_unique. fold (obs_keys col). cbv zeta.
  rewrite drop_log_lines_consumed.
  destruct (decide (NoDup (obs_keys col))) as [Hnd|Hnd]; simpl.
  - destruct (ingest_lines_any topic (consume_kafka_lines stdout stderr) 0 col)
      as (Hp & Hk & _ & Hiff & _).
    destruct (ingest_lines topic 0 col (consume_kafka_lines stdout stderr))
      as [col' [[]|e]] eqn:Hrun; simpl in *.
    + split_and!; [now left| |exact Hp|exact Hk].
      split; [intros _; split; [exact Hnd | now apply Hiff] | reflexivity].
    + split_and!; [now right| |exact Hp|exact Hk].
      split; [discriminate|]. intros [_ Hall]. apply Hiff in Hall. discriminate.
  - split_and!; [now right| |reflexivity|tauto].
    split; [discriminate | tauto].
Qed.

Lemma ingest_lines_fresh topic lines : ∀ i col col',
  Forall (fun d => o_topic d = topic → o_seq d < i) col →
  ingest_lines topic i col lines = (col', Ok tt) →
  ∃ new, col' = col ++ new
    ∧ Forall2 (fun line d =>
                 extract_taxon_and_geo (safe_json line)
                   = Ok (o_taxon_code d, o_lat d, o_lon d)
                 ∧ o_payload d = safe_json line
                 ∧ o_topic d = topic) lines new
    ∧ o_seq <$> new = seqZ i (Z.of_nat (length lines)).
Proof.
  induction lines as [|line lines IH]; intros i col col' Hfresh Hrun;
    cbn [Ingest.ingest_lines] in Hrun.
  - injection Hrun as <-. exists []. rewrite app_nil_r.
    split_and!; [reflexivity|constructor|reflexivity].
  - destruct (extract_taxon_and_geo (safe_json line)) as [[[t la] lo]|e] eqn:He;
      [|discriminate].
    set (d := doc_of topic i (safe_json line) t la lo) in *.
    destruct (upsert_on_insert_cases col d)
      as [(e & Hb & Hu)|[(Hb & Hin & Hu)|(Hb & Hni & Hu)]];
      rewrite Hu in Hrun; [discriminate| |].
    + exfalso. unfold obs_keys in Hin.
      apply list_elem_of_fmap in Hin as (d0 & Heq & Hin0).
      rewrite Forall_forall in Hfresh. specialize (Hfresh d0 Hin0).
      injection Heq as Ht Hs. simpl in Ht, Hs. symmetry in Ht.
      specialize (Hfresh Ht). lia.
    + apply IH in Hrun as (new & -> & Hall & Hseq).
      * exists (d :: new). rewrite <- app_assoc. split_and!; [reflexivity| |].
        -- constructor; [|exact Hall]. simpl. auto.
        -- rewrite fmap_cons, Hseq. cbn [length].
           rewrite (seqZ_cons i) by lia. simpl. do 2 f_equal; lia.
      * apply Forall_app. split.
        -- eapply Forall_impl; [exact Hfresh|]. simpl. intros d0 H0 Ht.
           specialize (H0 Ht). lia.
        -- constructor; [|constructor]. simpl. lia.
Qed.

(** X30. The first ingestion of a topic stores one document for every
    line, in the order of the lines and behind the documents already
    stored: the document of a line carries the payload of the line, the
    taxon and the coordinates extracted from it, and the position of
    the line as its [seq]. *)
Theorem ingest_first_run topic col lines col'
    (Hfresh : Forall (fun d => o_topic d ≠ topic) col)
    (Hrun : ingest_lines topic 0 col lines = (col', Ok tt)) :
  ∃ new, col' = col ++ new
    ∧ Forall2 (fun line d =>
                 extract_taxon_and_geo (safe_json line)
                   = Ok (o_taxon_code d, o_lat d, o_lon d)
                 ∧ o_payload d = safe_json line
                 ∧ o_topic d = topic) lines new
    ∧ o_seq <$> new = seqZ 0 (Z.of_nat (length lines)).
Proof.
  apply (ingest_lines_fresh topic lines 0 col col'); [|exact Hrun].
  eapply Forall_impl; [exact Hfresh|]. simpl. intros d Hd Ht. contradiction.
Qed.

End IngestLoop.

(** ** The taxon codes *)

Section TaxonomyFacts.
Import Report Taxonomy Measures.

Lemma code_char_plain (c : ascii) :
  is_code_char c = true → is_space c = false ∧ lower_char c = c.
Proof.
  destruct c as [[] [] [] [] [] [] [] []]; try discriminate; intros _; split; reflexivity.
Qed.

Lemma keep_code_chars_all (s : string) :
  all_chars is_code_char (keep_code_chars s) = true.
Proof.
  induction s as [|c s IH]; [reflexivity|].
  simpl. destruct (is_code_char c) eqn:Hc; [|exact IH].
  simpl. now rewrite Hc.
Qed.

Lemma code_string_fixed (s : string) :
  all_chars is_code_char s = true →
  lstrip s = s ∧ rstrip s = s ∧ lower s = s
  ∧ (∀ b, sub_underscore b s = s) ∧ keep_code_chars s = s.
Proof.
  induction s as [|c s IH]; [intros _; split_and!; auto|].
  simpl. intros [Hc Hs]%andb_true_iff.
  destruct (code_char_plain c Hc) as [Hsp Hlo].
  destruct (IH Hs) as (_ & Hr & Hl & Hu & Hk).
  split_and!.
  - now rewrite Hsp.
  - rewrite rstrip_cons, Hr. destruct s; [now rewrite Hsp | reflexivity].
  - now rewrite Hlo, Hl.
  - intros b. now rewrite Hsp, Hu.
  - now rewrite Hc, Hk.
Qed.

Lemma or_none_Some s c : or_none s = Some c → c = s ∧ s ≠ "".
Proof.
  unfold or_none, nonempty. destruct (String.eqb_spec s ""); simpl; [discriminate|].
  intros [= <-]. auto.
Qed.

(** X21. A code is not empty, is made of lower-case letters, digits and
    underscores only, and is its own code. *)
Theorem taxon_code_stable (name : option string) (c : string)
    (Hc : make_taxon_code_from_name name = Some c) :
  c ≠ ""
  ∧ all_chars is_code_char c = true
  ∧ make_taxon_code_from_name (Some c) = Some c.
Proof.
  unfold make_taxon_code_from_name in Hc.
  destruct name as [name|]; [|discriminate].
  destruct (nonempty name); [|discriminate].
  apply or_none_Some in Hc as [-> Hne].
  set (c := keep_code_chars _) in *.
  pose proof (keep_code_chars_all
                (sub_underscore false (lower (strip name)))) as Hall.
  fold c in Hall.
  split; [exact Hne|]. split; [exact Hall|].
  destruct (code_string_fixed c Hall) as (Hl & Hr & Hlo & Hu & Hk).
  unfold make_taxon_code_from_name, strip.
  assert (Hn : nonempty c = true)
    by (unfold nonempty; destruct (String.eqb_spec c ""); [contradiction | reflexivity]).
  rewrite Hn, Hl, Hr, Hlo, Hu, Hk. unfold or_none. now rewrite Hn.
Qed.

Lemma lower_empty (s : string) : lower s = "" ↔ s = "".
Proof. destruct s; simpl; split; (discriminate || reflexivity || auto). Qed.

Lemma nonempty_lower (s : string) : nonempty (lower s) = nonempty s.
Proof. now destruct s. Qed.

(** X22. The code of a name does not depend on its case nor on the white
    space around it. *)
Theorem taxon_code_insensitive (name : string) :
  make_taxon_code_from_name (Some (lower name)) = make_taxon_code_from_name (Some name)
  ∧ make_taxon_code_from_name (Some (strip name)) = make_taxon_code_from_name (Some name).
Proof.
  unfold make_taxon_code_from_name. split.
  - rewrite nonempty_lower, <- lower_strip, lower_idem. reflexivity.
  - rewrite strip_idem.
    destruct (nonempty name) eqn:Hn, (nonempty (strip name)) eqn:Hs; try reflexivity.
    + unfold nonempty in Hs. destruct (String.eqb_spec (strip name) "") as [->|];
        [reflexivity | discriminate].
    + destruct name; [discriminate Hs | discriminate Hn].
Qed.

Lemma length_omap_le {A B} (f : A → option B) (l : list A) :
  (length (omap f l) <= length l)%nat.
Proof.
  induction l as [|x l IH]; [reflexivity|].
  csimpl. destruct (f x); simpl; lia.
Qed.

(** X23. What the table gives: species only, each with a latin name that is
    not empty and stripped, taken from the canonical name when there is
    one, and with the code of that name. *)
Theorem parsed_species (table : option (list (list string))) :
  Forall (fun d => t_rank d = "SPECIES"
                   ∧ t_latin_name d ≠ ""
                   ∧ strip (t_latin_name d) = t_latin_name d
                   ∧ t_taxon_code d = make_taxon_code_from_name (Some (t_latin_name d))
                   ∧ t_common_name d = None)
    (parse_species_table table)
  ∧ (length (parse_species_table table) <= length (default [] table))%nat
  ∧ ∀ tds, (length tds < 5)%nat → parse_row tds = None.
Proof.
  split; [|split].
  - destruct table as [rows|]; [|constructor]. simpl.
    rewrite Forall_forall. intros d Hd.
    apply list_elem_of_omap in Hd as (tds & _ & Hp).
    unfold parse_row in Hp.
    destruct tds as [|td0 [|td1 [|td2 [|td3 [|td4 rest]]]]]; try discriminate.
    destruct (or_none (normalize_spaces td2)) as [rank|]; [|discriminate].
    destruct (String.eqb (upper rank) "SPECIES"); [|discriminate].
    destruct (match or_none (normalize_spaces td1) with
              | Some n => Some n
              | None => or_none (normalize_spaces td0)
              end) as [latin|] eqn:Hl; [|discriminate].
    injection Hp as <-. simpl. split_and!; try reflexivity.
    + destruct (or_none (normalize_spaces td1)) eqn:H1.
      * injection Hl as <-. now apply or_none_Some in H1 as [-> ?].
      * now apply or_none_Some in Hl as [-> ?].
    + destruct (or_none (normalize_spaces td1)) eqn:H1.
      * injection Hl as <-. apply or_none_Some in H1 as [-> _].
        apply strip_idem.
      * apply or_none_Some in Hl as [-> _]. apply strip_idem.
  - destruct table as [rows|]; simpl; [|lia]. apply length_omap_le.
  - intros tds Hlen.
    destruct tds as [|td0 [|td1 [|td2 [|td3 [|td4 rest]]]]]; try reflexivity.
    simpl in Hlen. lia.
Qed.

(** *** The upserts *)

Lemma upsert_set_codes d col :
  codes (upsert_set d col) =
    if decide (t_taxon_code d ∈ codes col) then codes col
    else codes col ++ [t_taxon_code d].
Proof.
  unfold codes. induction col as [|x col IH].
  - reflexivity.
  - cbn [upsert_set]. case_bool_decide as Hxd.
    + rewrite !fmap_cons, Hxd. rewrite decide_True by left. reflexivity.
    + rewrite !fmap_cons, IH.
      destruct (decide (t_taxon_code d ∈ t_taxon_code <$> col)) as [Hin|Hni].
      * rewrite decide_True by now right. reflexivity.
      * rewrite decide_False; [reflexivity|].
        intros [Heq|Hin]%elem_of_cons; [congruence | contradiction].
Qed.

Lemma upsert_set_NoDup d col : NoDup (codes col) → NoDup (codes (upsert_set d col)).
Proof.
  intros Hnd. rewrite upsert_set_codes.
  destruct (decide _) as [|Hni]; [exact Hnd|].
  apply NoDup_app. split; [exact Hnd|]. split; [|apply NoDup_singleton].
  intros x Hx ->%list_elem_of_singleton. contradiction.
Qed.

Lemma find_code_upsert_set c d col :
  find_code c (upsert_set d col) =
    if decide (t_taxon_code d = c) then Some d else find_code c col.
Proof.
  unfold find_code. induction col as [|x col IH].
  - simpl. case_decide; case_bool_decide; (reflexivity || contradiction).
  - cbn [upsert_set]. case_bool_decide as Hxd; cbn [List.find].
    + case_decide as Hdc; repeat case_bool_decide; try reflexivity; congruence.
    + case_bool_decide as Hxc.
      * rewrite decide_False by congruence. reflexivity.
      * exact IH.
Qed.

Lemma upsert_docs_snoc col docs d :
  upsert_docs col (docs ++ [d]) = upsert_set d (upsert_docs col docs).
Proof. unfold upsert_docs. now rewrite foldl_app. Qed.

Lemma upsert_docs_NoDup docs : ∀ col,
  NoDup (codes col) → NoDup (codes (upsert_docs col docs)).
Proof.
  unfold upsert_docs. induction docs as [|d docs IH]; intros col Hnd; simpl;
    [exact Hnd|].
  apply IH. now apply upsert_set_NoDup.
Qed.

(** X24. The last document of a code wins, and no code is stored twice. *)
Theorem upsert_docs_last_wins (col docs : list taxon_doc) (c : option string) :
  find_code c (upsert_docs col docs) =
    match last (filter (fun d => t_taxon_code d = c) docs) with
    | Some d => Some d
    | None => find_code c col
    end
  ∧ (NoDup (codes col) → NoDup (codes (upsert_docs col docs))).
Proof.
  split; [|apply upsert_docs_NoDup].
  induction docs as [|d docs IH] using rev_ind; [reflexivity|].
  rewrite upsert_docs_snoc, find_code_upsert_set, filter_app, IH.
  rewrite filter_cons, filter_nil.
  destruct (decide (t_taxon_code d = c)) as [Heq|Hne].
  - now rewrite last_snoc.
  - now rewrite app_nil_r.
Qed.

(** X25. Seeding does nothing to a collection that is not empty, and an
    empty one ends with one document for each code. *)
Theorem seed_once (col : list taxon_doc)
    (pages : list (option (list (list string)) * option (list (list string)))) :
  (col ≠ [] → seed col pages = col)
  ∧ NoDup (codes (seed [] pages)).
Proof.
  unfold seed. split.
  - intros Hne. destruct col; [contradiction | reflexivity].
  - simpl. assert (Hgen : ∀ c, NoDup (codes c) → NoDup (codes (foldl seed_page c pages))).
    { induction pages as [|p pages IH]; intros c Hc; simpl; [exact Hc|].
      apply IH. unfold seed_page. now apply upsert_docs_NoDup. }
    apply Hgen. constructor.
Qed.

End TaxonomyFacts.

(** ** The upload of the recordings *)

Section UploadFacts.
Import Upload Measures.
Variable sha256 : string → string.
Variable fput_ok : string → bool.
Variable bucket audio_dir : string.
Variable lat lon : float.

Local Abbreviation upload_files := (upload_files sha256 fput_ok bucket audio_dir lat lon).
Local Abbreviation main := (main sha256 fput_ok bucket audio_dir lat lon).

Lemma audio_find_None col id : find_one col id = None ↔ id ∉ audio_ids col.
Proof.
  unfold find_one, audio_ids. induction col as [|x l IH]; simpl.
  - split; [intros _; apply not_elem_of_nil | reflexivity].
  - rewrite not_elem_of_cons.
    destruct (String.eqb_spec (a_audio_id x) id) as [<-|Hne].
    + split; [discriminate | intros [? _]; congruence].
    + rewrite IH. split; [intros ?; split; [congruence | assumption] | tauto].
Qed.

Lemma upload_files_facts files : ∀ st u s st' status,
  upload_files st u s files = (st', status) →
  audio_files st `prefix_of` audio_files st'
  ∧ objects st ⊆ objects st'
  ∧ (NoDup (audio_ids (audio_files st)) → NoDup (audio_ids (audio_files st')))
  ∧ (stores_ok st → stores_ok st')
  ∧ (∀ d, d ∈ audio_files st' →
       d ∈ audio_files st
       ∨ ∃ p, p ∈ files ∧ a_audio_id d = sha256 (f_content p)
              ∧ a_object_name d = object_name_of sha256 p)
  ∧ (∀ u' s', status = Finished u' s' →
       u' + s' = u + s + Z.of_nat (length files)
       ∧ Z.of_nat (length (audio_files st'))
         = Z.of_nat (length (audio_files st)) + (u' - u)
       ∧ Forall (fun p => sha256 (f_content p) ∈ audio_ids (audio_files st')) files).
Proof.
  induction files as [|p files IH]; intros st u s st' status Hrun; simpl in Hrun.
  - injection Hrun as <- <-. split_and!; auto.
    intros u' s' [= <- <-]. split_and!; [simpl; lia | lia | constructor].
  - destruct (find_one (audio_files st) (sha256 (f_content p))) as [d0|] eqn:Hf.
    + apply IH in Hrun as (Hp & Ho & Hnd & Hok & Hnew & Hfin).
      split_and!; try assumption.
      * intros d Hd. destruct (Hnew d Hd) as [|(q & Hq & Hq')]; [now left|].
        right. exists q. split; [now right | exact Hq'].
      * intros u' s' Hs. destruct (Hfin u' s' Hs) as (Hc & Hl & Hall).
        split_and!; [simpl length; lia | lia |].
        constructor; [|exact Hall].
        assert (Hin : sha256 (f_content p) ∈ audio_ids (audio_files st)).
        { destruct (decide (sha256 (f_content p) ∈ audio_ids (audio_files st)))
            as [|Hni]; [assumption|].
          apply audio_find_None in Hni. congruence. }
        unfold audio_ids in *. eapply elem_of_prefix; [exact Hin|].
        now apply fmap_prefix.
    + destruct (fput_ok (object_name_of sha256 p)) eqn:Hput.
      * apply IH in Hrun as (Hp & Ho & Hnd & Hok & Hnew & Hfin).
        cbn [audio_files objects] in *.
        split_and!.
        -- etransitivity; [|exact Hp]. now apply prefix_app_r.
        -- etransitivity; [|exact Ho]. apply union_subseteq_l.
        -- intros Hnd0. apply Hnd. unfold audio_ids. rewrite fmap_app.
           apply NoDup_app. split; [exact Hnd0|]. split; [|apply NoDup_singleton].
           intros x Hx ->%list_elem_of_singleton.
           now apply audio_find_None in Hf.
        -- intros Hok0. apply Hok. unfold stores_ok in *. cbn [audio_files objects].
           apply Forall_app. split.
           ++ eapply Forall_impl; [exact Hok0|]. intros d Hd.
              apply elem_of_union. now left.
           ++ repeat constructor. cbn [a_object_name].
              apply elem_of_union. right. now apply elem_of_singleton.
        -- intros d Hd. destruct (Hnew d Hd) as [Hin|(q & Hq & Hq')].
           ++ apply elem_of_app in Hin as [Hin|Hin]; [now left|].
              apply list_elem_of_singleton in Hin. subst d.
              right. exists p. split; [left|]. split; reflexivity.
           ++ right. exists q. split; [now right | exact Hq'].
        -- intros u' s' Hs. destruct (Hfin u' s' Hs) as (Hc & Hl & Hall).
           rewrite length_app in Hl. simpl length in *.
           split_and!; [lia | lia |].
           constructor; [|exact Hall].
           unfold audio_ids. eapply elem_of_prefix; [|apply fmap_prefix; exact Hp].
           rewrite fmap_app. apply elem_of_app. right. left.
      * injection Hrun as <- <-. split_and!; auto.
        intros u' s' [=].
Qed.

Lemma upload_files_stored files : ∀ st u s,
  Forall (fun p => sha256 (f_content p) ∈ audio_ids (audio_files st)) files →
  upload_files st u s files = (st, Finished u (s + Z.of_nat (length files))).
Proof.
  induction files as [|p files IH]; intros st u s Hall; simpl.
  - now rewrite Z.add_0_r.
  - apply Forall_cons in Hall as [Hp Hall].
    destruct (find_one (audio_files st) (sha256 (f_content p))) eqn:Hf.
    + rewrite IH by exact Hall. do 2 f_equal. lia.
    + apply audio_find_None in Hf. contradiction.
Qed.

(** X26. An upload keeps the documents stored, keeps the identifiers
    distinct and keeps the object of every document in the bucket, also
    when it stops at a refused upload. *)
Theorem upload_keeps_stores_in_step st entries st' status
    (Hrun : main st entries = (st', status)) :
  audio_files st `prefix_of` audio_files st'
  ∧ objects st ⊆ objects st'
  ∧ (NoDup (audio_ids (audio_files st)) → NoDup (audio_ids (audio_files st')))
  ∧ (stores_ok st → stores_ok st').
Proof.
  apply upload_files_facts in Hrun as (Hp & Ho & Hnd & Hok & _).
  auto.
Qed.

(** X27. Only files with the suffix [.wav] or [.mp3], in any case, are
    uploaded, each under the name made of its digest and its suffix in
    lower case; a run that finishes has uploaded or skipped every one
    of them. *)
Theorem upload_only_audio st entries st' status
    (Hrun : main st entries = (st', status)) :
  (∀ d, d ∈ audio_files st' →
     d ∈ audio_files st
     ∨ ∃ p, p ∈ entries ∧ is_audio p = true
            ∧ a_audio_id d = sha256 (f_content p)
            ∧ a_object_name d
              = "audio/" +:+ sha256 (f_content p) +:+ lower (f_suffix p))
  ∧ (∀ u s, status = Finished u s →
       u + s = Z.of_nat (length (filter (fun p => is_audio p = true) entries))
       ∧ Z.of_nat (length (audio_files st'))
         = Z.of_nat (length (audio_files st)) + u).
Proof.
  apply upload_files_facts in Hrun as (_ & _ & _ & _ & Hnew & Hfin).
  split.
  - intros d Hd. destruct (Hnew d Hd) as [|(p & Hp & Hid & Hobj)]; [now left|].
    right. exists p. apply list_elem_of_filter in Hp as [Ha Hp]. auto.
  - intros u s Hs. destruct (Hfin u s Hs) as (Hc & Hl & _). lia.
Qed.

(** X28. A second run over the same directory uploads nothing: every file is
    skipped. *)
Theorem upload_rerun_skips st entries st' u s
    (Hrun : main st entries = (st', Finished u s)) :
  main st' entries = (st', Finished 0 (u + s)).
Proof.
  unfold Upload.main in *.
  apply upload_files_facts in Hrun as (_ & _ & _ & _ & _ & Hfin).
  destruct (Hfin u s eq_refl) as (Hc & _ & Hall).
  rewrite upload_files_stored by exact Hall. do 2 f_equal. lia.
Qed.

End UploadFacts.

(** ** The further properties on the examples *)

Section WorkedMore.
Import Trigram Report Classify Measures Examples MoreExamples.

Local Existing Instance example_builtins.

(** *** The lines of the consumer and the codes *)

Example splitlines_examples :
  Ingest.splitlines ("a" +:+ line_feed +:+ "b") = ["a"; "b"]
  ∧ Ingest.splitlines ("a" +:+ carriage_return +:+ line_feed +:+ "b" +:+ line_feed)
    = ["a"; "b"]
  ∧ Ingest.splitlines ("a" +:+ line_feed +:+ line_feed +:+ "b") = ["a"; ""; "b"]
  ∧ Ingest.splitlines line_feed = [""]
  ∧ Ingest.splitlines "" = [].
Proof. repeat split; reflexivity. Qed.

Example consume_example :
  Ingest.consume_kafka_lines
    ("{}" +:+ line_feed +:+ "  [] " +:+ line_feed +:+ line_feed)
    ("[2024] WARN kafka.server stopped" +:+ line_feed)
  = ["{}"; "[]"].
Proof. vm_compute. reflexivity. Qed.

Example taxon_code_example :
  Taxonomy.make_taxon_code_from_name (Some " Erithacus  rubecula (L.) ")
  = Some "erithacus_rubecula_l".
Proof. vm_compute. reflexivity. Qed.

(** *** The matcher *)

Lemma similarity_same_norm_witness :
  trigram_similarity "  European   ROBIN " "european robin" = Ok f_one.
Proof.
  apply (similarity_same_norm "  European   ROBIN " "european robin").
  vm_compute. reflexivity.
Defined.

Lemma similarity_disjoint_witness :
  trigram_similarity "sparrow" "elephant" = Ok f_zero.
Proof.
  apply (similarity_disjoint "sparrow" "elephant").
  vm_compute. reflexivity.
Defined.

Lemma species_filter_spec_witness :
  ∃ rows', species_filter (Some "A") [row_A; row_B] = Ok rows' ∧ row_A ∈ rows'.
Proof.
  destruct (species_filter_spec (Some "A") [row_A; row_B])
    as (rows' & Hf & _ & _ & Hkeep).
  exists rows'. split; [exact Hf|].
  apply (Hkeep "A" row_A); [reflexivity | left | left; reflexivity].
Defined.

(** *** The aggregation and the rows *)

Lemma aggregate_conserves_segments_witness :
  sum_over e_segments_total (agg two_robins)
    = count_if counted (segments_of [boundary_doc "a1"; boundary_doc "a2"])
  ∧ sum_over e_confidence_n (agg two_robins)
    = count_if counted (segments_of [boundary_doc "a1"; boundary_doc "a2"])
  ∧ sum_over e_positive_segments (agg two_robins)
    = count_if (positive f_0_30) (segments_of [boundary_doc "a1"; boundary_doc "a2"]).
Proof.
  apply (aggregate_conserves_segments f_0_30
           [boundary_doc "a1"; boundary_doc "a2"] two_robins).
  vm_compute. reflexivity.
Defined.


Lemma max_confidence_bounds_witness :
  (f_ge (e_max_confidence (robin_entry_of 2 2 f_0_6 f_0_30)) f_zero = true
   ∧ is_nan (e_max_confidence (robin_entry_of 2 2 f_0_6 f_0_30)) = false)
  ∧ ∃ e', agg_lookup "robin" (agg two_robins) = Some e'
          ∧ f_ge (e_max_confidence e') f_0_30 = true.
Proof.
  split.
  - apply (proj1 (max_confidence_bounds f_0_30)
             [boundary_doc "a1"; boundary_doc "a2"] two_robins "robin"
             (robin_entry_of 2 2 f_0_6 f_0_30)).
    + vm_compute. reflexivity.
    + simpl. left.
  - apply (proj2 (max_confidence_bounds f_0_30)
             [boundary_doc "a1"] (one_robin "a1" f_0_30) (boundary_doc "a2")
             somewhere boundary_segment two_robins f_0_30 "robin").
    + vm_compute. reflexivity.
    + vm_compute. reflexivity.
    + reflexivity.
    + vm_compute. reflexivity.
    + vm_compute. reflexivity.
Defined.

Lemma report_row_counters_witness :
  Forall (fun r => 1 ≤ r_positive_segments r ≤ r_segments_total r
                   ∧ 0 ≤ r_audio_files_count r ≤ r_segments_total r) [robin_row].
Proof.
  apply (@report_row_counters example_builtins no_observations
           f_0_30 None 0 three_robins [robin_row]).
  vm_compute. reflexivity.
Defined.

Lemma report_one_row_per_species_witness :
  NoDup (r_scientific_name <$> [robin_row]).
Proof.
  apply (@report_one_row_per_species example_builtins no_observations
           f_0_30 None 0 three_robins [robin_row]).
  vm_compute. reflexivity.
Defined.

(** *** The classification *)

Lemma classify_all_keeps_unique_witness :
  NoDup (ids (classify_all "audio" classifier every_object empty_answer no_taxon
                every_log every_document (indexed [])
                [recording "a1" "dawn.wav"; recording "a1" "dusk.wav"]).1)
  ∧ raised_by no_taxon no_log every_document ValueError.
Proof.
  split.
  - apply (classify_all_keeps_unique "audio" classifier every_object
             empty_answer no_taxon every_log every_document (indexed [])
             [recording "a1" "dawn.wav"; recording "a1" "dusk.wav"]).
    simpl. constructor.
  - apply (classify_all_keeps_unique "audio" classifier every_object
             empty_answer no_taxon no_log every_document (indexed [])
             [recording "a1" "dawn.wav"]).
    vm_compute. reflexivity.
Defined.

Lemma classify_all_idempotent_witness :
  classify_all "logs" "http://other/classify" (fun _ => false) empty_answer
    (fun _ => Raise OverflowError) no_log (fun _ => Some OverflowError)
    (indexed [outcome_of "a1" "[]" (PList [])]) [recording "a1" "dawn.wav"]
  = (indexed [outcome_of "a1" "[]" (PList [])], Ok tt).
Proof.
  apply (classify_all_idempotent "audio" classifier every_object empty_answer
           no_taxon every_log every_document (indexed [])
           [recording "a1" "dawn.wav"]).
  - vm_compute. reflexivity.
  - constructor; [reflexivity | constructor].
Defined.


(** *** The observations *)

Lemma ingest_stops_at_non_object_witness :
  Ingest.extract_taxon_and_geo (Ingest.safe_json "[]") = Raise AttributeError
  ∧ Ingest.ingest_lines every_observation "birds" 0 [] (["{}"] ++ "[]" :: ["{}"])
    = ([observation "birds" 0], Raise AttributeError)
  ∧ ∀ kv, ∃ x, Ingest.extract_taxon_and_geo (PDict kv) = Ok x.
Proof.
  apply (ingest_stops_at_non_object every_observation "birds" [] ["{}"] "[]"
           ["{}"] [observation "birds" 0]).
  - vm_compute. reflexivity.
  - reflexivity.
Defined.

Lemma zero_latitude_is_dropped_witness :
  ∃ taxon lon,
    Ingest.extract_taxon_and_geo (PDict equator_payload) = Ok (taxon, None, lon).
Proof.
  apply (zero_latitude_is_dropped equator_payload).
  - right. exists false. reflexivity.
  - reflexivity.
  - repeat split; reflexivity.
Defined.

Lemma ingest_rerun_safe_witness :
  [] `prefix_of` [observation "birds" 0; observation "birds" 1]
  ∧ (NoDup (obs_keys []) →
     NoDup (obs_keys [observation "birds" 0; observation "birds" 1]))
  ∧ (length [observation "birds" 0; observation "birds" 1]
     <= length (@nil Ingest.obs_doc) + length ["{}"; "{}"])%nat
  ∧ Ingest.ingest_lines every_observation "birds" 0
      [observation "birds" 0; observation "birds" 1] ["{}"; "{}"]
    = ([observation "birds" 0; observation "birds" 1], Ok tt).
Proof.
  apply (ingest_rerun_safe every_observation "birds" [] ["{}"; "{}"]
           [observation "birds" 0; observation "birds" 1]).
  vm_compute. reflexivity.
Defined.

Lemma ingest_positions_taken_witness :
  (Ingest.ingest_lines every_observation "birds" 0
     [observation "birds" 0; observation "birds" 1] ["not json"]).1
  = [observation "birds" 0; observation "birds" 1].
Proof.
  apply (ingest_positions_taken every_observation "birds" [] ["{}"; "{}"]
           [observation "birds" 0; observation "birds" 1] ["not json"]).
  - vm_compute. reflexivity.
  - simpl. lia.
Defined.

Lemma ingest_main_status_witness :
  (Ingest.main every_observation "birds" [] "{}" "").2 = 0
  ∧ NoDup (obs_keys (Ingest.main every_observation "birds" [] "{}" "").1)
  ∧ ¬ ∀ j ln,
        Ingest.consume_kafka_lines ("{}" +:+ line_feed +:+ "{}") "" !! j = Some ln →
        storable first_only "birds" (Z.of_nat j) ln.
Proof.
  split; [|split].
  - apply (ingest_main_status every_observation "birds" [] "{}" "").
    split; [constructor|].
    change (Ingest.consume_kafka_lines "{}" "") with ["{}"].
    intros [|j] ln Hj; [|inversion Hj].
    injection Hj as <-. exists None, None, None. split; reflexivity.
  - apply (ingest_main_status every_observation "birds" [] "{}" ""). constructor.
  - intros Hall.
    assert (Hst : (Ingest.main first_only "birds" []
                     ("{}" +:+ line_feed +:+ "{}") "").2 = 0).
    { apply (ingest_main_status first_only "birds" []
               ("{}" +:+ line_feed +:+ "{}") "").
      split; [constructor | exact Hall]. }
    vm_compute in Hst. discriminate.
Defined.

Lemma ingest_first_run_witness :
  ∃ new,
    [observation "other" 0; observation "birds" 0; raw_observation "birds" 1 "not json"]
    = [observation "other" 0] ++ new
    ∧ Forall2 (fun line d =>
                 Ingest.extract_taxon_and_geo (Ingest.safe_json line)
                   = Ok (Ingest.o_taxon_code d, Ingest.o_lat d, Ingest.o_lon d)
                 ∧ Ingest.o_payload d = Ingest.safe_json line
                 ∧ Ingest.o_topic d = "birds") ["{}"; "not json"] new
    ∧ Ingest.o_seq <$> new = seqZ 0 (Z.of_nat (length ["{}"; "not json"])).
Proof.
  apply (ingest_first_run every_observation "birds" [observation "other" 0]
           ["{}"; "not json"]
           [observation "other" 0; observation "birds" 0;
            raw_observation "birds" 1 "not json"]).
  - constructor; [discriminate | constructor].
  - vm_compute. reflexivity.
Defined.

(** *** The taxa *)

Lemma taxon_code_stable_witness :
  "erithacus_rubecula_l" ≠ ""
  ∧ all_chars Taxonomy.is_code_char "erithacus_rubecula_l" = true
  ∧ Taxonomy.make_taxon_code_from_name (Some "erithacus_rubecula_l")
    = Some "erithacus_rubecula_l".
Proof.
  apply (taxon_code_stable (Some " Erithacus  rubecula (L.) ") "erithacus_rubecula_l").
  vm_compute. reflexivity.
Defined.

Lemma parsed_species_witness :
  Taxonomy.parse_row ["Erithacus rubecula"; "Species"] = None.
Proof.
  apply (proj2 (proj2 (parsed_species None))). simpl. lia.
Defined.

Lemma upsert_docs_last_wins_witness :
  Taxonomy.find_code (Some "erithacus_rubecula") (Taxonomy.upsert_docs [] three_taxa)
  = Some robin_taxon_again
  ∧ NoDup (codes (Taxonomy.upsert_docs [] three_taxa)).
Proof.
  destruct (upsert_docs_last_wins [] three_taxa (Some "erithacus_rubecula"))
    as [Hfind Hnd].
  split; [exact Hfind|]. apply Hnd. constructor.
Defined.

Lemma seed_once_witness :
  Taxonomy.seed [wren_taxon] [robin_page] = [wren_taxon].
Proof.
  apply (proj1 (seed_once [wren_taxon] [robin_page])). discriminate.
Defined.

(** *** The upload *)

Lemma upload_keeps_stores_in_step_witness :
  Upload.audio_files nothing_stored `prefix_of` Upload.audio_files dawn_stored
  ∧ Upload.objects nothing_stored ⊆ Upload.objects dawn_stored
  ∧ (NoDup (audio_ids (Upload.audio_files nothing_stored)) →
     NoDup (audio_ids (Upload.audio_files dawn_stored)))
  ∧ (stores_ok nothing_stored → stores_ok dawn_stored).
Proof.
  apply (upload_keeps_stores_in_step content_digest every_upload "audio" "/data"
           f_1_5 f_0_8 nothing_stored audio_directory dawn_stored (Upload.Finished 1 1)).
  vm_compute. reflexivity.
Defined.

Lemma upload_only_audio_witness :
  1 + 1 = Z.of_nat (length (filter (fun p => Upload.is_audio p = true) audio_directory))
  ∧ Z.of_nat (length (Upload.audio_files dawn_stored))
    = Z.of_nat (length (Upload.audio_files nothing_stored)) + 1.
Proof.
  apply (proj2 (upload_only_audio content_digest every_upload "audio" "/data"
                  f_1_5 f_0_8 nothing_stored audio_directory dawn_stored
                  (Upload.Finished 1 1) ltac:(vm_compute; reflexivity)) 1 1).
  reflexivity.
Defined.

Lemma upload_rerun_skips_witness :
  Upload.main content_digest every_upload "audio" "/data" f_1_5 f_0_8
    dawn_stored audio_directory
  = (dawn_stored, Upload.Finished 0 (1 + 1)).
Proof.
  apply (upload_rerun_skips content_digest every_upload "audio" "/data"
           f_1_5 f_0_8 nothing_stored audio_directory dawn_stored 1 1).
  vm_compute. reflexivity.
Defined.

End WorkedMore.
